(** * s3repo: path formatting, uploads, metadata synchronisation, and the view

    A shallow embedding of [src/s3repo/model.py] (class [S3AsyncModel])
    and of [src/s3repo/view.py] (class [S3View]).

    - Python [str] values are lists of characters ([list ascii], so one
      byte per character); string literals of the source are written as
      literals and coerced.
    - [re.fullmatch] is a matcher by derivatives over the three patterns
      of [_format_paths], written as regular-expression syntax trees.
    - Exceptions are a result type; methods that touch [self] run in a
      small state monad over the part of the object they use: the set
      [unsync_repos] and a log of the calls made to the lock, the bucket,
      [subprocess] and [time]. A computation that raises keeps the state
      it had reached.
    - [sync] loops for ever; the model runs it one pass per entry of a
      schedule, each entry saying what that pass meets from outside:
      the member [set.pop()] takes, the exit status of the tool, and
      what other threads do to the set in the meantime.
    - The S3 listing call of discovery is a parameter.
    - The view works on any object with the attributes it uses, so its
      model object is a record of them; [os.path.normpath] is a
      parameter, and the float arithmetic on sizes is done on rationals,
      which is exact where the code compares and prints.
    - In the first part the calls to the object store return and the
      tool starts. [WithFaults] gives [put_package], [sync] and
      [_get_repository_list] once more with calls that may raise, for
      the properties that tell what these methods raise. *)

From Stdlib Require Import ZArith QArith Qabs Qround Ascii String.
From stdpp Require Import base option list gmap sets strings pretty.

Local Open Scope Z_scope.

(** ** Strings *)

Abbreviation str := (list ascii).

Coercion list_ascii_of_string : string >-> list.

(** The double quote character, and the line feed that [.] of [re]
    refuses to match. *)
Definition dquote : ascii := ascii_of_nat 34.
Definition newline : ascii := ascii_of_nat 10.

(** [sep.join(parts)] *)
Definition join (sep : str) (parts : list str) : str :=
  match parts with
  | [] => []
  | p :: ps => p ++ flat_map (fun q => sep ++ q) ps
  end.

(** [s.partition(sep)] for a one-character separator: the part before
    the first separator, the separator itself (empty when there is none)
    and the part after it. *)
Fixpoint partition (sep : ascii) (s : str) : str * str * str :=
  match s with
  | [] => ([], [], [])
  | c :: s' =>
      if decide (c = sep) then ([], [sep], s')
      else let '(before, found, after) := partition sep s' in
           (c :: before, found, after)
  end.

(** ** Regular expressions ([re.fullmatch]) *)

Module Re.

Inductive regex : Type :=
| Void                      (* matches no string *)
| Eps                       (* the empty pattern *)
| Chr (c : ascii)           (* a literal character, also an escaped one *)
| Dot                       (* [.]: any character but a line feed *)
| Cat (r1 r2 : regex)
| Alt (r1 r2 : regex)       (* [r1|r2] *)
| Star (r : regex).         (* [r*] *)

(** A run of literal characters. *)
Fixpoint lit (s : str) : regex :=
  match s with
  | [] => Eps
  | c :: s' => Cat (Chr c) (lit s')
  end.

Fixpoint nullable (r : regex) : bool :=
  match r with
  | Void => false
  | Eps => true
  | Chr _ => false
  | Dot => false
  | Cat r1 r2 => nullable r1 && nullable r2
  | Alt r1 r2 => nullable r1 || nullable r2
  | Star _ => true
  end.

Fixpoint deriv (c : ascii) (r : regex) : regex :=
  match r with
  | Void => Void
  | Eps => Void
  | Chr d => if decide (c = d) then Eps else Void
  | Dot => if decide (c = newline) then Void else Eps
  | Cat r1 r2 =>
      if nullable r1 then Alt (Cat (deriv c r1) r2) (deriv c r2)
      else Cat (deriv c r1) r2
  | Alt r1 r2 => Alt (deriv c r1) (deriv c r2)
  | Star r1 => Cat (deriv c r1) (Star r1)
  end.

(** [re.fullmatch(r, s) is not None] *)
Fixpoint fullmatch (r : regex) (s : str) : bool :=
  match s with
  | [] => nullable r
  | c :: s' => fullmatch (deriv c r) s'
  end.

(** The language of a pattern, as the [re] documentation gives it. *)
Inductive matches : regex → str → Prop :=
| m_eps : matches Eps []
| m_chr c : matches (Chr c) [c]
| m_dot c : c ≠ newline → matches Dot [c]
| m_cat r1 r2 s1 s2 :
    matches r1 s1 → matches r2 s2 → matches (Cat r1 r2) (s1 ++ s2)
| m_alt_l r1 r2 s : matches r1 s → matches (Alt r1 r2) s
| m_alt_r r1 r2 s : matches r2 s → matches (Alt r1 r2) s
| m_star_nil r : matches (Star r) []
| m_star_app r s1 s2 :
    matches r s1 → matches (Star r) s2 → matches (Star r) (s1 ++ s2).

End Re.

(** The three patterns of [_format_paths]. *)

(** [r'.*\.(x86_64|noarch)\.rpm'] *)
Definition rx_rpm_binary : Re.regex :=
  Re.Cat (Re.Star Re.Dot)
    (Re.Cat (Re.Chr ".")
       (Re.Cat (Re.Alt (Re.lit "x86_64") (Re.lit "noarch"))
          (Re.Cat (Re.Chr ".") (Re.lit "rpm")))).

(** [r'.*\.src\.rpm'] *)
Definition rx_rpm_source : Re.regex :=
  Re.Cat (Re.Star Re.Dot)
    (Re.Cat (Re.Chr ".")
       (Re.Cat (Re.lit "src") (Re.Cat (Re.Chr ".") (Re.lit "rpm")))).

(** [r'.*\.(deb|dsc|tar\.xz|tar\.gz)'] *)
Definition rx_deb : Re.regex :=
  Re.Cat (Re.Star Re.Dot)
    (Re.Cat (Re.Chr ".")
       (Re.Alt (Re.lit "deb")
          (Re.Alt (Re.lit "dsc")
             (Re.Alt (Re.Cat (Re.lit "tar") (Re.Cat (Re.Chr ".") (Re.lit "xz")))
                (Re.Cat (Re.lit "tar") (Re.Cat (Re.Chr ".") (Re.lit "gz"))))))).

(** ** Exceptions *)

Inductive exn : Type :=
| S3ModelRequestError (msg : str)
| RuntimeError (msg : str)
| KeyError (key : str).

Inductive result (A : Type) : Type :=
| Ok (a : A)
| Raise (e : exn).

Arguments Ok {A} a.
Arguments Raise {A} e.

(** ** [S3AsyncModel._format_paths] *)

(** [file_type_err.format(filename, dist_base)] *)
Definition file_type_err (filename dist_base : str) : str :=
  "The " ++ [dquote] ++ filename ++ [dquote]
  ++ " file does not match the type of files "
  ++ "used in the " ++ dist_base ++ "-based repositories.".

Definition _format_paths (dist_path dist_version dist_base filename : str)
  : result (str * str) :=
  if decide (dist_base = "rpm") then
    if Re.fullmatch rx_rpm_binary filename then
      let repo_path := join "/" [dist_path; dist_version; "x86_64" : str] in
      let path := join "/" [repo_path; "Packages" : str; filename] in
      Ok (repo_path, path)
    else if Re.fullmatch rx_rpm_source filename then
      let repo_path := join "/" [dist_path; dist_version; "SRPMS" : str] in
      let path := join "/" [repo_path; "Packages" : str; filename] in
      Ok (repo_path, path)
    else Raise (S3ModelRequestError (file_type_err filename dist_base))
  else if decide (dist_base = "deb") then
    if Re.fullmatch rx_deb filename then
      let repo_path := dist_path in
      let path := join "/" [repo_path; "pool" : str; dist_version; "main" : str;
                            take 1 filename; (partition "_" filename).1.1;
                            filename] in
      Ok (repo_path, path)
    else Raise (S3ModelRequestError (file_type_err filename dist_base))
  else Raise (RuntimeError ("Unknown repository base: " ++ dist_base ++ ".")).

(** ** Settings and packages *)

(** One entry of [supported_repos['distrs']]. *)
Record distr : Type := {
  base : str;
  versions : list str;
}.

(** [s3_settings['supported_repos']]; [distrs] keeps the order of the
    dictionary, which [_get_repository_list] iterates. *)
Record supported_repos_t : Type := {
  repo_kind : list str;
  tarantool_series : list str;
  enabled : list str;
  distrs : list (str * distr);
}.

(** [s3_settings]; [None] is an absent (or [None]) entry. *)
Record s3_settings_t : Type := {
  region : str;
  endpoint_url : str;
  bucket_name : str;
  base_path : option str;
  access_key_id : str;
  secret_access_key : str;
  gpg_sign_key : option str;
  supported_repos : supported_repos_t;
}.

(** The readable byte stream of an uploaded file. *)
Record fileobj : Type := { stream_bytes : str }.

Global Instance fileobj_eq_dec : EqDecision fileobj.
Proof. solve_decision. Defined.

(** The package handed to [put_package]; [files] is the dictionary
    [filename -> stream] in insertion order. *)
Module Package.

Record t : Type := {
  repo_kind : str;
  tarantool_series : str;
  dist : str;
  dist_version : str;
  files : list (str * fileobj);
}.

End Package.

Abbreviation package_t := Package.t.

(** The [CopySource] dictionary [{'Bucket': ..., 'Key': ...}]. *)
Record copy_source : Type := {
  Bucket : str;
  Key : str;
}.

Global Instance copy_source_eq_dec : EqDecision copy_source.
Proof. solve_decision. Defined.

(** Truthiness of an optional string: [None] and [''] are false. *)
Definition truthy (o : option str) : option str :=
  match o with
  | Some [] => None
  | _ => o
  end.

(** [d[key]] on a dictionary kept as an association list. *)
Fixpoint assoc {V : Type} (key : str) (d : list (str * V)) : option V :=
  match d with
  | [] => None
  | (k, v) :: d' => if decide (k = key) then Some v else assoc key d'
  end.

(** ** The object and its effects *)

(** What a method does to the outside, in order. *)
Inductive event : Type :=
| EvAcquire                                   (* [sync_lock.acquire()] *)
| EvRelease                                   (* [sync_lock.release()] *)
| EvTest (nonempty : bool)                    (* [if self.unsync_repos] *)
| EvPop (repo : str)                          (* [unsync_repos.pop()] *)
| EvAdd (repo : str)                          (* [unsync_repos.add(repo)] *)
| EvUpdate (repos : gset str)                 (* [unsync_repos.update(repos)] *)
| EvUpload (key : str) (body : fileobj)       (* [Object(key).upload_fileobj(body)] *)
| EvCopy (src : copy_source) (key : str)      (* [bucket.copy(src, key)] *)
| EvPopen (cmd : list str) (env : option str) (* [sp.Popen(cmd, env)], [GPG_SIGN_KEY] *)
| EvSleep (seconds : Z).                      (* [time.sleep(seconds)] *)

Global Instance event_eq_dec : EqDecision event.
Proof. solve_decision. Defined.

(** The mutable part of [self] and the log of its calls. *)
Record world : Type := {
  unsync_repos : gset str;
  log : list event;
}.

Definition emit (e : event) (w : world) : world :=
  {| unsync_repos := unsync_repos w; log := log w ++ [e] |}.

Definition set_unsync (s : gset str) (w : world) : world :=
  {| unsync_repos := s; log := log w |}.

(** A computation runs on a world and leaves one behind, also when it
    raises: what was done before the exception stays done. *)
Definition M (A : Type) : Type := world → result A * world.

Definition ret {A} (a : A) : M A := fun w => (Ok a, w).

Definition raise {A} (e : exn) : M A := fun w => (Raise e, w).

Definition bind {A B} (m : M A) (k : A → M B) : M B :=
  fun w =>
    match m w with
    | (Ok a, w') => k a w'
    | (Raise e, w') => (Raise e, w')
    end.

Definition lift {A} (r : result A) : M A := fun w => (r, w).

Definition tell (e : event) : M unit := fun w => (Ok tt, emit e w).

Declare Scope m_scope.
Delimit Scope m_scope with M.
Notation "x <- m ;; k" := (bind m (fun x => k))
  (at level 100, m at next level, right associativity) : m_scope.
Notation "m ;;; k" := (bind m (fun _ => k))
  (at level 100, right associativity) : m_scope.
Local Open Scope m_scope.

(** *** The lock and the set *)

Definition sync_lock_acquire : M unit := tell EvAcquire.
Definition sync_lock_release : M unit := tell EvRelease.

(** [bool(self.unsync_repos)] *)
Definition unsync_test : M bool :=
  fun w =>
    let b := bool_decide (unsync_repos w ≠ ∅) in
    (Ok b, emit (EvTest b) w).

(** [self.unsync_repos.add(repo)] *)
Definition unsync_add (repo : str) : M unit :=
  fun w => (Ok tt, emit (EvAdd repo) (set_unsync ({[repo]} ∪ unsync_repos w) w)).

(** [self.unsync_repos.update(repos)] *)
Definition unsync_update (repos : gset str) : M unit :=
  fun w => (Ok tt, emit (EvUpdate repos) (set_unsync (repos ∪ unsync_repos w) w)).

(** [set.pop()] removes an arbitrary element: which one is the choice of
    a [chooser], any function that picks a member of a non-empty set. *)
Record chooser : Type := {
  choose :> gset str → option str;
  choose_elem : ∀ s x, choose s = Some x → x ∈ s;
  choose_empty : ∀ s, choose s = None → s = ∅;
}.

(** [self.unsync_repos.pop()] *)
Definition unsync_pop (pick : chooser) : M str :=
  fun w =>
    match pick (unsync_repos w) with
    | Some repo =>
        (Ok repo, emit (EvPop repo) (set_unsync (unsync_repos w ∖ {[repo]}) w))
    | None => (Raise (KeyError "pop from an empty set"), w)
    end.

(** What the other threads do to the set while this one holds no lock. *)
Definition others (f : gset str → gset str) : M unit :=
  fun w => (Ok tt, set_unsync (f (unsync_repos w)) w).

(** *** The bucket *)

Definition upload_fileobj (key : str) (body : fileobj) : M unit :=
  tell (EvUpload key body).

Definition bucket_copy (src : copy_source) (key : str) : M unit :=
  tell (EvCopy src key).

(** ** [S3AsyncModel._upload_files] *)

(** [dist_path_list] of [_upload_files], the same path that
    [_get_repository_list] builds for a kind, a series and a
    distribution: [base_path] goes first unless it is unset or empty. *)
Definition dist_path_of (settings : s3_settings_t) (kind series dist : str) : str :=
  match truthy (base_path settings) with
  | Some bp => join "/" [bp; kind; series; dist]
  | None => join "/" [kind; series; dist]
  end.

(** [self.get_supported_repos()['distrs'][dist]['base']] *)
Definition dist_base_of (settings : s3_settings_t) (dist : str) : result str :=
  match assoc dist (distrs (supported_repos settings)) with
  | Some d => Ok (base d)
  | None => Raise (KeyError dist)
  end.

(** The loop over [package.files.items()]: [origin_files] and
    [unsync_repos_local] are threaded through the iterations. *)
Fixpoint upload_loop (settings : s3_settings_t)
    (dist_path dist_version dist_base : str) (files : list (str * fileobj))
    (origin_files : gmap str copy_source) (unsync_repos_local : gset str)
  : M (gmap str copy_source * gset str) :=
  match files with
  | [] => ret (origin_files, unsync_repos_local)
  | (filename, file) :: rest =>
      paths <- lift (_format_paths dist_path dist_version dist_base filename) ;;
      let '(repo_path, path) := paths in
      origin_files' <-
        match origin_files !! filename with
        | Some src => bucket_copy src path ;;; ret origin_files
        | None =>
            upload_fileobj path file ;;;
            ret (<[filename := {| Bucket := bucket_name settings; Key := path |}]>
                   origin_files)
        end ;;
      upload_loop settings dist_path dist_version dist_base rest
        origin_files' ({[repo_path]} ∪ unsync_repos_local)
  end.

(** Returns [origin_files] as the call leaves it. *)
Definition _upload_files (settings : s3_settings_t) (package : package_t)
    (series : str) (origin_files : gmap str copy_source)
  : M (gmap str copy_source) :=
  let dist_path :=
    dist_path_of settings (Package.repo_kind package) series (Package.dist package) in
  dist_base <- lift (dist_base_of settings (Package.dist package)) ;;
  r <- upload_loop settings dist_path (Package.dist_version package) dist_base
         (Package.files package) origin_files ∅ ;;
  let '(origin_files', unsync_repos_local) := r in
  sync_lock_acquire ;;;
  unsync_update unsync_repos_local ;;;
  sync_lock_release ;;;
  ret origin_files'.

(** ** [S3AsyncModel.put_package] *)

Fixpoint upload_all (settings : s3_settings_t) (package : package_t)
    (series_to_upload : list str) (origin_files : gmap str copy_source) : M unit :=
  match series_to_upload with
  | [] => ret tt
  | series :: rest =>
      origin_files' <- _upload_files settings package series origin_files ;;
      upload_all settings package rest origin_files'
  end.

Definition put_package (settings : s3_settings_t) (package : package_t) : M unit :=
  let tarantool_series_to_upload :=
    if decide (Package.tarantool_series package = "enabled")
    then enabled (supported_repos settings)
    else [Package.tarantool_series package] in
  upload_all settings package tarantool_series_to_upload ∅.

(** ** The stubs *)

(** An expression statement that builds an exception and drops it. *)
Definition discard (e : exn) : M unit := ret tt.

(** [NotImplementedError(msg)], a [RuntimeError] in Python's hierarchy. *)
Definition NotImplementedError (msg : str) : exn := RuntimeError msg.

Definition get_package (package : package_t) : M unit :=
  discard (NotImplementedError "get_package hasn't been implemented yet.").

Definition delete_package (package : package_t) : M unit :=
  discard (NotImplementedError "delete_package hasn't been implemented yet.").

Definition get_file (path : str) : M unit :=
  discard (NotImplementedError "get_file hasn't been implemented yet.").

Definition delete_file (path : str) : M unit :=
  discard (NotImplementedError "delete_file hasn't been implemented yet.").

(** ** Repository discovery *)

Section Discovery.

(** The S3 client, as far as discovery uses it:
    [list_objects_v2(Bucket=..., Delimiter='/', Prefix=prefix)
     .get('CommonPrefixes')], each entry reduced to its ['Prefix']. *)
Variable list_common_prefixes : str → option (list str).

Definition _get_deb_repo_path (base_path : str) : list str :=
  let path := base_path ++ "/" in
  match list_common_prefixes path with
  | None => []
  | Some _ => [path]
  end.

Fixpoint _get_rpm_repo_path (base_path : str) (dist_versions : list str)
  : list str :=
  match dist_versions with
  | [] => []
  | ver :: rest =>
      let common_path := join "/" [base_path; ver] ++ "/" in
      match list_common_prefixes common_path with
      | None => _get_rpm_repo_path base_path rest
      | Some dist_repos_list =>
          dist_repos_list ++ _get_rpm_repo_path base_path rest
      end
  end.

(** The body of the innermost loop of [_get_repository_list]. *)
Definition repos_of_dist (settings : s3_settings_t) (kind series : str)
    (entry : str * distr) : result (list str) :=
  let '(dist, dist_description) := entry in
  let path := dist_path_of settings kind series dist in
  if decide (base dist_description = "deb") then
    Ok (_get_deb_repo_path path)
  else if decide (base dist_description = "rpm") then
    Ok (_get_rpm_repo_path path (versions dist_description))
  else
    Raise (RuntimeError ("Unknown repository base: " ++ base dist_description)).

(** [for x in xs: repos_list.extend(f(x))], stopping at the first
    exception. *)
Fixpoint extend_each {A : Type} (f : A → result (list str)) (xs : list A)
  : result (list str) :=
  match xs with
  | [] => Ok []
  | x :: xs' =>
      match f x with
      | Raise e => Raise e
      | Ok l =>
          match extend_each f xs' with
          | Raise e => Raise e
          | Ok l' => Ok (l ++ l')
          end
      end
  end.

(** The pool's results are read in the order the requests were made. *)
Definition _get_repository_list (settings : s3_settings_t) : result (list str) :=
  let sr := supported_repos settings in
  extend_each (fun kind =>
    extend_each (fun series =>
      extend_each (repos_of_dist settings kind series) (distrs sr))
      (tarantool_series sr))
    (repo_kind sr).

End Discovery.

(** ** [S3AsyncModel.sync] *)

(** What one pass of the loop meets from outside: the member that
    [pop] removes, the exit status of the tool, and what the other
    threads do to the set at the two places where this thread holds no
    lock between two of its own accesses. *)
Record oracle : Type := {
  pick : chooser;
  exit_status : Z;
  before_pop : gset str → gset str;
  while_running : gset str → gset str;
}.

Definition mkrepo_cmd (settings : s3_settings_t) (sync_repo : str) : list str :=
  [ "./third_party/mkrepo/mkrepo.py" : str;
    "--s3-access-key-id" : str; access_key_id settings;
    "--s3-secret-access-key" : str; secret_access_key settings;
    "--s3-endpoint" : str; endpoint_url settings;
    "--s3-region" : str; region settings ]
  ++ match truthy (gpg_sign_key settings) with
     | Some _ => ["--sign" : str]
     | None => []
     end
  ++ [ "s3://" ++ bucket_name settings ++ "/" ++ sync_repo ].

Inductive flow : Type := Continue | Break.

(** One pass through the body of [while True]. *)
Definition sync_iteration (settings : s3_settings_t) (permanent : bool)
    (o : oracle) : M flow :=
  nonempty <- unsync_test ;;
  if (nonempty : bool) then
    others (before_pop o) ;;;
    sync_lock_acquire ;;;
    sync_repo <- unsync_pop (pick o) ;;
    sync_lock_release ;;;
    tell (EvPopen (mkrepo_cmd settings sync_repo) (truthy (gpg_sign_key settings))) ;;;
    others (while_running o) ;;;
    let result := exit_status o in
    (if decide (result ≠ 0) then
       sync_lock_acquire ;;;
       unsync_add sync_repo ;;;
       sync_lock_release
     else ret tt) ;;;
    ret Continue
  else if permanent then
    tell (EvSleep 5) ;;;
    ret Continue
  else
    ret Break.

(** Whether [sync] has returned after the passes it was given. *)
Inductive status : Type := Returned | Running.

(** [sync(permanent)] run for one pass per oracle of the schedule. *)
Fixpoint sync (settings : s3_settings_t) (permanent : bool)
    (schedule : list oracle) : M status :=
  match schedule with
  | [] => ret Running
  | o :: schedule' =>
      f <- sync_iteration settings permanent o ;;
      match f with
      | Break => ret Returned
      | Continue => sync settings permanent schedule'
      end
  end.

(** ** [S3AsyncModel.sync_all_repos] *)

Fixpoint add_each (repos : list str) : M unit :=
  match repos with
  | [] => ret tt
  | repo :: rest => unsync_add repo ;;; add_each rest
  end.

(** What [res.wait()] leaves of a worker: [sync] returned or is still
    in its loop when the schedule ends, or it died of an exception,
    which [wait] does not raise again. *)
Inductive worker_result : Type :=
| Done (st : status)
| Died (e : exn).

Definition pool_worker (settings : s3_settings_t) (schedule : list oracle)
  : M worker_result :=
  fun w =>
    match sync settings false schedule w with
    | (Ok st, w') => (Ok (Done st), w')
    | (Raise e, w') => (Ok (Died e), w')
    end.

(** The [n] workers of the pool, one schedule each (none: no pass),
    run one after the other: one of the interleavings the thread pool
    allows. *)
Fixpoint run_workers (settings : s3_settings_t) (n : nat)
    (schedules : list (list oracle)) : M (list worker_result) :=
  match n with
  | O => ret []
  | S n' =>
      r <- pool_worker settings (default [] (head schedules)) ;;
      rs <- run_workers settings n' (tail schedules) ;;
      ret (r :: rs)
  end.

Definition threads_num : nat := 20.

Definition sync_all_repos (list_common_prefixes : str → option (list str))
    (settings : s3_settings_t) (schedules : list (list oracle))
  : M (list worker_result) :=
  repos_to_update <- lift (_get_repository_list list_common_prefixes settings) ;;
  sync_lock_acquire ;;;
  add_each repos_to_update ;;;
  sync_lock_release ;;;
  run_workers settings threads_num schedules.

(** ** The locking rule *)

(** The comment in [__init__]: all actions with [unsync_repos] must be
    done under the [sync_lock]. *)
Definition touches_unsync_repos (e : event) : bool :=
  match e with
  | EvTest _ | EvPop _ | EvAdd _ | EvUpdate _ => true
  | _ => false
  end.

(** Whether every access to the set in a log happens between an
    [acquire] and the next [release]; [held] is the state of the lock
    at the start. *)
Fixpoint lock_guarded (held : bool) (l : list event) : bool :=
  match l with
  | [] => true
  | EvAcquire :: l' => lock_guarded true l'
  | EvRelease :: l' => lock_guarded false l'
  | e :: l' => (negb (touches_unsync_repos e) || held) && lock_guarded held l'
  end.

(** ** Module constants *)

(** [ALLOWED_EXTENSIONS] *)
Definition ALLOWED_EXTENSIONS : gset str :=
  {[ ".rpm" : str; ".deb" : str; ".dsc" : str; ".xz" : str; ".gz" : str ]}.

(** * s3repo.view: the pages and downloads of [S3View]

    [src/s3repo/view.py]. The view is given a model object and uses of
    it [s3_settings], [bucket.name], [get_directory] and [get_file];
    Flask's [jsonify], [Response] and [render_template] are the three
    kinds of response. *)

(** ** More on strings *)

(** [s.split(sep)] for a one-character separator. *)
Fixpoint split (sep : ascii) (s : str) : list str :=
  match s with
  | [] => [[]]
  | c :: s' =>
      if decide (c = sep) then [] :: split sep s'
      else match split sep s' with
           | [] => [[c]]
           | h :: t => (c :: h) :: t
           end
  end.

(** [s.lstrip(c)], [s.rstrip(c)] and [s.strip(c)] for one character. *)
Fixpoint lstrip (c : ascii) (s : str) : str :=
  match s with
  | [] => []
  | d :: s' => if decide (d = c) then lstrip c s' else s
  end.

Definition rstrip (c : ascii) (s : str) : str := reverse (lstrip c (reverse s)).

Definition strip (c : ascii) (s : str) : str := rstrip c (lstrip c s).

(** ** Sizes

    [size] starts as an [int] and becomes a [float] at the first
    division. Up to [2^53] the conversion is exact, and so is every
    division by [1024.0], a power of two: the rationals below are the
    values of the floats. From [2^53] on the conversion rounds, to a
    float that is still [2^53] or more, and no test of the loop comes
    out differently. An integer beyond the range of floats makes the
    division raise [OverflowError]; sizes are taken below [2^1023]
    where that matters. *)

(** The nearest integer, a tie going to the even one: the rounding of
    the [%f] conversion. *)
Definition round_half_even (q : Q) : Z :=
  let fl := Qfloor q in
  match Qcompare (q - inject_Z fl) (1 # 2) with
  | Lt => fl
  | Gt => fl + 1
  | Eq => if Z.even fl then fl else fl + 1
  end.

(** ["%3.1f" % x]: one digit after the point; the three characters of
    the width are always there. *)
Definition format_3_1f (x : Q) : str :=
  let t := round_half_even (Qabs x * 10) in
  (if Qlt_le_dec x 0 then "-" : str else "" : str)
  ++ (pretty (t / 10) : string) ++ "." ++ (pretty (t mod 10) : string).

(** The loop [for unit in ['', 'Ki', 'Mi', 'Gi']] of [get_directory];
    [readable_size] is still [''] when the loop ends without [break]. *)
Fixpoint readable_size (size : Q) (units : list str) : str :=
  match units with
  | [] => []
  | unit :: rest =>
      if Qlt_le_dec (Qabs size) 1024 then
        format_3_1f size ++ " " ++ unit ++ "B"
      else readable_size (size / 1024) rest
  end.

Module S3View.

(** ** Responses *)

(** An entry of a directory listing, a named tuple of which the view
    reads and replaces [Size]: [''] ([None] here) or what [int] takes,
    given by its value, before; a text after. [fields] stands for the
    other fields. *)
Record item (fields size : Type) : Type := {
  item_fields : fields;
  Size : size;
}.
Arguments item_fields {fields size} _.
Arguments Size {fields size} _.

(** [item._replace(Size=readable_size)] *)
Definition _replace {fields size size' : Type} (it : item fields size)
    (new_size : size') : item fields size' :=
  {| item_fields := item_fields it; Size := new_size |}.

(** [list_parameters] of [get_directory]. *)
Record list_parameters (fields : Type) : Type := {
  displayed_path : str;
  path : str;
  parent_path : str;
  items : list (item fields str);
}.
Arguments displayed_path {fields} _.
Arguments path {fields} _.
Arguments parent_path {fields} _.
Arguments items {fields} _.

Inductive response (fields : Type) : Type :=
| Json (message : str) (status_code : Z)
    (* [jsonify({'message': message})] with its [status_code] set *)
| Attachment (data : str) (mimetype : str) (headers : list (str * str))
    (* [Response(data, mimetype=..., headers=...)] *)
| Rendered (template : str) (parameters : list_parameters fields).
    (* [render_template(template, **parameters)] *)
Arguments Json {fields} _ _.
Arguments Attachment {fields} _ _ _.
Arguments Rendered {fields} _ _.

(** What the store answers to a download: [responce['Body'].read()]
    gives the bytes. *)
Record s3_object : Type := { Body : fileobj }.

(** The exceptions met in the view: those the model knows, and two of
    the interpreter. *)
Inductive view_exn : Type :=
| Exn (e : exn)
| TypeError
| AttributeError.

Inductive view_result (A : Type) : Type :=
| Returns (a : A)
| Raises (e : view_exn).
Arguments Returns {A} _.
Arguments Raises {A} _.

(** The model object as the view uses it. A class without a
    [get_directory] method has [None] there. [fields] stands for the
    fields of the listing's entries that the view does not touch. *)
Record model_t (fields : Type) : Type := {
  model_s3_settings : s3_settings_t;
  model_bucket_name : str;
  model_get_directory : option (str → M (list (item fields (option Z))));
  model_get_file : str → M (option s3_object);
}.
Arguments model_s3_settings {fields} _.
Arguments model_bucket_name {fields} _.
Arguments model_get_directory {fields} _.
Arguments model_get_file {fields} _.

(** An [S3AsyncModel] seen from the view: it has no [get_directory],
    and its [get_file] is the stub, which returns [None]. *)
Definition S3AsyncModel (fields : Type) (settings : s3_settings_t)
  : model_t fields :=
  {| model_s3_settings := settings;
     model_bucket_name := bucket_name settings;
     model_get_directory := None;
     model_get_file := fun path => get_file path ;;; ret None |}.

Section View.

(** [os.path.normpath] *)
Variable normpath : str → str.

Context {fields : Type}.

Definition response_message (message : str) (status : Z) : response fields :=
  Json message status.

(** The body of the loop over [items]. *)
Definition readable_item (it : item fields (option Z)) : item fields str :=
  match Size it with
  | None => _replace it ([] : str)
  | Some size =>
      _replace it (readable_size (inject_Z size)
                     ["" : str; "Ki" : str; "Mi" : str; "Gi" : str])
  end.

Definition get_directory (abs_path rel_path bucket_name : str)
    (items : list (item fields (option Z))) : response fields :=
  let displayed_path := normpath (join "/" ["" : str; bucket_name; abs_path]) in
  let parts := split "/" rel_path in
  let parent_path := join "/" (take (length parts - 2) parts) in
  let readable_items := map readable_item items in
  Rendered "index.html"
    {| displayed_path := displayed_path;
       path := rel_path;
       parent_path := parent_path;
       items := readable_items |}.

(** [responce['Body']] fails on [None]. *)
Definition get_file (path : str) (responce : option s3_object)
  : view_result (response fields) :=
  let filename := default [] (last (split "/" path)) in
  match responce with
  | None => Raises TypeError
  | Some r =>
      Returns (Attachment (stream_bytes (Body r)) "application/octet-stream"
                 [("Content-Disposition" : str, "attachment; filename=" ++ filename)])
  end.

(** [except RuntimeError as err], [err_msg] being what it is when the
    exception comes. *)
Definition except_RuntimeError (err_msg : str)
    (r : view_result (response fields)) : view_result (response fields) :=
  match r with
  | Raises (Exn (RuntimeError err)) =>
      Returns (response_message (err_msg ++ err) 500)
  | _ => r
  end.

Definition dispatch_request (model : model_t fields) (subpath type : str)
  : world → view_result (response fields) * world :=
  fun w =>
    let rel_path := if decide (strip "/" subpath = "index") then [] else subpath in
    match base_path (model_s3_settings model) with
    | None => (Raises TypeError, w)
    | Some base_path =>
        let abs_path := normpath (join "/" [base_path; rel_path]) in
        let abs_path := strip "/" abs_path in
        let err_msg : str := [] in
        if decide (type = "directory") then
          let abs_path :=
            if decide (abs_path ≠ []) then abs_path ++ "/" else abs_path in
          match model_get_directory model with
          | None => (except_RuntimeError err_msg (Raises AttributeError), w)
          | Some model_get_directory =>
              match model_get_directory abs_path w with
              | (Raise e, w') => (except_RuntimeError err_msg (Raises (Exn e)), w')
              | (Ok items, w') =>
                  let err_msg : str := "Can't show the directory in S3: " in
                  (except_RuntimeError err_msg
                     (Returns (get_directory abs_path rel_path
                                 (model_bucket_name model) items)), w')
              end
          end
        else if decide (type = "file") then
          match model_get_file model abs_path w with
          | (Raise e, w') => (except_RuntimeError err_msg (Raises (Exn e)), w')
          | (Ok responce, w') =>
              let err_msg : str := "Can't download file from S3: " in
              (except_RuntimeError err_msg (get_file abs_path responce), w')
          end
        else
          (except_RuntimeError err_msg
             (Returns (response_message "Wrong URL." 404)), w)
    end.

End View.

End S3View.

(** * Calls that fail

    Above, every call to the object store returns, the listing
    included, and the tool always starts. In the code each of them can
    raise, and the exception leaves the method that made the call. The
    methods are given here once more with such calls: [put_package] and
    [_upload_files] with a store that may refuse an upload or a copy,
    [sync] with a [Popen] that may fail to start the tool, and
    [_get_repository_list] with a listing that may raise inside the
    pool. Where no call fails they do what the methods above do. *)

Module WithFaults.

(** What leaves a method. *)
Inductive raised : Type :=
| Own (e : exn)            (* raised by the code of the model itself *)
| StoreError (msg : str)   (* raised by a call to the object store *)
| OSError (msg : str).     (* raised by [sp.Popen] *)

Inductive outcome (A : Type) : Type :=
| Returns (a : A)
| Raises (e : raised).
Arguments Returns {A} _.
Arguments Raises {A} _.

Definition of_result {A} (r : result A) : outcome A :=
  match r with
  | Ok a => Returns a
  | Raise e => Raises (Own e)
  end.

Definition F (A : Type) : Type := world → outcome A * world.

Definition ret {A} (a : A) : F A := fun w => (Returns a, w).

Definition bind {A B} (m : F A) (k : A → F B) : F B :=
  fun w =>
    match m w with
    | (Returns a, w') => k a w'
    | (Raises e, w') => (Raises e, w')
    end.

(** A step that can raise only what the model raises itself. *)
Definition own {A} (m : M A) : F A :=
  fun w => let '(r, w') := m w in (of_result r, w').

Declare Scope f_scope.
Delimit Scope f_scope with F.
Notation "x <- m ;; k" := (bind m (fun x => k))
  (at level 100, m at next level, right associativity) : f_scope.
Notation "m ;;; k" := (bind m (fun _ => k))
  (at level 100, right associativity) : f_scope.
Local Open Scope f_scope.

(** ** The bucket *)

(** What the store does to a call, given all that was done before:
    [None] lets it return, [Some msg] makes it raise. The log keeps the
    calls that have returned. *)
Definition faults : Type := world → event → option str.

Section Upload.

Variable faulty : faults.

Definition store_call (call : event) : F unit :=
  fun w =>
    match faulty w call with
    | Some msg => (Raises (StoreError msg), w)
    | None => (Returns tt, emit call w)
    end.

Definition upload_fileobj (key : str) (body : fileobj) : F unit :=
  store_call (EvUpload key body).

Definition bucket_copy (src : copy_source) (key : str) : F unit :=
  store_call (EvCopy src key).

(** ** [S3AsyncModel._upload_files] *)

Fixpoint upload_loop (settings : s3_settings_t)
    (dist_path dist_version dist_base : str) (files : list (str * fileobj))
    (origin_files : gmap str copy_source) (unsync_repos_local : gset str)
  : F (gmap str copy_source * gset str) :=
  match files with
  | [] => ret (origin_files, unsync_repos_local)
  | (filename, file) :: rest =>
      paths <- own (lift (_format_paths dist_path dist_version dist_base filename)) ;;
      let '(repo_path, path) := paths in
      origin_files' <-
        match origin_files !! filename with
        | Some src => bucket_copy src path ;;; ret origin_files
        | None =>
            upload_fileobj path file ;;;
            ret (<[filename := {| Bucket := bucket_name settings; Key := path |}]>
                   origin_files)
        end ;;
      upload_loop settings dist_path dist_version dist_base rest
        origin_files' ({[repo_path]} ∪ unsync_repos_local)
  end.

Definition _upload_files (settings : s3_settings_t) (package : package_t)
    (series : str) (origin_files : gmap str copy_source)
  : F (gmap str copy_source) :=
  let dist_path :=
    dist_path_of settings (Package.repo_kind package) series (Package.dist package) in
  dist_base <- own (lift (dist_base_of settings (Package.dist package))) ;;
  r <- upload_loop settings dist_path (Package.dist_version package) dist_base
         (Package.files package) origin_files ∅ ;;
  let '(origin_files', unsync_repos_local) := r in
  own sync_lock_acquire ;;;
  own (unsync_update unsync_repos_local) ;;;
  own sync_lock_release ;;;
  ret origin_files'.

(** ** [S3AsyncModel.put_package] *)

Fixpoint upload_all (settings : s3_settings_t) (package : package_t)
    (series_to_upload : list str) (origin_files : gmap str copy_source) : F unit :=
  match series_to_upload with
  | [] => ret tt
  | series :: rest =>
      origin_files' <- _upload_files settings package series origin_files ;;
      upload_all settings package rest origin_files'
  end.

Definition put_package (settings : s3_settings_t) (package : package_t) : F unit :=
  let tarantool_series_to_upload :=
    if decide (Package.tarantool_series package = "enabled")
    then enabled (supported_repos settings)
    else [Package.tarantool_series package] in
  upload_all settings package tarantool_series_to_upload ∅.

End Upload.

(** ** [S3AsyncModel.sync] *)

(** What a pass meets: all that an [oracle] says, and whether [Popen]
    starts the tool ([None]) or raises. *)
Record encounter : Type := {
  meets : oracle;
  popen_raises : option str;
}.

(** [sp.Popen(cmd, env=env)] *)
Definition Popen (cmd : list str) (env : option str) (raises : option str)
  : F unit :=
  fun w =>
    match raises with
    | Some msg => (Raises (OSError msg), w)
    | None => (Returns tt, emit (EvPopen cmd env) w)
    end.

Definition sync_iteration (settings : s3_settings_t) (permanent : bool)
    (o : encounter) : F flow :=
  nonempty <- own unsync_test ;;
  if (nonempty : bool) then
    own (others (before_pop (meets o))) ;;;
    own sync_lock_acquire ;;;
    sync_repo <- own (unsync_pop (pick (meets o))) ;;
    own sync_lock_release ;;;
    Popen (mkrepo_cmd settings sync_repo) (truthy (gpg_sign_key settings))
      (popen_raises o) ;;;
    own (others (while_running (meets o))) ;;;
    let result := exit_status (meets o) in
    (if decide (result ≠ 0) then
       own sync_lock_acquire ;;;
       own (unsync_add sync_repo) ;;;
       own sync_lock_release
     else ret tt) ;;;
    ret Continue
  else if permanent then
    own (tell (EvSleep 5)) ;;;
    ret Continue
  else
    ret Break.

Fixpoint sync (settings : s3_settings_t) (permanent : bool)
    (schedule : list encounter) : F status :=
  match schedule with
  | [] => ret Running
  | o :: schedule' =>
      f <- sync_iteration settings permanent o ;;
      match f with
      | Break => ret Returned
      | Continue => sync settings permanent schedule'
      end
  end.

(** ** Repository discovery *)

(** A request handed to the pool: [pool.apply_async(method, args)]. *)
Inductive task : Type :=
| DebTask (path : str)                          (* [_get_deb_repo_path] *)
| RpmTask (path : str) (versions : list str).   (* [_get_rpm_repo_path] *)

(** The body of the innermost loop of [_get_repository_list]: the
    request is made, the listing is not yet called. *)
Definition task_of (settings : s3_settings_t) (kind series : str)
    (entry : str * distr) : result (list task) :=
  let '(dist, dist_description) := entry in
  let path := dist_path_of settings kind series dist in
  if decide (base dist_description = "deb") then
    Ok [DebTask path]
  else if decide (base dist_description = "rpm") then
    Ok [RpmTask path (versions dist_description)]
  else
    Raise (RuntimeError ("Unknown repository base: " ++ base dist_description)).

(** [for x in xs: ...result_list.append(...)], stopping at the first
    exception. *)
Fixpoint append_each {A B : Type} (f : A → result (list B)) (xs : list A)
  : result (list B) :=
  match xs with
  | [] => Ok []
  | x :: xs' =>
      match f x with
      | Raise e => Raise e
      | Ok l =>
          match append_each f xs' with
          | Raise e => Raise e
          | Ok l' => Ok (l ++ l')
          end
      end
  end.

(** [result_list] when the three loops are through. *)
Definition result_list (settings : s3_settings_t) : result (list task) :=
  let sr := supported_repos settings in
  append_each (fun kind =>
    append_each (fun series =>
      append_each (task_of settings kind series) (distrs sr))
      (tarantool_series sr))
    (repo_kind sr).

Section Discovery.

(** The listing call, which may raise. *)
Variable list_common_prefixes : str → outcome (option (list str)).

Definition _get_deb_repo_path (base_path : str) : outcome (list str) :=
  let path := base_path ++ "/" in
  match list_common_prefixes path with
  | Raises e => Raises e
  | Returns None => Returns []
  | Returns (Some _) => Returns [path]
  end.

Fixpoint _get_rpm_repo_path (base_path : str) (dist_versions : list str)
  : outcome (list str) :=
  match dist_versions with
  | [] => Returns []
  | ver :: rest =>
      let common_path := join "/" [base_path; ver] ++ "/" in
      match list_common_prefixes common_path with
      | Raises e => Raises e
      | Returns None => _get_rpm_repo_path base_path rest
      | Returns (Some dist_repos_list) =>
          match _get_rpm_repo_path base_path rest with
          | Raises e => Raises e
          | Returns repos_list => Returns (dist_repos_list ++ repos_list)
          end
      end
  end.

(** [res.get()]: what the task returned, or the exception it raised,
    raised again. *)
Definition get (res : task) : outcome (list str) :=
  match res with
  | DebTask path => _get_deb_repo_path path
  | RpmTask path versions => _get_rpm_repo_path path versions
  end.

(** [for res in result_list: repos_list.extend(res.get())] *)
Fixpoint extend_all (results : list task) : outcome (list str) :=
  match results with
  | [] => Returns []
  | res :: rest =>
      match get res with
      | Raises e => Raises e
      | Returns l =>
          match extend_all rest with
          | Raises e => Raises e
          | Returns l' => Returns (l ++ l')
          end
      end
  end.

Definition _get_repository_list (settings : s3_settings_t) : outcome (list str) :=
  match result_list settings with
  | Raise e => Raises (Own e)
  | Ok results => extend_all results
  end.

End Discovery.

End WithFaults.

(** * Vocabulary of the properties *)

(** ** Logs and worlds *)

Definition emit_all (es : list event) (w : world) : world :=
  {| unsync_repos := unsync_repos w; log := log w ++ es |}.

(** [sync_lock.acquire(); unsync_repos.update(local); sync_lock.release()] *)
Definition commit (local : gset str) (w : world) : world :=
  {| unsync_repos := local ∪ unsync_repos w;
     log := log w ++ [EvAcquire; EvUpdate local; EvRelease] |}.

(** The calls to the object store. *)
Definition store_op (e : event) : bool :=
  match e with
  | EvUpload _ _ | EvCopy _ _ => true
  | _ => false
  end.

(** The uploads and the copies of a log, in order. *)
Definition uploads_of (l : list event) : list (str * fileobj) :=
  omap (λ e, match e with EvUpload key body => Some (key, body) | _ => None end) l.

Definition copies_of (l : list event) : list (copy_source * str) :=
  omap (λ e, match e with EvCopy src key => Some (src, key) | _ => None end) l.




Definition is_popen (e : event) : bool :=
  match e with EvPopen _ _ => true | _ => false end.

Definition is_sleep (e : event) : bool :=
  match e with EvSleep _ => true | _ => false end.

Definition count_events (p : event → bool) (l : list event) : nat :=
  length (List.filter p l).

(** No other thread touches the set during the pass. *)
Definition quiet (o : oracle) : Prop :=
  (∀ s, before_pop o s = s) ∧ (∀ s, while_running o s = s).

(** ** File names *)

Definition no_newline (s : str) : Prop := Forall (λ c, c ≠ newline) s.

Global Instance no_newline_dec s : Decision (no_newline s).
Proof. unfold no_newline. apply _. Defined.

(** The extensions of the two layouts, as the spec lists them. *)
Definition rpm_binary_extensions : list str := [".x86_64.rpm" : str; ".noarch.rpm" : str].
Definition rpm_source_extensions : list str := [".src.rpm" : str].
Definition deb_extensions : list str :=
  [".deb" : str; ".dsc" : str; ".tar.xz" : str; ".tar.gz" : str].

(** A name made of a prefix without line feed and one of the extensions. *)
Definition accepted (exts : list str) (filename : str) : Prop :=
  ∃ p ext, no_newline p ∧ ext ∈ exts ∧ filename = p ++ ext.

(** A name that ends in one of the extensions. *)
Definition has_extension (exts : list str) (filename : str) : Prop :=
  ∃ ext, ext ∈ exts ∧ ext `suffix_of` filename.

(** A name the layout of the distribution takes. *)
Definition valid_name (dist_base filename : str) : Prop :=
  (dist_base = "rpm" ∧
   accepted (rpm_binary_extensions ++ rpm_source_extensions) filename)
  ∨ (dist_base = "deb" ∧ accepted deb_extensions filename).

(** Where [_format_paths] puts a file: the pair it returns. *)
Definition placed (dist_path dist_version dist_base filename : str) : str * str :=
  match _format_paths dist_path dist_version dist_base filename with
  | Ok paths => paths
  | Raise _ => ([], [])
  end.

(** The name is refused under the layout of the package's distribution. *)
Definition fails_validation (settings : s3_settings_t) (package : package_t)
    (series filename : str) : Prop :=
  ∀ dist_base, dist_base_of settings (Package.dist package) = Ok dist_base →
    ∃ e, _format_paths
           (dist_path_of settings (Package.repo_kind package) series (Package.dist package))
           (Package.dist_version package) dist_base filename = Raise e.

(** ** The loop of [_upload_files], in closed form *)

(** The origin recorded for a file uploaded under [dp], [dv], [b]. *)
Definition origin_of (settings : s3_settings_t) (dp dv b f : str) : copy_source :=
  {| Bucket := bucket_name settings; Key := (placed dp dv b f).2 |}.

(** [origin_files] and [unsync_repos_local] after the loop. *)
Definition record_origins (settings : s3_settings_t) (dp dv b : str)
    (files : list (str * fileobj)) (origin : gmap str copy_source)
  : gmap str copy_source :=
  foldl (λ m fb, <[fb.1 := origin_of settings dp dv b fb.1]> m) origin files.

Definition mark_all (dp dv b : str) (files : list (str * fileobj))
    (local : gset str) : gset str :=
  foldl (λ s fb, {[(placed dp dv b fb.1).1]} ∪ s) local files.

(** ** A bucket to run discovery on *)

(** From the contract of the S3 listing call: with a delimiter, the
    keys that start with the prefix and have the delimiter after it are
    rolled up into common prefixes, each the prefix followed by the key
    up to and including the next delimiter; the response has no
    [CommonPrefixes] entry when there are none. *)
Fixpoint strip_prefix (prefix key : str) : option str :=
  match prefix, key with
  | [], _ => Some key
  | c :: prefix', d :: key' =>
      if decide (c = d) then strip_prefix prefix' key' else None
  | _ :: _, [] => None
  end.

Definition common_prefix (prefix key : str) : option str :=
  match strip_prefix prefix key with
  | None => None
  | Some rest =>
      match partition "/" rest with
      | (before, _ :: _, _) => Some (prefix ++ before ++ "/")
      | (_, [], _) => None
      end
  end.

Definition bucket_common_prefixes (keys : list str) (prefix : str)
  : option (list str) :=
  match remove_dups (omap (common_prefix prefix) keys) with
  | [] => None
  | l => Some l
  end.

(** ** The lock along a log *)

(** Whether the lock is held after the log, [held] being its state
    before. *)
Fixpoint lock_after (held : bool) (l : list event) : bool :=
  match l with
  | [] => held
  | EvAcquire :: l' => lock_after true l'
  | EvRelease :: l' => lock_after false l'
  | _ :: l' => lock_after held l'
  end.

(** ** The series of a package *)

(** [tarantool_series_to_upload] of [put_package]. *)
Definition series_to_upload (settings : s3_settings_t) (package : package_t)
  : list str :=
  if decide (Package.tarantool_series package = "enabled")
  then enabled (supported_repos settings)
  else [Package.tarantool_series package].

(** The paths popped and the commands run in a log, in order. *)
Definition pops_of (l : list event) : list str :=
  omap (λ e, match e with EvPop repo => Some repo | _ => None end) l.

Definition popens_of (l : list event) : list (list str * option str) :=
  omap (λ e, match e with EvPopen cmd env => Some (cmd, env) | _ => None end) l.

(** The settings with another signing key. *)
Definition with_gpg_sign_key (key : option str) (settings : s3_settings_t)
  : s3_settings_t :=
  {| region := region settings;
     endpoint_url := endpoint_url settings;
     bucket_name := bucket_name settings;
     base_path := base_path settings;
     access_key_id := access_key_id settings;
     secret_access_key := secret_access_key settings;
     gpg_sign_key := key;
     supported_repos := supported_repos settings |}.

(** ** What discovery reports *)

(** The bases [_get_repository_list] has a branch for. *)
Definition known_base (entry : str * distr) : Prop :=
  base entry.2 = "deb" ∨ base entry.2 = "rpm".

(** A path that the listing calls of discovery give for some kind,
    series and distribution of the configuration: the path of a deb
    distribution followed by [/] where the bucket has something under
    it, a common prefix under a version of an rpm distribution. *)
Definition discovered (list_common_prefixes : str → option (list str))
    (settings : s3_settings_t) (p : str) : Prop :=
  ∃ kind series dist d,
    kind ∈ repo_kind (supported_repos settings) ∧
    series ∈ tarantool_series (supported_repos settings) ∧
    (dist, d) ∈ distrs (supported_repos settings) ∧
    let path := dist_path_of settings kind series dist in
    (base d = "deb" ∧ p = path ++ "/" ∧ is_Some (list_common_prefixes (path ++ "/")))
    ∨ (base d = "rpm" ∧
       ∃ ver l, ver ∈ versions d ∧
                list_common_prefixes (join "/" [path; ver] ++ "/") = Some l ∧
                p ∈ l).

(** ** The path a request asks the model for *)

(** [rel_path] and the stripped [abs_path] of [dispatch_request]. *)
Definition rel_path_of (subpath : str) : str :=
  if decide (strip "/" subpath = "index") then [] else subpath.

Definition abs_path_of (normpath : str → str) (base_path subpath : str) : str :=
  strip "/" (normpath (join "/" [base_path; rel_path_of subpath])).

(** The path of a directory: empty for the root, closed by [/]
    otherwise. *)
Definition as_directory (abs_path : str) : str :=
  if decide (abs_path ≠ []) then abs_path ++ "/" else abs_path.

(** ** The listing calls of discovery, in order *)

(** The requests of discovery for a configuration whose bases are all
    known, in the order in which they are made and their results
    read. *)
Definition tasks_of_entry (settings : s3_settings_t) (kind series : str)
    (entry : str * distr) : list WithFaults.task :=
  let path := dist_path_of settings kind series entry.1 in
  if decide (base entry.2 = "deb") then [WithFaults.DebTask path]
  else if decide (base entry.2 = "rpm") then
    [WithFaults.RpmTask path (versions entry.2)]
  else [].

Definition requests (settings : s3_settings_t) : list WithFaults.task :=
  flat_map (λ kind,
    flat_map (λ series,
      flat_map (tasks_of_entry settings kind series)
        (distrs (supported_repos settings)))
      (tarantool_series (supported_repos settings)))
    (repo_kind (supported_repos settings)).

(** The prefixes a task lists, as long as no listing raises. *)
Definition prefixes_of (t : WithFaults.task) : list str :=
  match t with
  | WithFaults.DebTask path => [path ++ "/"]
  | WithFaults.RpmTask path versions =>
      map (λ ver, join "/" [path; ver] ++ "/") versions
  end.

Definition listing_prefixes (settings : s3_settings_t) : list str :=
  flat_map prefixes_of (requests settings).

(** The first exception among the listings of these prefixes. *)
Fixpoint first_raise (list_common_prefixes : str → WithFaults.outcome (option (list str)))
    (prefixes : list str) : option WithFaults.raised :=
  match prefixes with
  | [] => None
  | p :: rest =>
      match list_common_prefixes p with
      | WithFaults.Raises e => Some e
      | WithFaults.Returns _ => first_raise list_common_prefixes rest
      end
  end.

(** A listing that always returns. *)
Definition returning (list_common_prefixes : str → option (list str))
  : str → WithFaults.outcome (option (list str)) :=
  λ p, WithFaults.Returns (list_common_prefixes p).

(** The requests, once their results are read, give what the loops of
    the first part give, exception for exception. *)
Definition agree (list_common_prefixes : str → option (list str))
    (old : result (list str)) (new : result (list WithFaults.task)) : Prop :=
  match new with
  | Ok results =>
      ∃ l, old = Ok l ∧
           WithFaults.extend_all (returning list_common_prefixes) results
           = WithFaults.Returns l
  | Raise e => old = Raise e
  end.

(** * Data to run the model on *)

Definition example_repos : supported_repos_t :=
  {| repo_kind := ["live" : str; "release" : str];
     tarantool_series := ["1.10" : str; "2.8" : str];
     enabled := ["1.10" : str; "2.8" : str];
     distrs := [ ("ubuntu" : str,
                  {| base := "deb"; versions := ["disco" : str; "focal" : str] |});
                 ("fedora" : str,
                  {| base := "rpm"; versions := ["31" : str] |}) ] |}.

Definition example_settings : s3_settings_t :=
  {| region := "ru-msk";
     endpoint_url := "https://s3.example.org";
     bucket_name := "packages";
     base_path := None;
     access_key_id := "id";
     secret_access_key := "secret";
     gpg_sign_key := None;
     supported_repos := example_repos |}.

(** A configuration whose only distribution carries a name that ends
    in [/]. *)
Definition slash_settings : s3_settings_t :=
  {| region := "ru-msk";
     endpoint_url := "https://s3.example.org";
     bucket_name := "packages";
     base_path := None;
     access_key_id := "id";
     secret_access_key := "secret";
     gpg_sign_key := None;
     supported_repos :=
       {| repo_kind := ["live" : str];
          tarantool_series := ["2.8" : str];
          enabled := ["2.8" : str];
          distrs := [ ("ubuntu/" : str,
                       {| base := "deb"; versions := ["disco" : str] |}) ] |} |}.

Definition empty_world : world := {| unsync_repos := ∅; log := [] |}.

Definition dirty_world : world :=
  {| unsync_repos := {[ "live/2.8/ubuntu" : str ]}; log := [] |}.

Definition small_deb : fileobj := {| stream_bytes := "deb bytes" |}.
Definition small_dsc : fileobj := {| stream_bytes := "dsc bytes" |}.
Definition notes_txt : fileobj := {| stream_bytes := "notes" |}.

(** A good file first, a refused one second. *)
Definition mixed_package : package_t :=
  {| Package.repo_kind := "live";
     Package.tarantool_series := "2.8";
     Package.dist := "ubuntu";
     Package.dist_version := "disco";
     Package.files := [ ("small_1.0-1_all.deb" : str, small_deb);
                    ("notes.txt" : str, notes_txt) ] |}.

(** Two files for both enabled series of [example_settings]. *)
Definition enabled_package : package_t :=
  {| Package.repo_kind := "live";
     Package.tarantool_series := "enabled";
     Package.dist := "ubuntu";
     Package.dist_version := "disco";
     Package.files := [ ("small_1.0-1_all.deb" : str, small_deb);
                    ("small_1.0-1.dsc" : str, small_dsc) ] |}.

(** The bucket after [enabled_package] and one rpm went up. *)
Definition example_keys : list str :=
  [ "live/1.10/ubuntu/pool/disco/main/s/small/small_1.0-1_all.deb" : str;
    "live/2.8/ubuntu/pool/disco/main/s/small/small_1.0-1_all.deb" : str;
    "live/2.8/fedora/31/x86_64/Packages/small-1.0-1.x86_64.rpm" : str;
    "live/2.8/fedora/31/SRPMS/Packages/small-1.0-1.src.rpm" : str ].

(** A chooser: the first member in the order of [elements]. *)
Program Definition first_member : chooser :=
  {| choose := λ s, head (elements s) |}.
Next Obligation.
  intros s x H. cbv beta in H. apply elem_of_elements.
  destruct (elements s) as [|y l]; [discriminate|].
  injection H as ->. apply list_elem_of_here.
Qed.
Next Obligation.
  intros s H. cbv beta in H. apply leibniz_equiv, elements_empty_iff.
  by destruct (elements s).
Qed.

(** The tool exits with [status]; the other threads stay away. *)
Definition alone (status : Z) : oracle :=
  {| pick := first_member;
     exit_status := status;
     before_pop := λ s, s;
     while_running := λ s, s |}.

(** Another worker takes whatever is in the set between the test and
    the [acquire] of this one. *)
Definition raced : oracle :=
  {| pick := first_member;
     exit_status := 0;
     before_pop := λ _, ∅;
     while_running := λ s, s |}.

(** The same two files for one series only. *)
Definition single_package : package_t :=
  {| Package.repo_kind := "live";
     Package.tarantool_series := "2.8";
     Package.dist := "ubuntu";
     Package.dist_version := "disco";
     Package.files := [ ("small_1.0-1_all.deb" : str, small_deb);
                        ("small_1.0-1.dsc" : str, small_dsc) ] |}.

(** A configuration with a distribution of a base the code has no
    branch for, after one it knows. *)
Definition alpine_settings : s3_settings_t :=
  {| region := "ru-msk";
     endpoint_url := "https://s3.example.org";
     bucket_name := "packages";
     base_path := Some ("tarantool" : str);
     access_key_id := "id";
     secret_access_key := "secret";
     gpg_sign_key := None;
     supported_repos :=
       {| repo_kind := ["live" : str];
          tarantool_series := ["2.8" : str];
          enabled := ["2.8" : str];
          distrs := [ ("ubuntu" : str,
                       {| base := "deb"; versions := ["disco" : str] |});
                      ("alpine" : str,
                       {| base := "apk"; versions := ["3.12" : str] |}) ] |} |}.

(** [posixpath.normpath], to run the view on: empty components and
    [.] go, [..] takes the component before it, two leading slashes
    stay two. *)
Definition posix_normpath (path : str) : str :=
  if decide (path = []) then "." : str else
  let initial_slashes : nat :=
    match path with
    | "/"%char :: "/"%char :: "/"%char :: _ => 1
    | "/"%char :: "/"%char :: _ => 2
    | "/"%char :: _ => 1
    | _ => 0
    end%nat in
  let new_comps :=
    foldl (λ new_comps comp,
             if decide (comp = [] ∨ comp = ("." : str)) then new_comps
             else if decide (comp ≠ (".." : str)
                             ∨ (initial_slashes = 0%nat ∧ new_comps = [])
                             ∨ last new_comps = Some (".." : str))
                  then new_comps ++ [comp]
                  else removelast new_comps)
      [] (split "/" path) in
  let path := flat_map id (replicate initial_slashes ("/" : str))
              ++ join "/" new_comps in
  if decide (path = []) then "." : str else path.

(** A model that lists one directory and one object, fails on a path
    it names, and hands out the same bytes for every file. *)
Definition listing_model : S3View.model_t str :=
  {| S3View.model_s3_settings := alpine_settings;
     S3View.model_bucket_name := "packages";
     S3View.model_get_directory :=
       Some (λ p : str,
               if decide (p = ("tarantool/broken/" : str))
               then raise (RuntimeError "no such directory")
               else ret [ {| S3View.item_fields := "live/" : str;
                             S3View.Size := None |};
                          {| S3View.item_fields := "README" : str;
                             S3View.Size := Some 1536 |} ]);
     S3View.model_get_file :=
       λ p, ret (Some {| S3View.Body := small_deb |}) |}.



Definition no_faults : WithFaults.faults := λ _ _, None.


(** * Properties *)

(** ** The matcher decides the language of a pattern *)

Section ReFacts.

Import Re.

Lemma re_matches_cat_inv r1 r2 s :
  matches (Cat r1 r2) s ↔
  ∃ s1 s2, s = s1 ++ s2 ∧ matches r1 s1 ∧ matches r2 s2.
Proof.
  split.
  - inversion 1; subst; eauto.
  - intros (s1 & s2 & -> & H1 & H2). by constructor.
Qed.

Lemma re_matches_alt_inv r1 r2 s :
  matches (Alt r1 r2) s ↔ matches r1 s ∨ matches r2 s.
Proof.
  split.
  - inversion 1; subst; auto.
  - intros [H|H]; [by apply m_alt_l | by apply m_alt_r].
Qed.

Lemma re_matches_chr_inv c s : matches (Chr c) s ↔ s = [c].
Proof. split; [by inversion 1 | intros ->; constructor]. Qed.

Lemma re_matches_eps_inv s : matches Eps s ↔ s = [].
Proof. split; [by inversion 1 | intros ->; constructor]. Qed.

Lemma re_nullable_matches r : nullable r = true ↔ matches r [].
Proof.
  split.
  - induction r; simpl; intros H; try discriminate.
    + constructor.
    + apply andb_prop in H as [H1 H2].
      change (@nil ascii) with (@nil ascii ++ []). constructor; auto.
    + apply orb_prop in H as [H|H]; [apply m_alt_l | apply m_alt_r]; auto.
    + constructor.
  - intros H. remember [] as s eqn:Hs.
    induction H; simpl; try discriminate; auto.
    + apply app_eq_nil in Hs as [-> ->].
      rewrite IHmatches1, IHmatches2; auto.
    + rewrite IHmatches; auto.
    + rewrite IHmatches; auto. apply orb_true_r.
Qed.

(** A non-empty word of [r*] starts with a non-empty word of [r]. *)
Lemma re_matches_star_cons r c s :
  matches (Star r) (c :: s) →
  ∃ s1 s2, s = s1 ++ s2 ∧ matches r (c :: s1) ∧ matches (Star r) s2.
Proof.
  intros H. remember (Star r) as r' eqn:Hr. remember (c :: s) as s' eqn:Hs.
  revert s Hs. induction H; intros t Ht; try discriminate.
  injection Hr as ->.
  destruct s1 as [|d s1]; simpl in Ht.
  - subst s2. apply IHmatches2; auto.
  - injection Ht as ? ?; subst. eauto.
Qed.

Lemma re_deriv_matches c r s : matches (deriv c r) s ↔ matches r (c :: s).
Proof.
  revert s. induction r; intros s; simpl.
  - split; inversion 1.
  - split; inversion 1.
  - case_decide as Hc.
    + subst. rewrite re_matches_eps_inv, re_matches_chr_inv. naive_solver.
    + rewrite re_matches_chr_inv. split; [inversion 1 | naive_solver].
  - case_decide as Hc.
    + split; [inversion 1 | inversion 1; subst; done].
    + rewrite re_matches_eps_inv. split.
      * intros ->. by constructor.
      * by inversion 1.
  - assert (Hcat : ∀ t, matches (Cat (deriv c r1) r2) t ↔
        ∃ s1 s2, t = s1 ++ s2 ∧ matches r1 (c :: s1) ∧ matches r2 s2).
    { intros t. rewrite re_matches_cat_inv.
      split; intros (s1 & s2 & -> & H1 & H2); exists s1, s2;
        (split; [done|]); split; try done; by apply IHr1. }
    rewrite (re_matches_cat_inv r1 r2 (c :: s)).
    destruct (nullable r1) eqn:Hn.
    + rewrite re_matches_alt_inv, Hcat, IHr2. split.
      * intros [(s1 & s2 & -> & H1 & H2)|H].
        -- exists (c :: s1), s2. done.
        -- exists [], (c :: s). split; [done|]. split; [|done].
           by apply re_nullable_matches.
      * intros (s1 & s2 & Hs & H1 & H2). destruct s1 as [|d s1]; simpl in Hs.
        -- right. by subst.
        -- injection Hs as ? ?; subst. left. eauto.
    + rewrite Hcat. split.
      * intros (s1 & s2 & -> & H1 & H2). exists (c :: s1), s2. done.
      * intros (s1 & s2 & Hs & H1 & H2). destruct s1 as [|d s1]; simpl in Hs.
        -- apply re_nullable_matches in H1. congruence.
        -- injection Hs as ? ?; subst. eauto.
  - rewrite !re_matches_alt_inv, IHr1, IHr2. done.
  - rewrite re_matches_cat_inv. split.
    + intros (s1 & s2 & -> & H1 & H2). apply IHr in H1.
      change (c :: s1 ++ s2) with ((c :: s1) ++ s2). by constructor.
    + intros H. apply re_matches_star_cons in H as (s1 & s2 & -> & H1 & H2).
      exists s1, s2. split; [done|]. split; [by apply IHr | done].
Qed.

Lemma re_fullmatch_matches r s : fullmatch r s = true ↔ matches r s.
Proof.
  revert r. induction s as [|c s IH]; intros r; simpl.
  - apply re_nullable_matches.
  - rewrite IH. apply re_deriv_matches.
Qed.

Lemma re_matches_lit l s : matches (lit l) s ↔ s = l.
Proof.
  revert s. induction l as [|c l IH]; intros s; simpl.
  - apply re_matches_eps_inv.
  - rewrite re_matches_cat_inv. split.
    + intros (s1 & s2 & -> & H1 & H2).
      apply re_matches_chr_inv in H1 as ->. apply IH in H2 as ->. done.
    + intros ->. exists [c], l. split; [done|].
      split; [constructor | by apply IH].
Qed.

(** [.*] takes any run of characters without a line feed. *)
Lemma re_matches_star_dot s :
  matches (Star Dot) s ↔ Forall (λ c, c ≠ newline) s.
Proof.
  split.
  - induction s as [|c s IH]; intros H; [constructor|].
    apply re_matches_star_cons in H as (s1 & s2 & -> & H1 & H2).
    inversion H1; subst. simpl in *. constructor; auto.
  - induction 1 as [|c s Hc _ IH]; [constructor|].
    change (c :: s) with ([c] ++ s). constructor; [by constructor | done].
Qed.

End ReFacts.

(** ** What the three patterns accept *)

Lemma accepted_has_extension exts f : accepted exts f → has_extension exts f.
Proof. intros (p & ext & _ & Hin & ->). exists ext. split; [done|]. by exists p. Qed.

Lemma accepted_app exts1 exts2 f :
  accepted (exts1 ++ exts2) f ↔ accepted exts1 f ∨ accepted exts2 f.
Proof.
  unfold accepted. split.
  - intros (p & e & Hp & He & ->). apply elem_of_app in He as [He|He]; eauto 6.
  - intros [(p & e & Hp & He & ->)|(p & e & Hp & He & ->)];
      exists p, e; rewrite elem_of_app; auto.
Qed.

Section Patterns.

Import Re.

Lemma re_matches_dotstar r s :
  matches (Cat (Star Dot) r) s ↔ ∃ p t, s = p ++ t ∧ no_newline p ∧ matches r t.
Proof.
  rewrite re_matches_cat_inv. unfold no_newline.
  split; intros (p & t & -> & H1 & H2); exists p, t;
    (split; [done|]); split; try done; by apply re_matches_star_dot.
Qed.

Ltac re_inv :=
  repeat match goal with
    | H : matches (Cat _ _) _ |- _ =>
        apply re_matches_cat_inv in H as (? & ? & -> & ? & ?)
    | H : matches (Alt _ _) _ |- _ => apply re_matches_alt_inv in H as [?|?]
    | H : matches (Chr _) _ |- _ => apply re_matches_chr_inv in H as ->
    | H : matches (lit _) _ |- _ => apply re_matches_lit in H as ->
    end.

(** A concrete word is checked by running the matcher. *)
Ltac re_run := apply re_fullmatch_matches; vm_compute; reflexivity.

Ltac in_list := repeat first [ by apply list_elem_of_here | apply list_elem_of_further ].

Lemma rx_rpm_binary_accepts f :
  fullmatch rx_rpm_binary f = true ↔ accepted rpm_binary_extensions f.
Proof.
  rewrite re_fullmatch_matches. unfold rx_rpm_binary.
  rewrite re_matches_dotstar. split.
  - intros (p & t & -> & Hp & Ht). exists p. re_inv.
    + exists (".x86_64.rpm" : str). split; [done|]. split; [in_list | done].
    + exists (".noarch.rpm" : str). split; [done|]. split; [in_list | done].
  - intros (p & ext & Hp & Hin & ->). exists p, ext.
    split; [done|]. split; [done|].
    unfold rpm_binary_extensions in Hin.
    repeat (apply elem_of_cons in Hin as [->|Hin]; [re_run|]).
    by apply elem_of_nil in Hin.
Qed.

Lemma rx_rpm_source_accepts f :
  fullmatch rx_rpm_source f = true ↔ accepted rpm_source_extensions f.
Proof.
  rewrite re_fullmatch_matches. unfold rx_rpm_source.
  rewrite re_matches_dotstar. split.
  - intros (p & t & -> & Hp & Ht). exists p. re_inv.
    exists (".src.rpm" : str). split; [done|]. split; [in_list | done].
  - intros (p & ext & Hp & Hin & ->). exists p, ext.
    split; [done|]. split; [done|].
    unfold rpm_source_extensions in Hin.
    repeat (apply elem_of_cons in Hin as [->|Hin]; [re_run|]).
    by apply elem_of_nil in Hin.
Qed.

Lemma rx_deb_accepts f :
  fullmatch rx_deb f = true ↔ accepted deb_extensions f.
Proof.
  rewrite re_fullmatch_matches. unfold rx_deb.
  rewrite re_matches_dotstar. split.
  - intros (p & t & -> & Hp & Ht). exists p. re_inv.
    + exists (".deb" : str). split; [done|]. split; [in_list | done].
    + exists (".dsc" : str). split; [done|]. split; [in_list | done].
    + exists (".tar.xz" : str). split; [done|]. split; [in_list | done].
    + exists (".tar.gz" : str). split; [done|]. split; [in_list | done].
  - intros (p & ext & Hp & Hin & ->). exists p, ext.
    split; [done|]. split; [done|].
    unfold deb_extensions in Hin.
    repeat (apply elem_of_cons in Hin as [->|Hin]; [re_run|]).
    by apply elem_of_nil in Hin.
Qed.

End Patterns.

(** ** [_format_paths] *)

Lemma partition_before (sep : ascii) (a b : str) :
  sep ∉ a → (partition sep (a ++ sep :: b)).1.1 = a.
Proof.
  induction a as [|c a IH]; simpl; intros Hin.
  - by rewrite decide_True.
  - apply not_elem_of_cons in Hin as [Hc Ha].
    rewrite decide_False by done.
    specialize (IH Ha). destruct (partition sep (a ++ sep :: b)) as [[x y] z].
    simpl in *. by rewrite IH.
Qed.

Lemma partition_whole (sep : ascii) (s : str) :
  sep ∉ s → (partition sep s).1.1 = s.
Proof.
  induction s as [|c s IH]; simpl; intros Hin; [done|].
  apply not_elem_of_cons in Hin as [Hc Hs].
  rewrite decide_False by done.
  specialize (IH Hs). destruct (partition sep s) as [[x y] z].
  simpl in *. by rewrite IH.
Qed.

Lemma join3 (sep a b c : str) : join sep [a; b; c] = a ++ sep ++ b ++ sep ++ c.
Proof. simpl. by rewrite app_nil_r, <- !app_assoc. Qed.

Lemma join7 (sep a b c d e f g : str) :
  join sep [a; b; c; d; e; f; g]
  = a ++ sep ++ b ++ sep ++ c ++ sep ++ d ++ sep ++ e ++ sep ++ f ++ sep ++ g.
Proof. simpl. by rewrite app_nil_r, <- !app_assoc. Qed.

(** No name carries a binary and the source extension at once. *)
Lemma rpm_source_not_binary f :
  accepted rpm_source_extensions f → ¬ accepted rpm_binary_extensions f.
Proof.
  intros (p & e & _ & He & ->) (q & e' & _ & He' & Heq).
  unfold rpm_source_extensions in He. unfold rpm_binary_extensions in He'.
  apply list_elem_of_singleton in He as ->.
  apply elem_of_cons in He' as [->|He'].
  - change (list_ascii_of_string ".x86_64.rpm")
      with ((".x8" : str) ++ ("6_64.rpm" : str)) in Heq.
    rewrite app_assoc in Heq. apply app_inj_2 in Heq as [_ Heq]; [|done].
    discriminate Heq.
  - apply list_elem_of_singleton in He' as ->.
    change (list_ascii_of_string ".noarch.rpm")
      with ((".no" : str) ++ ("arch.rpm" : str)) in Heq.
    rewrite app_assoc in Heq. apply app_inj_2 in Heq as [_ Heq]; [|done].
    discriminate Heq.
Qed.

Lemma fullmatch_false_iff r f (P : Prop) :
  (Re.fullmatch r f = true ↔ P) → ¬ P → Re.fullmatch r f = false.
Proof. intros H HP. destruct (Re.fullmatch r f); [|done]. by destruct HP; apply H. Qed.

Lemma format_paths_rpm_binary dist_path dist_version filename :
  accepted rpm_binary_extensions filename →
  _format_paths dist_path dist_version "rpm" filename
  = Ok (dist_path ++ "/" ++ dist_version ++ "/x86_64",
        (dist_path ++ "/" ++ dist_version ++ "/x86_64")
        ++ "/Packages/" ++ filename).
Proof.
  intros H. apply rx_rpm_binary_accepts in H.
  unfold _format_paths. rewrite decide_True by done. rewrite H.
  by rewrite !join3.
Qed.

Lemma format_paths_rpm_source dist_path dist_version filename :
  accepted rpm_source_extensions filename →
  _format_paths dist_path dist_version "rpm" filename
  = Ok (dist_path ++ "/" ++ dist_version ++ "/SRPMS",
        (dist_path ++ "/" ++ dist_version ++ "/SRPMS")
        ++ "/Packages/" ++ filename).
Proof.
  intros H. pose proof (rpm_source_not_binary _ H) as Hn.
  apply (fullmatch_false_iff _ _ _ (rx_rpm_binary_accepts filename)) in Hn.
  apply rx_rpm_source_accepts in H.
  unfold _format_paths. rewrite decide_True by done. rewrite Hn, H.
  by rewrite !join3.
Qed.

Lemma format_paths_deb_ok dist_path dist_version filename :
  accepted deb_extensions filename →
  _format_paths dist_path dist_version "deb" filename
  = Ok (dist_path,
        dist_path ++ "/pool/" ++ dist_version ++ "/main/" ++ take 1 filename
        ++ "/" ++ (partition "_" filename).1.1 ++ "/" ++ filename).
Proof.
  intros H. apply rx_deb_accepts in H.
  unfold _format_paths. rewrite decide_False by done.
  rewrite decide_True by done. rewrite H.
  by rewrite join7.
Qed.

Lemma accepted_deb_nonempty f :
  accepted deb_extensions f → ∃ c rest, f = c :: rest.
Proof.
  intros (p & e & _ & He & ->).
  destruct p as [|c p]; [|by eauto].
  unfold deb_extensions in He.
  repeat (apply elem_of_cons in He as [->|He]; [by eauto|]).
  by apply elem_of_nil in He.
Qed.

(** The first example of the spec, with the version in the path twice:
    [dist_path] already ends in it there. *)
Example format_paths_rpm_example :
  _format_paths "repo/2.8/fedora/31" "31" "rpm" "tarantool-2.8.1-1.x86_64.rpm"
  = Ok ("repo/2.8/fedora/31/31/x86_64" : str,
        "repo/2.8/fedora/31/31/x86_64/Packages/tarantool-2.8.1-1.x86_64.rpm" : str).
Proof. vm_compute. reflexivity. Qed.

(** C1, as the code has it: a name made of a prefix without line feed
    and [.x86_64.rpm] or [.noarch.rpm] goes to
    [dist_path/dist_version/x86_64], one made of such a prefix and
    [.src.rpm] to [dist_path/dist_version/SRPMS], and the object is
    [repo_path/Packages/filename] in both cases. *)
Theorem format_paths_rpm (dist_path dist_version filename p : str) :
  no_newline p →
  (filename = p ++ ".x86_64.rpm" ∨ filename = p ++ ".noarch.rpm" →
   ∃ repo_path,
     repo_path = dist_path ++ "/" ++ dist_version ++ "/x86_64" ∧
     _format_paths dist_path dist_version "rpm" filename
     = Ok (repo_path, repo_path ++ "/Packages/" ++ filename))
  ∧
  (filename = p ++ ".src.rpm" →
   ∃ repo_path,
     repo_path = dist_path ++ "/" ++ dist_version ++ "/SRPMS" ∧
     _format_paths dist_path dist_version "rpm" filename
     = Ok (repo_path, repo_path ++ "/Packages/" ++ filename)).
Proof.
  intros Hp. split.
  - intros Hf. eexists. split; [reflexivity|].
    apply format_paths_rpm_binary.
    destruct Hf as [->| ->]; eexists p, _; (split; [done|]); (split; [|done]).
    + apply list_elem_of_here.
    + apply list_elem_of_further, list_elem_of_here.
  - intros ->. eexists. split; [reflexivity|].
    apply format_paths_rpm_source.
    eexists p, _. split; [done|]. split; [|done]. apply list_elem_of_here.
Qed.

Lemma format_paths_rpm_witness :
  _format_paths "live/2.8/fedora" "31" "rpm" "tarantool-2.8.1-1.src.rpm"
  = Ok ("live/2.8/fedora/31/SRPMS" : str,
        "live/2.8/fedora/31/SRPMS/Packages/tarantool-2.8.1-1.src.rpm" : str).
Proof.
  destruct (format_paths_rpm "live/2.8/fedora" "31" "tarantool-2.8.1-1.src.rpm"
              "tarantool-2.8.1-1") as [_ H].
  - unfold no_newline. by apply (bool_decide_unpack _).
  - destruct (H eq_refl) as (r & -> & ->). reflexivity.
Defined.

(** C1 as stated fails: [.] does not match a line feed, so a name with a
    line feed before [.x86_64.rpm] is refused though it ends in the
    extension. *)
Lemma format_paths_rpm_line_feed :
  (".x86_64.rpm" : str) `suffix_of` ("a" ++ [newline] ++ ".x86_64.rpm") ∧
  _format_paths "live/2.8/fedora" "31" "rpm" ("a" ++ [newline] ++ ".x86_64.rpm")
  = Raise (S3ModelRequestError
             (file_type_err ("a" ++ [newline] ++ ".x86_64.rpm") "rpm")).
Proof.
  split.
  - exists ("a" ++ [newline]). by rewrite <- app_assoc.
  - vm_compute. reflexivity.
Qed.

(** C2, as the code has it: for a name made of a prefix without line
    feed and [.deb], [.dsc], [.tar.xz] or [.tar.gz], the repository is
    [dist_path] itself and the object is
    [dist_path/pool/dist_version/main/c/head/filename], where [c] is the
    first character of the name and [head] what [partition] puts before
    the first underscore; the example of the spec comes out as given. *)
Theorem format_paths_deb :
  (∀ dist_path dist_version filename p ext : str,
     no_newline p →
     ext ∈ deb_extensions →
     filename = p ++ ext →
     ∃ c rest head,
       filename = c :: rest ∧
       head = (partition "_" filename).1.1 ∧
       (∀ a b, filename = a ++ "_" ++ b → "_"%char ∉ a → head = a) ∧
       _format_paths dist_path dist_version "deb" filename
       = Ok (dist_path,
             dist_path ++ "/pool/" ++ dist_version ++ "/main/" ++ [c]
             ++ "/" ++ head ++ "/" ++ filename))
  ∧
  _format_paths "repo/2.8/ubuntu" "disco" "deb" "tarantool_2.8.1-1_amd64.deb"
  = Ok ("repo/2.8/ubuntu" : str,
        "repo/2.8/ubuntu/pool/disco/main/t/tarantool/tarantool_2.8.1-1_amd64.deb" : str).
Proof.
  split; [|by vm_compute].
  intros dist_path dist_version filename p ext Hp He Hf.
  assert (Hacc : accepted deb_extensions filename) by (by exists p, ext).
  destruct (accepted_deb_nonempty filename Hacc) as (c & rest & Hc).
  exists c, rest, (partition "_" filename).1.1.
  split; [done|]. split; [done|]. split.
  - intros a b Hab Ha. rewrite Hab. by apply partition_before.
  - rewrite (format_paths_deb_ok _ _ _ Hacc). by rewrite Hc at 1.
Qed.

Lemma format_paths_deb_witness :
  ∃ path,
    _format_paths "live/1.10/ubuntu" "disco" "deb" "small_1.0-1_all.deb"
    = Ok ("live/1.10/ubuntu" : str, path) ∧
    path = "live/1.10/ubuntu/pool/disco/main/s/small/small_1.0-1_all.deb".
Proof.
  destruct format_paths_deb as [Hdeb _].
  destruct (Hdeb "live/1.10/ubuntu" "disco" "small_1.0-1_all.deb"
              "small_1.0-1_all" ".deb") as (c & rest & head & Hc & Hh & _ & H).
  - unfold no_newline. by apply (bool_decide_unpack _).
  - apply list_elem_of_here.
  - reflexivity.
  - eexists. split; [exact H|].
    injection Hc as <- _. rewrite Hh. reflexivity.
Defined.

(** C2 as stated fails for the same reason as C1: a name with a line
    feed before [.deb] ends in the extension and is refused. *)
Lemma format_paths_deb_line_feed :
  (".deb" : str) `suffix_of` ("a" ++ [newline] ++ ".deb") ∧
  _format_paths "repo/2.8/ubuntu" "disco" "deb" ("a" ++ [newline] ++ ".deb")
  = Raise (S3ModelRequestError (file_type_err ("a" ++ [newline] ++ ".deb") "deb")).
Proof.
  split.
  - exists ("a" ++ [newline]). by rewrite <- app_assoc.
  - vm_compute. reflexivity.
Qed.

(** A name without underscore is its own directory under the pool. *)
Lemma format_paths_deb_no_underscore dist_path dist_version filename :
  accepted deb_extensions filename →
  "_"%char ∉ filename →
  _format_paths dist_path dist_version "deb" filename
  = Ok (dist_path,
        dist_path ++ "/pool/" ++ dist_version ++ "/main/" ++ take 1 filename
        ++ "/" ++ filename ++ "/" ++ filename).
Proof.
  intros Hacc Hn. rewrite (format_paths_deb_ok _ _ _ Hacc).
  by rewrite (partition_whole _ _ Hn).
Qed.

(** The message of the validation error, in one piece. *)
Lemma file_type_err_text filename dist_base :
  file_type_err filename dist_base
  = "The " ++ [dquote] ++ filename ++ [dquote]
    ++ " file does not match the type of files used in the "
    ++ dist_base ++ "-based repositories.".
Proof. reflexivity. Qed.

Lemma format_paths_rpm_refused dp dv f :
  ¬ accepted (rpm_binary_extensions ++ rpm_source_extensions) f →
  _format_paths dp dv "rpm" f = Raise (S3ModelRequestError (file_type_err f "rpm")).
Proof.
  intros Hn. unfold _format_paths. rewrite decide_True by done.
  rewrite (fullmatch_false_iff _ _ _ (rx_rpm_binary_accepts f)).
  2:{ intros H. apply Hn, accepted_app. by left. }
  rewrite (fullmatch_false_iff _ _ _ (rx_rpm_source_accepts f)); [done|].
  intros H. apply Hn, accepted_app. by right.
Qed.

Lemma format_paths_deb_refused dp dv f :
  ¬ accepted deb_extensions f →
  _format_paths dp dv "deb" f = Raise (S3ModelRequestError (file_type_err f "deb")).
Proof.
  intros Hn. unfold _format_paths. rewrite decide_False by done.
  rewrite decide_True by done.
  by rewrite (fullmatch_false_iff _ _ _ (rx_deb_accepts f)).
Qed.

Lemma format_paths_unknown_base dp dv (b : str) f :
  b ≠ "rpm" → b ≠ "deb" →
  _format_paths dp dv b f = Raise (RuntimeError ("Unknown repository base: " ++ b ++ ".")).
Proof. intros Hr Hd. unfold _format_paths. by rewrite !decide_False by done. Qed.

(** C4: a name that ends in none of the extensions of the layout is
    refused with [S3ModelRequestError], whose message carries the name
    and the layout kind; a layout kind other than [rpm] and [deb] is
    refused with [RuntimeError], whatever the name. *)
Theorem format_paths_rejects :
  (∀ dist_path dist_version filename,
     ¬ has_extension (rpm_binary_extensions ++ rpm_source_extensions) filename →
     _format_paths dist_path dist_version "rpm" filename
     = Raise (S3ModelRequestError (file_type_err filename "rpm")))
  ∧
  (∀ dist_path dist_version filename,
     ¬ has_extension deb_extensions filename →
     _format_paths dist_path dist_version "deb" filename
     = Raise (S3ModelRequestError (file_type_err filename "deb")))
  ∧
  (∃ before between after, ∀ filename dist_base,
     file_type_err filename dist_base
     = before ++ filename ++ between ++ dist_base ++ after)
  ∧
  (∀ dist_path dist_version (dist_base : str) filename,
     dist_base ≠ "rpm" → dist_base ≠ "deb" →
     _format_paths dist_path dist_version dist_base filename
     = Raise (RuntimeError ("Unknown repository base: " ++ dist_base ++ ".")) ∧
     ∀ msg, _format_paths dist_path dist_version dist_base filename
            ≠ Raise (S3ModelRequestError msg)).
Proof.
  split; [|split; [|split]].
  - intros dp dv f Hn. apply format_paths_rpm_refused.
    intros H. by apply Hn, accepted_has_extension.
  - intros dp dv f Hn. apply format_paths_deb_refused.
    intros H. by apply Hn, accepted_has_extension.
  - exists ("The " ++ [dquote]),
      ([dquote] ++ " file does not match the type of files used in the "),
      ("-based repositories." : str).
    intros f b. rewrite file_type_err_text. by rewrite <- !app_assoc.
  - intros dp dv b f Hr Hd. rewrite format_paths_unknown_base by done.
    split; [done|]. intros msg. discriminate.
Qed.

Lemma format_paths_rejects_witness :
  _format_paths "live/2.8/fedora" "31" "rpm" "tarantool.i386.rpm"
  = Raise (S3ModelRequestError (file_type_err "tarantool.i386.rpm" "rpm")) ∧
  _format_paths "live/2.8/fedora" "31" "apk" "tarantool.apk"
  = Raise (RuntimeError "Unknown repository base: apk.").
Proof.
  destruct format_paths_rejects as (Hrpm & _ & _ & Hbase). split.
  - apply Hrpm. intros (e & He & Hs).
    repeat (apply elem_of_cons in He as [->|He];
            [revert Hs; apply (bool_decide_unpack _); vm_compute; exact I|]).
    by apply elem_of_nil in He.
  - by apply Hbase.
Defined.

(** ** The stubs *)

(** C10: [get_package], [delete_package], [get_file] and [delete_file]
    return [None] on every input and every state, raise nothing and
    leave the state and the log as they were: the
    [NotImplementedError] is built and dropped. *)
Theorem stubs_return_none (package : package_t) (path : str) (w : world) :
  get_package package w = (Ok tt, w) ∧
  delete_package package w = (Ok tt, w) ∧
  get_file path w = (Ok tt, w) ∧
  delete_file path w = (Ok tt, w).
Proof. repeat split. Qed.

(** ** Worlds *)

Lemma emit_emit_all e w : emit e w = emit_all [e] w.
Proof. reflexivity. Qed.

Lemma emit_all_nil w : emit_all [] w = w.
Proof. destruct w. unfold emit_all. simpl. by rewrite app_nil_r. Qed.

Lemma emit_all_app es1 es2 w : emit_all es2 (emit_all es1 w) = emit_all (es1 ++ es2) w.
Proof. unfold emit_all. simpl. by rewrite app_assoc. Qed.

(** ** [_upload_files] when a name is refused *)

(** The loop over the files never touches [unsync_repos], and logs
    nothing but uploads and copies. *)
Lemma upload_loop_frame settings dp dv b files origin local w r w' :
  upload_loop settings dp dv b files origin local w = (r, w') →
  ∃ ops, w' = emit_all ops w ∧ Forall (λ e, store_op e = true) ops.
Proof.
  revert origin local w. induction files as [|[f body] files IH]; intros origin local w.
  - simpl. intros [= <- <-]. exists []. by rewrite emit_all_nil.
  - simpl. unfold bind at 1, lift.
    destruct (_format_paths dp dv b f) as [[repo_path path]|e].
    2:{ intros [= <- <-]. exists []. by rewrite emit_all_nil. }
    unfold bind at 1.
    destruct (origin !! f) as [src|].
    + unfold bind at 1, bucket_copy, tell, ret. rewrite emit_emit_all.
      intros H. apply IH in H as (ops & -> & Hops).
      exists (EvCopy src path :: ops). rewrite emit_all_app. by split; [|constructor].
    + unfold bind at 1, upload_fileobj, tell, ret. rewrite emit_emit_all.
      intros H. apply IH in H as (ops & -> & Hops).
      exists (EvUpload path body :: ops). rewrite emit_all_app. by split; [|constructor].
Qed.

(** A refused name makes the loop raise. *)
Lemma upload_loop_raises settings dp dv b files origin local w :
  (∃ f body e, (f, body) ∈ files ∧ _format_paths dp dv b f = Raise e) →
  ∃ e w', upload_loop settings dp dv b files origin local w = (Raise e, w').
Proof.
  revert origin local w. induction files as [|[f body] files IH];
    intros origin local w (f0 & body0 & e0 & Hin & Hf0).
  - by apply elem_of_nil in Hin.
  - simpl. unfold bind at 1, lift.
    destruct (_format_paths dp dv b f) as [[repo_path path]|e] eqn:Hf; [|by eauto].
    apply elem_of_cons in Hin as [[= -> ->]|Hin]; [congruence|].
    unfold bind at 1.
    destruct (origin !! f) as [src|];
      unfold bind at 1, bucket_copy, upload_fileobj, tell, ret;
      apply IH; eauto.
Qed.

(** Whatever makes [_upload_files] raise, the set is as it was. *)
Lemma upload_files_raise_frame settings package series origin w e w' :
  _upload_files settings package series origin w = (Raise e, w') →
  ∃ ops, w' = emit_all ops w ∧ Forall (λ e, store_op e = true) ops.
Proof.
  unfold _upload_files. unfold bind at 1, lift.
  destruct (dist_base_of settings (Package.dist package)) as [b|e'].
  2:{ intros [= <- <-]. exists []. by rewrite emit_all_nil. }
  unfold bind at 1.
  destruct (upload_loop _ _ _ _ _ _ _ w) as [[[origin' local]|e'] w1] eqn:Hloop.
  - discriminate.
  - intros [= <- <-]. by apply upload_loop_frame in Hloop.
Qed.

(** A name outside the extensions of the layout fails validation. *)
Lemma bad_extension_fails_validation settings package series f :
  (∀ b, dist_base_of settings (Package.dist package) = Ok b →
        (b = "rpm" ∧ ¬ has_extension (rpm_binary_extensions ++ rpm_source_extensions) f)
        ∨ (b = "deb" ∧ ¬ has_extension deb_extensions f)) →
  fails_validation settings package series f.
Proof.
  intros H b Hb. destruct (H b Hb) as [[-> Hn]|[-> Hn]]; eexists.
  - apply format_paths_rpm_refused. intros Ha. by apply Hn, accepted_has_extension.
  - apply format_paths_deb_refused. intros Ha. by apply Hn, accepted_has_extension.
Qed.

(** C9: when a file of the package has a name that path formatting
    refuses, [_upload_files] raises, [unsync_repos] is what it was
    before the call, and the call has logged only uploads and copies:
    those of the files that came before the refused one. *)
Theorem upload_files_failure_keeps_unsync_repos
    (settings : s3_settings_t) (package : package_t) (series : str)
    (origin_files : gmap str copy_source) (w : world) :
  (∃ filename body, (filename, body) ∈ Package.files package ∧
                    fails_validation settings package series filename) →
  ∃ e w' ops,
    _upload_files settings package series origin_files w = (Raise e, w') ∧
    unsync_repos w' = unsync_repos w ∧
    log w' = log w ++ ops ∧
    Forall (λ e, store_op e = true) ops.
Proof.
  intros (f & body & Hin & Hf).
  assert (∃ e w', _upload_files settings package series origin_files w = (Raise e, w'))
    as (e & w' & Hrun).
  { unfold _upload_files. unfold bind at 1, lift.
    destruct (dist_base_of settings (Package.dist package)) as [b|e'] eqn:Hb; [|by eauto].
    destruct (Hf b Hb) as (e & He).
    unfold bind at 1.
    edestruct upload_loop_raises as (e' & w' & ->); [by eauto 6|]. by eauto. }
  exists e, w'. destruct (upload_files_raise_frame _ _ _ _ _ _ _ Hrun) as (ops & -> & Hops).
  exists ops. done.
Qed.

(** On [mixed_package] the first file is uploaded, the second raises,
    and the repository of the first never reaches [unsync_repos]. *)
Lemma upload_files_failure_witness :
  ∃ e,
    _upload_files example_settings mixed_package "2.8" ∅ empty_world
    = (Raise e,
       {| unsync_repos := ∅;
          log := [EvUpload
                    "live/2.8/ubuntu/pool/disco/main/s/small/small_1.0-1_all.deb"
                    small_deb] |}).
Proof.
  destruct (upload_files_failure_keeps_unsync_repos example_settings
              mixed_package "2.8" ∅ empty_world)
    as (e & w' & ops & Hrun & _).
  - exists ("notes.txt" : str), notes_txt. split.
    + apply list_elem_of_further, list_elem_of_here.
    + intros b Hb. vm_compute in Hb. injection Hb as <-.
      eexists. vm_compute. reflexivity.
  - exists e. rewrite Hrun. vm_compute in Hrun. by injection Hrun as _ <-.
Defined.

(** ** [put_package] over two series *)

Lemma valid_name_placed dp dv b f :
  valid_name b f → _format_paths dp dv b f = Ok (placed dp dv b f).
Proof.
  unfold placed. intros [[-> H]|[-> H]].
  - apply accepted_app in H as [H|H].
    + by rewrite (format_paths_rpm_binary _ _ _ H).
    + by rewrite (format_paths_rpm_source _ _ _ H).
  - by rewrite (format_paths_deb_ok _ _ _ H).
Qed.

Section UploadLoop.

Variable settings : s3_settings_t.
Variables dp dv b : str.

Lemma record_origins_lookup files origin f :
  record_origins settings dp dv b files origin !! f
  = if decide (f ∈ files.*1) then Some (origin_of settings dp dv b f) else origin !! f.
Proof.
  revert origin. induction files as [|[g body] files IH]; intros origin.
  - unfold record_origins. cbn [foldl]. case_decide as H; [|done].
    by apply elem_of_nil in H.
  - unfold record_origins in *. cbn [foldl fst]. rewrite IH.
    rewrite fmap_cons. cbn [fst].
    destruct (decide (f ∈ files.*1)) as [Hin|Hin].
    + rewrite decide_True; [done | by apply list_elem_of_further].
    + destruct (decide (g = f)) as [->|Hne].
      * rewrite lookup_insert_eq. rewrite decide_True; [done | apply list_elem_of_here].
      * rewrite lookup_insert_ne by done.
        rewrite decide_False; [done|]. rewrite elem_of_cons. by intros [?|?].
Qed.

Lemma mark_all_elem files local r :
  r ∈ mark_all dp dv b files local ↔
  r ∈ local ∨ ∃ fb, fb ∈ files ∧ r = (placed dp dv b fb.1).1.
Proof.
  revert local. induction files as [|fb files IH]; intros local; simpl.
  - split; [auto | intros [H|(fb & H & _)]; [done | by destruct (not_elem_of_nil fb)]].
  - unfold mark_all in *. simpl. rewrite IH. rewrite elem_of_union, elem_of_singleton.
    split.
    + intros [[->|H]|(fb' & Hin & ->)].
      * right. exists fb. split; [apply list_elem_of_here | done].
      * by left.
      * right. exists fb'. split; [by apply list_elem_of_further | done].
    + intros [H|(fb' & Hin & ->)]; [by auto|].
      apply elem_of_cons in Hin as [->|Hin]; [by auto | by eauto].
Qed.

(** First series: no file of the package has an origin yet, so each one
    is uploaded and its place recorded. *)
Lemma upload_loop_uploads files origin local w :
  NoDup files.*1 →
  (∀ f, f ∈ files.*1 → origin !! f = None) →
  (∀ f body, (f, body) ∈ files → valid_name b f) →
  upload_loop settings dp dv b files origin local w
  = (Ok (record_origins settings dp dv b files origin, mark_all dp dv b files local),
     emit_all (map (λ fb, EvUpload (placed dp dv b fb.1).2 fb.2) files) w).
Proof.
  revert origin local w. induction files as [|[f body] files IH];
    intros origin local w Hnd Hnone Hvalid.
  - simpl. by rewrite emit_all_nil.
  - simpl. unfold bind at 1, lift.
    rewrite (valid_name_placed dp dv b f); [|by eapply Hvalid, list_elem_of_here].
    destruct (placed dp dv b f) as [repo_path path] eqn:Hplaced.
    unfold bind at 1. rewrite Hnone by (simpl; apply list_elem_of_here).
    unfold bind at 1, upload_fileobj, tell, ret. rewrite emit_emit_all.
    apply NoDup_cons in Hnd as [Hf Hnd].
    rewrite IH; [| done | | ].
    + rewrite emit_all_app. unfold record_origins, mark_all, origin_of. simpl.
      by rewrite Hplaced.
    + intros g Hg. rewrite lookup_insert_ne; [apply Hnone; simpl|].
      * by apply list_elem_of_further.
      * intros ->. done.
    + intros g body' Hg. eapply Hvalid. by apply list_elem_of_further.
Qed.

(** Later series: every file has its origin, so each one is copied from
    there and [origin_files] stays as it is. *)
Lemma upload_loop_copies files origin local w :
  (∀ f, f ∈ files.*1 → is_Some (origin !! f)) →
  (∀ f body, (f, body) ∈ files → valid_name b f) →
  ∃ copies,
    upload_loop settings dp dv b files origin local w
    = (Ok (origin, mark_all dp dv b files local), emit_all copies w) ∧
    Forall2 (λ fb e, ∃ src, origin !! fb.1 = Some src ∧
                            e = EvCopy src (placed dp dv b fb.1).2) files copies.
Proof.
  revert local w. induction files as [|[f body] files IH];
    intros local w Hsome Hvalid.
  - exists []. simpl. rewrite emit_all_nil. by split; [|constructor].
  - simpl. unfold bind at 1, lift.
    rewrite (valid_name_placed dp dv b f); [|by eapply Hvalid, list_elem_of_here].
    destruct (placed dp dv b f) as [repo_path path] eqn:Hplaced.
    unfold bind at 1.
    destruct (Hsome f) as [src Hsrc]; [simpl; apply list_elem_of_here|].
    rewrite Hsrc. unfold bind at 1, bucket_copy, tell, ret. rewrite emit_emit_all.
    edestruct (IH ({[repo_path]} ∪ local) (emit_all [EvCopy src path] w))
      as (copies & -> & Hcopies).
    + intros g Hg. apply Hsome. simpl. by apply list_elem_of_further.
    + intros g body' Hg. eapply Hvalid. by apply list_elem_of_further.
    + exists (EvCopy src path :: copies). rewrite emit_all_app. split.
      * reflexivity.
      * constructor; [|done]. exists src. cbn [fst]. by rewrite Hplaced.
Qed.

End UploadLoop.

Lemma bind_ok {A B} (m : M A) (k : A → M B) w a w1 :
  m w = (Ok a, w1) → bind m k w = k a w1.
Proof. unfold bind. by intros ->. Qed.

Lemma commit_run {A} local (k : M A) w :
  (sync_lock_acquire ;;; unsync_update local ;;; sync_lock_release ;;; k) w
  = k (commit local w).
Proof.
  unfold bind, sync_lock_acquire, unsync_update, sync_lock_release, tell, commit,
    emit, set_unsync. simpl. by rewrite <- !app_assoc.
Qed.

(** [_upload_files] for the first series of a call. *)
Lemma upload_files_uploads settings package series b origin w :
  let dp := dist_path_of settings (Package.repo_kind package) series (Package.dist package) in
  let dv := Package.dist_version package in
  dist_base_of settings (Package.dist package) = Ok b →
  NoDup (Package.files package).*1 →
  (∀ f, f ∈ (Package.files package).*1 → origin !! f = None) →
  (∀ f body, (f, body) ∈ Package.files package → valid_name b f) →
  _upload_files settings package series origin w
  = (Ok (record_origins settings dp dv b (Package.files package) origin),
     commit (mark_all dp dv b (Package.files package) ∅)
       (emit_all (map (λ fb, EvUpload (placed dp dv b fb.1).2 fb.2)
                    (Package.files package)) w)).
Proof.
  intros dp dv Hb Hnd Hnone Hvalid. unfold _upload_files.
  erewrite bind_ok; [|unfold lift; by rewrite Hb].
  fold dp dv.
  erewrite bind_ok; [|by apply upload_loop_uploads].
  cbv beta iota. by rewrite commit_run.
Qed.

(** [_upload_files] for a later series of the call. *)
Lemma upload_files_copies settings package series b origin w :
  let dp := dist_path_of settings (Package.repo_kind package) series (Package.dist package) in
  let dv := Package.dist_version package in
  dist_base_of settings (Package.dist package) = Ok b →
  (∀ f, f ∈ (Package.files package).*1 → is_Some (origin !! f)) →
  (∀ f body, (f, body) ∈ Package.files package → valid_name b f) →
  ∃ copies,
    _upload_files settings package series origin w
    = (Ok origin,
       commit (mark_all dp dv b (Package.files package) ∅) (emit_all copies w)) ∧
    Forall2 (λ fb e, ∃ src, origin !! fb.1 = Some src ∧
                            e = EvCopy src (placed dp dv b fb.1).2)
      (Package.files package) copies.
Proof.
  intros dp dv Hb Hsome Hvalid. unfold _upload_files.
  erewrite bind_ok; [|unfold lift; by rewrite Hb].
  fold dp dv.
  destruct (upload_loop_copies settings dp dv b (Package.files package) origin ∅ w)
    as (copies & Hloop & Hcopies); [done..|].
  exists copies. split; [|done].
  erewrite bind_ok; [|exact Hloop].
  cbv beta iota. by rewrite commit_run.
Qed.

Lemma uploads_of_app l1 l2 : uploads_of (l1 ++ l2) = uploads_of l1 ++ uploads_of l2.
Proof. apply omap_app. Qed.

Lemma copies_of_app l1 l2 : copies_of (l1 ++ l2) = copies_of l1 ++ copies_of l2.
Proof. apply omap_app. Qed.

Lemma uploads_of_uploads {A} (key : A → str) (body : A → fileobj) (l : list A) :
  uploads_of (map (λ x, EvUpload (key x) (body x)) l) = map (λ x, (key x, body x)) l.
Proof. induction l as [|x l IH]; simpl; [done|]. by rewrite <- IH. Qed.

Lemma copies_of_uploads {A} (key : A → str) (body : A → fileobj) (l : list A) :
  copies_of (map (λ x, EvUpload (key x) (body x)) l) = [].
Proof. induction l as [|x l IH]; simpl; done. Qed.

Lemma uploads_of_copies {A} (src : A → copy_source) (key : A → str) (l : list A) :
  uploads_of (map (λ x, EvCopy (src x) (key x)) l) = [].
Proof. induction l as [|x l IH]; simpl; done. Qed.

Lemma copies_of_copies {A} (src : A → copy_source) (key : A → str) (l : list A) :
  copies_of (map (λ x, EvCopy (src x) (key x)) l) = map (λ x, (src x, key x)) l.
Proof. induction l as [|x l IH]; simpl; [done|]. by rewrite <- IH. Qed.


(** ** Two names never share an object *)

Lemma partition_head_no_sep (sep : ascii) (s : str) : sep ∉ (partition sep s).1.1.
Proof.
  induction s as [|c s IH]; simpl; [apply not_elem_of_nil|].
  case_decide as Hc; [apply not_elem_of_nil|].
  destruct (partition sep s) as [[x y] z]. simpl in *.
  apply not_elem_of_cons. split; [by intros -> | done].
Qed.

Lemma partition_app_head (sep : ascii) (a s : str) :
  sep ∉ a → (partition sep (a ++ s)).1.1 = a ++ (partition sep s).1.1.
Proof.
  induction a as [|c a IH]; simpl; intros Hin; [done|].
  apply not_elem_of_cons in Hin as [Hc Ha].
  rewrite decide_False by done.
  specialize (IH Ha). destruct (partition sep (a ++ s)) as [[x y] z].
  simpl in *. by rewrite IH.
Qed.

(** The directory of the pool and the name, put together, give the
    name back. *)
Lemma deb_pool_entry_inj (f1 f2 : str) :
  (partition "_" f1).1.1 ++ "/" ++ f1 = (partition "_" f2).1.1 ++ "/" ++ f2 →
  f1 = f2.
Proof.
  set (h1 := (partition "_" f1).1.1). set (h2 := (partition "_" f2).1.1).
  intros Heq. rewrite !(app_assoc _ ("/" : str)) in Heq.
  assert (Hno : ∀ h : str, "_"%char ∉ h → "_"%char ∉ h ++ "/").
  { intros h Hh. rewrite elem_of_app. intros [?|Hs]; [done|].
    apply list_elem_of_singleton in Hs. discriminate Hs. }
  pose proof (f_equal (λ s, (partition "_" s).1.1) Heq) as Hheads.
  cbv beta in Hheads.
  rewrite !partition_app_head in Hheads
    by (apply Hno, partition_head_no_sep).
  fold h1 h2 in Hheads.
  assert (Hlen : length h1 = length h2).
  { apply (f_equal length) in Hheads. rewrite !length_app in Hheads.
    simpl in Hheads. lia. }
  apply app_inj_1 in Heq as [_ Heq]; [done|].
  rewrite !length_app. by rewrite Hlen.
Qed.

Lemma placed_rpm_binary dp dv f :
  accepted rpm_binary_extensions f →
  placed dp dv "rpm" f
  = (dp ++ "/" ++ dv ++ "/x86_64",
     (dp ++ "/" ++ dv ++ "/x86_64") ++ "/Packages/" ++ f).
Proof. intros H. unfold placed. by rewrite (format_paths_rpm_binary _ _ _ H). Qed.

Lemma placed_rpm_source dp dv f :
  accepted rpm_source_extensions f →
  placed dp dv "rpm" f
  = (dp ++ "/" ++ dv ++ "/SRPMS",
     (dp ++ "/" ++ dv ++ "/SRPMS") ++ "/Packages/" ++ f).
Proof. intros H. unfold placed. by rewrite (format_paths_rpm_source _ _ _ H). Qed.

Lemma placed_deb dp dv f :
  accepted deb_extensions f →
  placed dp dv "deb" f
  = (dp,
     dp ++ "/pool/" ++ dv ++ "/main/" ++ take 1 f
     ++ "/" ++ (partition "_" f).1.1 ++ "/" ++ f).
Proof. intros H. unfold placed. by rewrite (format_paths_deb_ok _ _ _ H). Qed.

(** Under one distribution path and version, two names the layout
    takes go to the same object only if they are the same name. *)
Lemma placed_path_inj dp dv b f1 f2 :
  valid_name b f1 → valid_name b f2 →
  (placed dp dv b f1).2 = (placed dp dv b f2).2 → f1 = f2.
Proof.
  intros [[-> H1]|[-> H1]] [[Hb H2]|[Hb H2]]; try discriminate Hb.
  - apply accepted_app in H1 as [H1|H1]; apply accepted_app in H2 as [H2|H2];
      rewrite ?(placed_rpm_binary _ _ _ H1), ?(placed_rpm_source _ _ _ H1),
        ?(placed_rpm_binary _ _ _ H2), ?(placed_rpm_source _ _ _ H2);
      cbn [snd]; rewrite <- !app_assoc; intros Heq;
      do 3 apply app_inv_head in Heq; simpl in Heq;
      first [ discriminate Heq | by simplify_eq ].
  - rewrite (placed_deb _ _ _ H1), (placed_deb _ _ _ H2). cbn [snd].
    intros Heq. do 4 apply app_inv_head in Heq.
    destruct (accepted_deb_nonempty f1 H1) as (c1 & r1 & Hf1).
    destruct (accepted_deb_nonempty f2 H2) as (c2 & r2 & Hf2).
    rewrite Hf1 in Heq at 1. rewrite Hf2 in Heq at 1. simpl in Heq.
    injection Heq as _ Heq. by apply deb_pool_entry_inj.
Qed.







(** ** One pass of [sync] *)

(** What a pass does, case by case. *)
Lemma sync_iteration_run settings permanent o w :
  sync_iteration settings permanent o w
  = if decide (unsync_repos w = ∅) then
      if permanent
      then (Ok Continue, emit_all [EvTest false; EvSleep 5] w)
      else (Ok Break, emit_all [EvTest false] w)
    else
      let s1 := before_pop o (unsync_repos w) in
      match pick o s1 with
      | None =>
          (Raise (KeyError "pop from an empty set"),
           set_unsync s1 (emit_all [EvTest true; EvAcquire] w))
      | Some repo =>
          let s2 := while_running o (s1 ∖ {[repo]}) in
          let popen :=
            EvPopen (mkrepo_cmd settings repo) (truthy (gpg_sign_key settings)) in
          if decide (exit_status o ≠ 0) then
            (Ok Continue,
             set_unsync ({[repo]} ∪ s2)
               (emit_all [EvTest true; EvAcquire; EvPop repo; EvRelease; popen;
                          EvAcquire; EvAdd repo; EvRelease] w))
          else
            (Ok Continue,
             set_unsync s2
               (emit_all [EvTest true; EvAcquire; EvPop repo; EvRelease; popen] w))
      end.
Proof.
  unfold sync_iteration, bind at 1, unsync_test.
  destruct (decide (unsync_repos w = ∅)) as [He|Hne].
  - rewrite bool_decide_eq_false_2 by (by intros H; apply H).
    destruct permanent; [|done].
    unfold bind, tell, ret, emit, emit_all. simpl. by rewrite <- !app_assoc.
  - rewrite bool_decide_eq_true_2 by done.
    unfold bind at 1, others. unfold bind at 1, sync_lock_acquire, tell.
    unfold bind at 1, unsync_pop. cbn [unsync_repos set_unsync emit].
    destruct (pick o (before_pop o (unsync_repos w))) as [repo|]; cbn zeta.
    + unfold bind, sync_lock_release, tell, others, ret, unsync_add,
        sync_lock_acquire, emit, emit_all, set_unsync.
      destruct (decide (exit_status o ≠ 0)); simpl; by rewrite <- !app_assoc.
    + unfold emit, emit_all, set_unsync. cbn [log unsync_repos].
      by rewrite <- !app_assoc.
Qed.

Lemma count_events_app p l1 l2 :
  count_events p (l1 ++ l2) = (count_events p l1 + count_events p l2)%nat.
Proof. unfold count_events. by rewrite List.filter_app, length_app. Qed.

Lemma pick_nonempty (o : oracle) (s : gset str) :
  s ≠ ∅ → ∃ repo, pick o s = Some repo ∧ repo ∈ s.
Proof.
  intros Hne. destruct (pick o s) as [repo|] eqn:Hp.
  - exists repo. split; [done|]. by apply (choose_elem (pick o)).
  - by apply (choose_empty (pick o)) in Hp.
Qed.

(** A pass on a non-empty set with a failing tool and no interference:
    one run of the tool, no sleep, and the set as it was. *)
Lemma sync_iteration_failing settings permanent o w :
  unsync_repos w ≠ ∅ → quiet o → exit_status o ≠ 0 →
  ∃ new,
    sync_iteration settings permanent o w
    = (Ok Continue, set_unsync (unsync_repos w) (emit_all new w)) ∧
    count_events is_popen new = 1%nat ∧ count_events is_sleep new = 0%nat.
Proof.
  intros Hne [Hq1 Hq2] Hexit. rewrite sync_iteration_run.
  rewrite decide_False by done. cbn zeta. rewrite Hq1.
  destruct (pick_nonempty o (unsync_repos w) Hne) as (repo & -> & Hin).
  rewrite Hq2. rewrite decide_True by done.
  rewrite <- (union_difference_singleton_L repo (unsync_repos w)) by done.
  eexists. split; [reflexivity|]. done.
Qed.

Lemma sync_failing_forever settings permanent schedule w :
  unsync_repos w ≠ ∅ →
  Forall (λ o, quiet o ∧ exit_status o ≠ 0) schedule →
  ∃ new,
    sync settings permanent schedule w
    = (Ok Running, set_unsync (unsync_repos w) (emit_all new w)) ∧
    count_events is_popen new = length schedule ∧
    count_events is_sleep new = 0%nat.
Proof.
  intros Hne Hall. revert w Hne.
  induction Hall as [|o schedule [Hq Hexit] _ IH]; intros w Hne.
  - exists []. simpl. rewrite emit_all_nil. by destruct w.
  - destruct (sync_iteration_failing settings permanent o w Hne Hq Hexit)
      as (new1 & Hrun & Hp1 & Hs1).
    destruct (IH (set_unsync (unsync_repos w) (emit_all new1 w)) Hne)
      as (new2 & Hrest & Hp2 & Hs2).
    exists (new1 ++ new2). cbn [sync]. erewrite bind_ok; [|exact Hrun].
    cbv beta iota. rewrite Hrest. rewrite !count_events_app, Hp1, Hs1, Hp2, Hs2.
    split; [|done]. unfold set_unsync, emit_all. simpl. by rewrite <- app_assoc.
Qed.

(** C5: in a pass that pops [repo] and sees the tool exit with a status
    other than 0, the pass adds [repo] back under the lock right after
    the tool, with no sleep in between, and goes on; with status 0 it
    adds nothing. Nothing counts the failures: as long as the tool fails
    the set stays as it is and every pass runs the tool again. *)
Theorem sync_requeues_on_failure (settings : s3_settings_t) :
  (∀ (permanent : bool) (o : oracle) (w : world) (repo : str),
     unsync_repos w ≠ ∅ →
     pick o (before_pop o (unsync_repos w)) = Some repo →
     let rest := while_running o (before_pop o (unsync_repos w) ∖ {[repo]}) in
     let popen :=
       EvPopen (mkrepo_cmd settings repo) (truthy (gpg_sign_key settings)) in
     (exit_status o ≠ 0 →
      ∃ w', sync_iteration settings permanent o w = (Ok Continue, w') ∧
            unsync_repos w' = {[repo]} ∪ rest ∧
            repo ∈ unsync_repos w' ∧
            log w' = log w ++ [EvTest true; EvAcquire; EvPop repo; EvRelease;
                               popen; EvAcquire; EvAdd repo; EvRelease])
     ∧
     (exit_status o = 0 →
      ∃ w', sync_iteration settings permanent o w = (Ok Continue, w') ∧
            unsync_repos w' = rest ∧
            log w' = log w ++ [EvTest true; EvAcquire; EvPop repo; EvRelease;
                               popen]))
  ∧
  (∀ (permanent : bool) (schedule : list oracle) (w : world),
     unsync_repos w ≠ ∅ →
     Forall (λ o, quiet o ∧ exit_status o ≠ 0) schedule →
     ∃ w' new,
       sync settings permanent schedule w = (Ok Running, w') ∧
       unsync_repos w' = unsync_repos w ∧
       log w' = log w ++ new ∧
       count_events is_popen new = length schedule ∧
       count_events is_sleep new = 0%nat).
Proof.
  split.
  - intros permanent o w repo Hne Hpick rest popen.
    rewrite sync_iteration_run. rewrite decide_False by done.
    cbn zeta. rewrite Hpick. fold rest popen. split; intros Hexit.
    + rewrite decide_True by done. eexists. split; [done|].
      cbn [unsync_repos set_unsync emit_all log]. split; [done|].
      split; [|done]. apply elem_of_union_l. by apply elem_of_singleton.
    + rewrite decide_False by (by intros H; apply H). eexists. by split.
  - intros permanent schedule w Hne Hall.
    destruct (sync_failing_forever settings permanent schedule w Hne Hall)
      as (new & Hrun & Hp & Hs).
    eexists _, new. split; [exact Hrun|]. done.
Qed.

Lemma sync_requeues_on_failure_witness :
  (∃ w', sync_iteration example_settings false (alone 1) dirty_world
         = (Ok Continue, w') ∧
         ("live/2.8/ubuntu" : str) ∈ unsync_repos w') ∧
  (∃ w', sync example_settings false [alone 1; alone 2; alone 1] dirty_world
         = (Ok Running, w') ∧
         unsync_repos w' = unsync_repos dirty_world).
Proof.
  destruct (sync_requeues_on_failure example_settings) as [Hpass Hloop]. split.
  - destruct (Hpass false (alone 1) dirty_world ("live/2.8/ubuntu" : str))
      as [Hfail _].
    + apply (bool_decide_unpack _). vm_compute. exact I.
    + vm_compute. reflexivity.
    + destruct Hfail as (w' & Hrun & _ & Hin & _); [discriminate|].
      exists w'. by split.
  - destruct (Hloop false [alone 1; alone 2; alone 1] dirty_world)
      as (w' & new & Hrun & Hset & _).
    + apply (bool_decide_unpack _). vm_compute. exact I.
    + repeat constructor; discriminate.
    + exists w'. by split.
Defined.

(** ** [sync] on an empty set *)

Lemma sync_iteration_transient_no_sleep settings o w r w' :
  sync_iteration settings false o w = (r, w') →
  ∃ new, log w' = log w ++ new ∧ count_events is_sleep new = 0%nat.
Proof.
  rewrite sync_iteration_run. cbv zeta.
  destruct (decide (unsync_repos w = ∅)) as [He|Hne];
    [|destruct (pick o _) as [repo|]; [destruct (decide (exit_status o ≠ 0))|]];
    intros [= <- <-]; eexists; (split; [reflexivity|done]).
Qed.

Lemma sync_iteration_permanent_no_break settings o w r w' :
  sync_iteration settings true o w = (r, w') → r ≠ Ok Break.
Proof.
  rewrite sync_iteration_run. cbv zeta.
  destruct (decide (unsync_repos w = ∅)) as [He|Hne];
    [|destruct (pick o _) as [repo|]; [destruct (decide (exit_status o ≠ 0))|]];
    intros [= <- <-]; discriminate.
Qed.

(** C6: a pass that finds the set empty ends a transient worker at
    once, with no sleep; a transient worker never sleeps at all; the
    same pass of the permanent worker sleeps 5 seconds and goes to the
    next pass; and the permanent worker does not return, whatever the
    schedule. *)
Theorem sync_on_empty_set (settings : s3_settings_t) :
  (∀ (o : oracle) (schedule : list oracle) (w : world),
     unsync_repos w = ∅ →
     sync_iteration settings false o w = (Ok Break, emit_all [EvTest false] w) ∧
     sync settings false (o :: schedule) w
     = (Ok Returned, emit_all [EvTest false] w))
  ∧
  (∀ (schedule : list oracle) (w : world) r w',
     sync settings false schedule w = (r, w') →
     ∃ new, log w' = log w ++ new ∧ count_events is_sleep new = 0%nat)
  ∧
  (∀ (o : oracle) (schedule : list oracle) (w : world),
     unsync_repos w = ∅ →
     sync_iteration settings true o w
     = (Ok Continue, emit_all [EvTest false; EvSleep 5] w) ∧
     sync settings true (o :: schedule) w
     = sync settings true schedule (emit_all [EvTest false; EvSleep 5] w))
  ∧
  (∀ (schedule : list oracle) (w : world) r w',
     sync settings true schedule w = (r, w') → r ≠ Ok Returned).
Proof.
  split; [|split; [|split]].
  - intros o schedule w He.
    assert (Hpass : sync_iteration settings false o w
                    = (Ok Break, emit_all [EvTest false] w)).
    { rewrite sync_iteration_run. by rewrite decide_True by done. }
    split; [done|]. cbn [sync]. by erewrite bind_ok; [|exact Hpass].
  - intros schedule. induction schedule as [|o schedule IH]; intros w r w'.
    + simpl. intros [= <- <-]. exists []. by rewrite app_nil_r.
    + cbn [sync]. unfold bind at 1.
      destruct (sync_iteration settings false o w) as [[[]|e] w1] eqn:Hpass;
        apply sync_iteration_transient_no_sleep in Hpass as (new1 & Hl1 & Hs1).
      * intros Hrest. apply IH in Hrest as (new2 & Hl2 & Hs2).
        exists (new1 ++ new2). rewrite Hl2, Hl1, <- app_assoc.
        split; [done|]. by rewrite count_events_app, Hs1, Hs2.
      * intros [= <- <-]. by exists new1.
      * intros [= <- <-]. by exists new1.
  - intros o schedule w He.
    assert (Hpass : sync_iteration settings true o w
                    = (Ok Continue, emit_all [EvTest false; EvSleep 5] w)).
    { rewrite sync_iteration_run. by rewrite decide_True by done. }
    split; [done|]. cbn [sync]. by erewrite bind_ok; [|exact Hpass].
  - intros schedule. induction schedule as [|o schedule IH]; intros w r w'.
    + simpl. by intros [= <- <-].
    + cbn [sync]. unfold bind at 1.
      destruct (sync_iteration settings true o w) as [[[]|e] w1] eqn:Hpass.
      * apply IH.
      * by apply sync_iteration_permanent_no_break in Hpass.
      * by intros [= <- <-].
Qed.

Lemma sync_on_empty_set_witness :
  sync example_settings false [alone 0; alone 0] empty_world
  = (Ok Returned, {| unsync_repos := ∅; log := [EvTest false] |}) ∧
  sync example_settings true [alone 0; alone 0] empty_world
  = (Ok Running,
     {| unsync_repos := ∅;
        log := [EvTest false; EvSleep 5; EvTest false; EvSleep 5] |}).
Proof.
  destruct (sync_on_empty_set example_settings) as (Htransient & _ & Hpermanent & _).
  split.
  - by destruct (Htransient (alone 0) [alone 0] empty_world eq_refl) as [_ ->].
  - destruct (Hpermanent (alone 0) [alone 0] empty_world eq_refl) as [_ ->].
    by destruct (Hpermanent (alone 0) [] (emit_all [EvTest false; EvSleep 5] empty_world)
                   eq_refl) as [_ ->].
Defined.

(** ** The locking rule *)

Lemma lock_guarded_store_ops held ops l :
  Forall (λ e, store_op e = true) ops →
  lock_guarded held (ops ++ l) = lock_guarded held l.
Proof.
  induction 1 as [|e ops He _ IH]; simpl; [done|].
  destruct e; try discriminate; simpl; by rewrite IH.
Qed.

(** What [_upload_files] leaves behind: uploads and copies, and after
    the last file the update of the set between [acquire] and
    [release]. *)
Lemma upload_files_frame settings package series origin w r w' :
  _upload_files settings package series origin w = (r, w') →
  ∃ ops, Forall (λ e, store_op e = true) ops ∧
    ((∃ e, r = Raise e ∧ w' = emit_all ops w) ∨
     (∃ origin' local, r = Ok origin' ∧ w' = commit local (emit_all ops w))).
Proof.
  destruct r as [origin'|e].
  2:{ intros H. apply upload_files_raise_frame in H as (ops & -> & Hops).
      exists ops. split; [done|]. left. by exists e. }
  unfold _upload_files. unfold bind at 1, lift.
  destruct (dist_base_of settings (Package.dist package)) as [b|e']; [|discriminate].
  unfold bind at 1.
  destruct (upload_loop _ _ _ _ _ _ _ w) as [[[origin1 local]|e'] w1] eqn:Hloop;
    [|discriminate].
  apply upload_loop_frame in Hloop as (ops & -> & Hops).
  rewrite commit_run. intros [= <- <-].
  exists ops. split; [done|]. right. by exists origin1, local.
Qed.

(** [_upload_files] keeps the rule: what it does to [unsync_repos] it
    does under the lock. *)
Lemma upload_files_lock_guarded settings package series origin w r w' :
  _upload_files settings package series origin w = (r, w') →
  ∃ new, log w' = log w ++ new ∧ lock_guarded false new = true.
Proof.
  intros H. apply upload_files_frame in H
    as (ops & Hops & [(e & -> & ->)|(origin' & local & -> & ->)]).
  - exists ops. split; [done|].
    rewrite <- (app_nil_r ops). by rewrite lock_guarded_store_ops.
  - exists (ops ++ [EvAcquire; EvUpdate local; EvRelease]). split.
    + unfold commit, emit_all. simpl. by rewrite <- app_assoc.
    + by rewrite lock_guarded_store_ops.
Qed.

(** So does the marking of the discovered repositories in
    [sync_all_repos]. *)
Lemma add_each_run repos w :
  ∃ w', add_each repos w = (Ok tt, w') ∧
        unsync_repos w' = list_to_set repos ∪ unsync_repos w ∧
        log w' = log w ++ map EvAdd repos.
Proof.
  revert w. induction repos as [|repo repos IH]; intros w.
  - exists w. simpl. split; [done|]. split; [|by rewrite app_nil_r].
    by rewrite union_empty_l_L.
  - cbn [add_each]. unfold bind at 1, unsync_add.
    destruct (IH (emit (EvAdd repo) (set_unsync ({[repo]} ∪ unsync_repos w) w)))
      as (w' & -> & Hset & Hlog).
    exists w'. split; [done|]. rewrite Hset, Hlog. split.
    + cbn [unsync_repos emit set_unsync list_to_set].
      apply set_eq. intros x. rewrite !elem_of_union. tauto.
    + cbn [log emit set_unsync map]. by rewrite <- app_assoc.
Qed.

Lemma lock_guarded_adds repos l :
  lock_guarded true (map EvAdd repos ++ l) = lock_guarded true l.
Proof. induction repos as [|repo repos IH]; simpl; done. Qed.

(** C7 fails on [sync]: every pass starts by testing [unsync_repos]
    before any [acquire], so the log of a pass breaks the rule at its
    first event, and only there. *)
Theorem sync_tests_unsync_repos_unlocked
    (settings : s3_settings_t) (permanent : bool) (o : oracle) (w : world) :
  ∃ nonempty rest,
    log (sync_iteration settings permanent o w).2
    = log w ++ EvTest nonempty :: rest ∧
    lock_guarded false (EvTest nonempty :: rest) = false ∧
    lock_guarded false rest = true.
Proof.
  rewrite sync_iteration_run. cbv zeta.
  destruct (decide (unsync_repos w = ∅)) as [He|Hne];
    [destruct permanent
    |destruct (pick o _) as [repo|]; [destruct (decide (exit_status o ≠ 0))|]];
    eexists _, _; (split; [reflexivity|done]).
Qed.

(** What the unguarded test costs: when another worker takes the last
    repository between the test and the [acquire], [pop] finds the set
    empty and raises [KeyError], after the [acquire] and before any
    [release]. *)
Lemma sync_pop_after_race :
  sync_iteration example_settings false raced dirty_world
  = (Raise (KeyError "pop from an empty set"),
     {| unsync_repos := ∅; log := [EvTest true; EvAcquire] |}).
Proof. vm_compute. reflexivity. Qed.

(** ** Discovered paths and uploaded paths *)

Lemma common_prefix_slash prefix key p :
  common_prefix prefix key = Some p → ("/" : str) `suffix_of` p.
Proof.
  unfold common_prefix. destruct (strip_prefix prefix key) as [rest|]; [|done].
  destruct (partition "/" rest) as [[before [|c found]] after]; [done|].
  intros [= <-]. exists (prefix ++ before). by rewrite <- app_assoc.
Qed.

Lemma bucket_common_prefixes_slash keys prefix l p :
  bucket_common_prefixes keys prefix = Some l → p ∈ l → ("/" : str) `suffix_of` p.
Proof.
  unfold bucket_common_prefixes. intros Hl Hp.
  assert (Hin : p ∈ remove_dups (omap (common_prefix prefix) keys)).
  { destruct (remove_dups _); [done|]. by injection Hl as ->. }
  apply elem_of_remove_dups, list_elem_of_omap in Hin as (key & _ & Hkey).
  by eapply common_prefix_slash.
Qed.

Section DiscoveryFacts.

Variable list_common_prefixes : str → option (list str).

(** What S3 promises about the common prefixes it returns. *)
Hypothesis common_prefixes_end_in_delimiter :
  ∀ prefix l p, list_common_prefixes prefix = Some l → p ∈ l →
                ("/" : str) `suffix_of` p.

Lemma deb_repo_path_discovered base_path p :
  p ∈ _get_deb_repo_path list_common_prefixes base_path → p = base_path ++ "/".
Proof.
  unfold _get_deb_repo_path.
  destruct (list_common_prefixes _); intros H.
  - by apply list_elem_of_singleton in H.
  - by apply elem_of_nil in H.
Qed.

Lemma rpm_repo_path_discovered base_path dist_versions p :
  p ∈ _get_rpm_repo_path list_common_prefixes base_path dist_versions →
  ("/" : str) `suffix_of` p.
Proof.
  induction dist_versions as [|ver rest IH]; simpl; intros H.
  - by apply elem_of_nil in H.
  - destruct (list_common_prefixes _) as [l|] eqn:Hl; [|by auto].
    apply elem_of_app in H as [H|H]; [|by auto].
    by eapply common_prefixes_end_in_delimiter.
Qed.

End DiscoveryFacts.

Lemma format_paths_rpm_repo_path dp dv f r path :
  _format_paths dp dv "rpm" f = Ok (r, path) →
  r = dp ++ "/" ++ dv ++ "/x86_64" ∨ r = dp ++ "/" ++ dv ++ "/SRPMS".
Proof.
  unfold _format_paths. rewrite decide_True by done.
  destruct (Re.fullmatch rx_rpm_binary f).
  - intros [= <- _]. by left.
  - destruct (Re.fullmatch rx_rpm_source f); [|discriminate].
    intros [= <- _]. by right.
Qed.

Lemma format_paths_deb_repo_path dp dv f r path :
  _format_paths dp dv "deb" f = Ok (r, path) → r = dp.
Proof.
  unfold _format_paths. rewrite decide_False by done. rewrite decide_True by done.
  destruct (Re.fullmatch rx_deb f); [|discriminate]. by intros [= <- _].
Qed.

Lemma format_paths_rpm_no_slash dp dv f r path :
  _format_paths dp dv "rpm" f = Ok (r, path) → ¬ ("/" : str) `suffix_of` r.
Proof.
  intros H [k Hk]. apply format_paths_rpm_repo_path in H as [->| ->].
  - change (list_ascii_of_string "/x86_64")
      with (("/x86_6" : str) ++ ("4" : str)) in Hk.
    rewrite !app_assoc in Hk. apply app_inj_2 in Hk as [_ Hk]; [|done].
    discriminate Hk.
  - change (list_ascii_of_string "/SRPMS")
      with (("/SRPM" : str) ++ ("S" : str)) in Hk.
    rewrite !app_assoc in Hk. apply app_inj_2 in Hk as [_ Hk]; [|done].
    discriminate Hk.
Qed.

Lemma app_slash_ne (r : str) : r ++ "/" ≠ r.
Proof. intros H. apply (f_equal length) in H. rewrite length_app in H. simpl in H. lia. Qed.

Lemma two_members (p r : str) : p ≠ r → size ({[p]} ∪ {[r]} : gset str) = 2%nat.
Proof.
  intros Hne. rewrite size_union, !size_singleton; [done|].
  apply disjoint_singleton_l. by rewrite elem_of_singleton.
Qed.

(** C8, as the code has it: discovery reports a deb repository as
    [base_path/] and, S3 ending every common prefix in the delimiter,
    every rpm repository with a final [/]; [_format_paths] gives an rpm
    repository without final [/] and a deb repository as [dist_path]
    itself, which is the discovered path less its final [/]. So the
    path discovery reports and the path an upload marks are never the
    same string, and both are members of a set that holds them. *)
Theorem discovered_and_uploaded_paths_differ
    (list_common_prefixes : str → option (list str)) :
  (∀ prefix l p, list_common_prefixes prefix = Some l → p ∈ l →
                 ("/" : str) `suffix_of` p) →
  (∀ base_path p,
     p ∈ _get_deb_repo_path list_common_prefixes base_path →
     p = base_path ++ "/")
  ∧
  (∀ base_path dist_versions p,
     p ∈ _get_rpm_repo_path list_common_prefixes base_path dist_versions →
     ("/" : str) `suffix_of` p)
  ∧
  (∀ dist_path dist_version filename repo_path path,
     _format_paths dist_path dist_version "rpm" filename = Ok (repo_path, path) →
     ¬ ("/" : str) `suffix_of` repo_path)
  ∧
  (∀ dist_path dist_version filename repo_path path p,
     _format_paths dist_path dist_version "deb" filename = Ok (repo_path, path) →
     p ∈ _get_deb_repo_path list_common_prefixes dist_path →
     repo_path = dist_path ∧ p = repo_path ++ "/" ∧ p ≠ repo_path ∧
     size ({[p]} ∪ {[repo_path]} : gset str) = 2%nat)
  ∧
  (∀ dist_path dist_version filename repo_path path base_path dist_versions p,
     _format_paths dist_path dist_version "rpm" filename = Ok (repo_path, path) →
     p ∈ _get_rpm_repo_path list_common_prefixes base_path dist_versions →
     p ≠ repo_path ∧ size ({[p]} ∪ {[repo_path]} : gset str) = 2%nat).
Proof.
  intros Hs3. split; [|split; [|split; [|split]]].
  - apply deb_repo_path_discovered.
  - by apply rpm_repo_path_discovered.
  - apply format_paths_rpm_no_slash.
  - intros dp dv f r path p Hf Hp.
    apply format_paths_deb_repo_path in Hf as ->.
    apply deb_repo_path_discovered in Hp as ->.
    split; [done|]. split; [done|].
    split; [apply app_slash_ne | apply two_members, app_slash_ne].
  - intros dp dv f r path base vers p Hf Hp.
    assert (Hne : p ≠ r).
    { intros ->. eapply format_paths_rpm_no_slash; [exact Hf|].
      by eapply rpm_repo_path_discovered. }
    split; [done | by apply two_members].
Qed.

Lemma discovered_and_uploaded_paths_witness :
  _get_repository_list (bucket_common_prefixes example_keys) example_settings
  = Ok [ "live/1.10/ubuntu/" : str; "live/2.8/ubuntu/" : str;
         "live/2.8/fedora/31/x86_64/" : str; "live/2.8/fedora/31/SRPMS/" : str ] ∧
  size ({[ "live/2.8/ubuntu/" : str ]} ∪ {[ "live/2.8/ubuntu" : str ]} : gset str)
  = 2%nat.
Proof.
  split; [by vm_compute|].
  destruct (discovered_and_uploaded_paths_differ
              (bucket_common_prefixes example_keys)
              (bucket_common_prefixes_slash example_keys))
    as (_ & _ & _ & Hdeb & _).
  destruct (Hdeb "live/2.8/ubuntu" "disco" "small_1.0-1_all.deb"
              ("live/2.8/ubuntu" : str)
              ("live/2.8/ubuntu/pool/disco/main/s/small/small_1.0-1_all.deb" : str)
              ("live/2.8/ubuntu/" : str))
    as (_ & _ & _ & Hsize).
  - by vm_compute.
  - vm_compute. apply list_elem_of_here.
  - exact Hsize.
Defined.

(** C8 as stated fails where the path of the distribution itself ends
    in [/]: for a deb distribution configured under the name [ubuntu/]
    the repository path of an upload has a final [/] too. *)
Lemma deb_repo_path_with_final_slash :
  dist_base_of slash_settings "ubuntu/" = Ok ("deb" : str) ∧
  _format_paths (dist_path_of slash_settings "live" "2.8" "ubuntu/") "disco" "deb"
    "small_1.0-1_all.deb"
  = Ok ("live/2.8/ubuntu/" : str,
        "live/2.8/ubuntu//pool/disco/main/s/small/small_1.0-1_all.deb" : str) ∧
  ("/" : str) `suffix_of` ("live/2.8/ubuntu/" : str).
Proof.
  split; [by vm_compute|]. split; [by vm_compute|].
  by exists ("live/2.8/ubuntu" : str).
Qed.

Lemma run_workers_idle settings n w :
  run_workers settings n [] w = (Ok (replicate n (Done Running)), w).
Proof.
  induction n as [|n IH]; [done|]. cbn [run_workers replicate].
  unfold bind at 1. cbn. unfold bind at 1. by rewrite IH.
Qed.

(** The first half of [sync_all_repos]: every discovered path is added
    to the set, all of them between one [acquire] and one [release]. *)
Lemma sync_all_repos_marks list_common_prefixes settings repos w :
  _get_repository_list list_common_prefixes settings = Ok repos →
  ∃ w',
    sync_all_repos list_common_prefixes settings [] w
    = (Ok (replicate threads_num (Done Running)), w') ∧
    unsync_repos w' = list_to_set repos ∪ unsync_repos w ∧
    log w' = log w ++ EvAcquire :: map EvAdd repos ++ [EvRelease] ∧
    lock_guarded false (EvAcquire :: map EvAdd repos ++ [EvRelease]) = true.
Proof.
  intros Hrepos. unfold sync_all_repos.
  erewrite bind_ok; [|unfold lift; by rewrite Hrepos].
  unfold bind at 1, sync_lock_acquire, tell.
  destruct (add_each_run repos (emit EvAcquire w)) as (w1 & Hadd & Hset & Hlog).
  erewrite bind_ok; [|exact Hadd].
  unfold bind at 1, sync_lock_release, tell. rewrite run_workers_idle.
  eexists. split; [reflexivity|].
  cbn [unsync_repos log emit]. split; [exact Hset|]. split.
  - rewrite Hlog. cbn [log emit]. by rewrite <- !app_assoc.
  - cbn [lock_guarded]. by rewrite lock_guarded_adds.
Qed.

(** * Further properties *)

(** ** More on [_format_paths] *)

(** What a successful call has decided: one of three cases. *)
Lemma format_paths_ok_inv dp dv (b : str) f r path :
  _format_paths dp dv b f = Ok (r, path) →
  (b = "rpm" ∧ accepted rpm_binary_extensions f ∧
   r = dp ++ "/" ++ dv ++ "/x86_64" ∧ path = r ++ "/Packages/" ++ f)
  ∨ (b = "rpm" ∧ accepted rpm_source_extensions f ∧
     r = dp ++ "/" ++ dv ++ "/SRPMS" ∧ path = r ++ "/Packages/" ++ f)
  ∨ (b = "deb" ∧ accepted deb_extensions f ∧ r = dp ∧
     path = dp ++ "/pool/" ++ dv ++ "/main/" ++ take 1 f
            ++ "/" ++ (partition "_" f).1.1 ++ "/" ++ f).
Proof.
  unfold _format_paths. case_decide as Hrpm; [|case_decide as Hdeb; [|done]].
  - subst b. destruct (Re.fullmatch rx_rpm_binary f) eqn:H1.
    + apply rx_rpm_binary_accepts in H1.
      rewrite !join3. intros [= <- <-]. left. by rewrite <- !app_assoc.
    + destruct (Re.fullmatch rx_rpm_source f) eqn:H2; [|done].
      apply rx_rpm_source_accepts in H2.
      rewrite !join3. intros [= <- <-]. right. left. by rewrite <- !app_assoc.
  - subst b. destruct (Re.fullmatch rx_deb f) eqn:H1; [|done].
    apply rx_deb_accepts in H1. rewrite join7. intros [= <- <-]. by right; right.
Qed.

(** A name that was placed is a name of the layout. *)
Lemma format_paths_ok_valid dp dv (b : str) f r path :
  _format_paths dp dv b f = Ok (r, path) → valid_name b f.
Proof.
  intros H. apply format_paths_ok_inv in H
    as [(-> & H & _)|[(-> & H & _)|(-> & H & _)]].
  - left. split; [done|]. apply accepted_app. by left.
  - left. split; [done|]. apply accepted_app. by right.
  - right. by split.
Qed.

(** X1: [_format_paths] returns a pair exactly for the names its
    layout takes: under [rpm] a prefix without line feed followed by
    [.x86_64.rpm], [.noarch.rpm] or [.src.rpm], under [deb] such a
    prefix followed by [.deb], [.dsc], [.tar.xz] or [.tar.gz]; every
    other call raises. *)
Theorem format_paths_ok_iff (dist_path dist_version dist_base filename : str) :
  (∃ repo_path path,
     _format_paths dist_path dist_version dist_base filename = Ok (repo_path, path))
  ↔ valid_name dist_base filename.
Proof.
  split.
  - intros (r & path & H). by eapply format_paths_ok_valid.
  - intros H.
    exists (placed dist_path dist_version dist_base filename).1,
      (placed dist_path dist_version dist_base filename).2.
    rewrite (valid_name_placed dist_path dist_version _ _ H).
    by destruct (placed _ _ _ _).
Qed.

(** X2: the object of a file lies under its repository and carries the
    file's name as its last component: the path starts with
    [repo_path/] and ends with [/filename]. *)
Theorem format_paths_object_under_repo
    (dist_path dist_version dist_base filename repo_path path : str) :
  _format_paths dist_path dist_version dist_base filename = Ok (repo_path, path) →
  (repo_path ++ "/") `prefix_of` path ∧ ("/" ++ filename) `suffix_of` path.
Proof.
  intros H. apply format_paths_ok_inv in H
    as [(-> & _ & -> & ->)|[(-> & _ & -> & ->)|(-> & _ & -> & ->)]].
  - split.
    + exists ("Packages/" ++ filename). by rewrite <- !app_assoc.
    + exists ((dist_path ++ "/" ++ dist_version ++ "/x86_64") ++ "/Packages").
      by rewrite <- !app_assoc.
  - split.
    + exists ("Packages/" ++ filename). by rewrite <- !app_assoc.
    + exists ((dist_path ++ "/" ++ dist_version ++ "/SRPMS") ++ "/Packages").
      by rewrite <- !app_assoc.
  - split.
    + exists ("pool/" ++ dist_version ++ "/main/" ++ take 1 filename
              ++ "/" ++ (partition "_" filename).1.1 ++ "/" ++ filename).
      by rewrite <- !app_assoc.
    + exists (dist_path ++ "/pool/" ++ dist_version ++ "/main/" ++ take 1 filename
              ++ "/" ++ (partition "_" filename).1.1).
      by rewrite <- !app_assoc.
Qed.

Lemma format_paths_object_under_repo_witness :
  (("live/2.8/fedora/31/SRPMS" : str) ++ "/")
    `prefix_of` ("live/2.8/fedora/31/SRPMS/Packages/small-1.0-1.src.rpm" : str) ∧
  (("/" : str) ++ "small-1.0-1.src.rpm")
    `suffix_of` ("live/2.8/fedora/31/SRPMS/Packages/small-1.0-1.src.rpm" : str).
Proof.
  apply (format_paths_object_under_repo "live/2.8/fedora" "31" "rpm"
           "small-1.0-1.src.rpm").
  vm_compute. reflexivity.
Defined.

Lemma allowed_extension_suffix (exts : list str) f :
  (∀ e, e ∈ exts → ∃ a t, e = a ++ t ∧ t ∈ ALLOWED_EXTENSIONS) →
  accepted exts f → ∃ ext, ext ∈ ALLOWED_EXTENSIONS ∧ ext `suffix_of` f.
Proof.
  intros Hexts (p & e & _ & He & ->).
  destruct (Hexts e He) as (a & t & -> & Ht).
  exists t. split; [done|]. exists (p ++ a). by rewrite <- app_assoc.
Qed.

Ltac allowed_ext :=
  unfold ALLOWED_EXTENSIONS; rewrite !elem_of_union, !elem_of_singleton; auto 10.

Ltac split_ext a t :=
  exists (a : str), (t : str); split; [reflexivity | allowed_ext].

(** X3: every name [_format_paths] takes, under either layout, ends in
    one of [ALLOWED_EXTENSIONS]; the constant is the coarser test, for
    [small.i386.rpm] ends in [.rpm] and is refused under every
    layout. *)
Theorem format_paths_within_allowed_extensions :
  (∀ dist_path dist_version dist_base filename repo_path path,
     _format_paths dist_path dist_version dist_base filename = Ok (repo_path, path) →
     ∃ ext, ext ∈ ALLOWED_EXTENSIONS ∧ ext `suffix_of` filename)
  ∧
  ((".rpm" : str) ∈ ALLOWED_EXTENSIONS ∧
   (".rpm" : str) `suffix_of` ("small.i386.rpm" : str) ∧
   ∀ dist_path dist_version dist_base,
     ∃ e, _format_paths dist_path dist_version dist_base "small.i386.rpm" = Raise e).
Proof.
  split.
  - intros dp dv b f r path H.
    apply format_paths_ok_inv in H
      as [(_ & H & _)|[(_ & H & _)|(_ & H & _)]];
      (eapply allowed_extension_suffix; [|exact H]);
      intros e He.
    + unfold rpm_binary_extensions in He.
      apply elem_of_cons in He as [->|He]; [split_ext ".x86_64" ".rpm"|].
      apply list_elem_of_singleton in He as ->. split_ext ".noarch" ".rpm".
    + apply list_elem_of_singleton in He as ->. split_ext ".src" ".rpm".
    + unfold deb_extensions in He.
      apply elem_of_cons in He as [->|He]; [split_ext "" ".deb"|].
      apply elem_of_cons in He as [->|He]; [split_ext "" ".dsc"|].
      apply elem_of_cons in He as [->|He]; [split_ext ".tar" ".xz"|].
      apply list_elem_of_singleton in He as ->. split_ext ".tar" ".gz".
  - split; [allowed_ext|]. split; [by exists ("small.i386" : str)|].
    intros dp dv b.
    assert (Hno : ∀ exts : list str,
               bool_decide (Exists (λ e, e `suffix_of` ("small.i386.rpm" : str)) exts)
               = false → ¬ accepted exts "small.i386.rpm").
    { intros exts Hb Ha. apply accepted_has_extension in Ha as (e & He & Hs).
      apply bool_decide_eq_false in Hb. apply Hb, Exists_exists. eauto. }
    destruct (decide (b = "rpm")) as [->|Hr]; [|destruct (decide (b = "deb")) as [->|Hd]].
    + eexists. apply format_paths_rpm_refused. apply Hno. by vm_compute.
    + eexists. apply format_paths_deb_refused. apply Hno. by vm_compute.
    + eexists. by apply format_paths_unknown_base.
Qed.

(** ** One object for one name *)

(** X21: under one distribution path, version and layout, two file
    names that [_format_paths] sends to the same object path are the
    same name: no file of a package can take the place of another one
    in the bucket. *)
Theorem format_paths_path_inj
    (dist_path dist_version dist_base filename1 filename2 : str)
    (repo_path1 repo_path2 path : str) :
  _format_paths dist_path dist_version dist_base filename1 = Ok (repo_path1, path) →
  _format_paths dist_path dist_version dist_base filename2 = Ok (repo_path2, path) →
  filename1 = filename2 ∧ repo_path1 = repo_path2.
Proof.
  intros H1 H2.
  pose proof (format_paths_ok_valid _ _ _ _ _ _ H1) as Hv1.
  pose proof (format_paths_ok_valid _ _ _ _ _ _ H2) as Hv2.
  assert (Hsame : filename1 = filename2).
  { apply (placed_path_inj dist_path dist_version dist_base); [done..|].
    rewrite (valid_name_placed dist_path dist_version _ _ Hv1) in H1.
    rewrite (valid_name_placed dist_path dist_version _ _ Hv2) in H2.
    injection H1 as H1. injection H2 as H2. by rewrite H1, H2. }
  split; [done|]. subst filename2. rewrite H1 in H2. by injection H2.
Qed.

Lemma format_paths_path_inj_witness :
  ("small-1.0-1.x86_64.rpm" : str) = ("small-1.0-1.x86_64.rpm" : str)
  ∧ ("live/2.8/fedora/31/x86_64" : str) = ("live/2.8/fedora/31/x86_64" : str).
Proof.
  apply (format_paths_path_inj "live/2.8/fedora" "31" "rpm"
           "small-1.0-1.x86_64.rpm" "small-1.0-1.x86_64.rpm"
           "live/2.8/fedora/31/x86_64" "live/2.8/fedora/31/x86_64"
           "live/2.8/fedora/31/x86_64/Packages/small-1.0-1.x86_64.rpm");
    vm_compute; reflexivity.
Defined.

(** ** More on [_upload_files] and [put_package] *)

Lemma lock_guarded_app held l1 l2 :
  lock_guarded held (l1 ++ l2)
  = lock_guarded held l1 && lock_guarded (lock_after held l1) l2.
Proof.
  revert held. induction l1 as [|e l1 IH]; intros held; [done|].
  destruct e; simpl; rewrite ?IH; try done; by rewrite andb_assoc.
Qed.

Lemma lock_after_app held l1 l2 :
  lock_after held (l1 ++ l2) = lock_after (lock_after held l1) l2.
Proof.
  revert held. induction l1 as [|e l1 IH]; intros held; [done|].
  destruct e; simpl; by rewrite ?IH.
Qed.

Lemma lock_after_store_ops held ops :
  Forall (λ e, store_op e = true) ops → lock_after held ops = held.
Proof.
  induction 1 as [|e ops He _ IH]; [done|]. by destruct e.
Qed.

Lemma put_package_unfold settings package :
  put_package settings package
  = upload_all settings package (series_to_upload settings package) ∅.
Proof. reflexivity. Qed.

Lemma upload_files_grows_under_lock settings package series origin w r w' :
  _upload_files settings package series origin w = (r, w') →
  unsync_repos w ⊆ unsync_repos w' ∧
  ∃ new, log w' = log w ++ new ∧
         lock_guarded false new = true ∧ lock_after false new = false.
Proof.
  intros H. apply upload_files_frame in H
    as (ops & Hops & [(e & -> & ->)|(origin' & local & -> & ->)]).
  - split; [done|]. exists ops. split; [done|].
    rewrite <- (app_nil_r ops) at 1. rewrite lock_guarded_store_ops by done.
    by rewrite lock_after_store_ops.
  - split; [cbn; apply union_subseteq_r|].
    exists (ops ++ [EvAcquire; EvUpdate local; EvRelease]). split.
    + unfold commit, emit_all. simpl. by rewrite <- app_assoc.
    + rewrite lock_guarded_store_ops by done.
      rewrite lock_after_app, (lock_after_store_ops false ops) by done.
      split; reflexivity.
Qed.

Lemma upload_all_grows_under_lock settings package series origin w r w' :
  upload_all settings package series origin w = (r, w') →
  unsync_repos w ⊆ unsync_repos w' ∧
  ∃ new, log w' = log w ++ new ∧
         lock_guarded false new = true ∧ lock_after false new = false.
Proof.
  revert origin w. induction series as [|s series IH]; intros origin w.
  - intros [= <- <-]. split; [done|]. exists []. by rewrite app_nil_r.
  - cbn [upload_all]. unfold bind at 1.
    destruct (_upload_files settings package s origin w) as [[origin'|e] w1] eqn:H1;
      apply upload_files_grows_under_lock in H1 as (Hsub1 & new1 & Hl1 & Hg1 & Ha1).
    + intros H2. apply IH in H2 as (Hsub2 & new2 & Hl2 & Hg2 & Ha2).
      split; [by etrans|]. exists (new1 ++ new2).
      rewrite Hl2, Hl1, <- app_assoc. split; [done|].
      by rewrite lock_guarded_app, lock_after_app, Hg1, Ha1, Hg2, Ha2.
    + intros [= <- <-]. split; [done|]. by exists new1.
Qed.

(** X5: whatever its outcome, [put_package] takes nothing out of
    [unsync_repos], touches the set only between an [acquire] and the
    next [release], and leaves the lock free. *)
Theorem put_package_grows_under_lock
    (settings : s3_settings_t) (package : package_t) (w : world)
    (r : result unit) (w' : world) :
  put_package settings package w = (r, w') →
  unsync_repos w ⊆ unsync_repos w' ∧
  ∃ new, log w' = log w ++ new ∧
         lock_guarded false new = true ∧ lock_after false new = false.
Proof. rewrite put_package_unfold. apply upload_all_grows_under_lock. Qed.

Lemma put_package_grows_under_lock_witness :
  unsync_repos dirty_world
  ⊆ unsync_repos (put_package example_settings enabled_package dirty_world).2.
Proof.
  eapply (put_package_grows_under_lock example_settings enabled_package dirty_world
            (put_package example_settings enabled_package dirty_world).1).
  by destruct (put_package example_settings enabled_package dirty_world).
Defined.

(** The later series of a call: every file has its origin, so each
    series copies every file from there and marks its repositories. *)
Lemma upload_all_copies settings package b (src : str → copy_source) origin :
  dist_base_of settings (Package.dist package) = Ok b →
  (∀ f body, (f, body) ∈ Package.files package → valid_name b f) →
  (∀ f, f ∈ (Package.files package).*1 → origin !! f = Some (src f)) →
  ∀ series w,
  let dv := Package.dist_version package in
  let dp s := dist_path_of settings (Package.repo_kind package) s (Package.dist package) in
  ∃ w' new,
    upload_all settings package series origin w = (Ok tt, w') ∧
    log w' = log w ++ new ∧
    uploads_of new = [] ∧
    copies_of new
    = flat_map (λ s, map (λ fb, (src fb.1, (placed (dp s) dv b fb.1).2))
                       (Package.files package)) series ∧
    unsync_repos w ⊆ unsync_repos w' ∧
    ∀ s f body, s ∈ series → (f, body) ∈ Package.files package →
                (placed (dp s) dv b f).1 ∈ unsync_repos w'.
Proof.
  intros Hb Hvalid Horigin series. induction series as [|s series IH]; intros w dv dp.
  - exists w, []. cbn. rewrite app_nil_r. repeat split; try done.
    intros s f body Hs. by apply elem_of_nil in Hs.
  - destruct (upload_files_copies settings package s b origin w Hb)
      as (copies & Hrun & Hcopies); [|done|].
    { intros f Hf. rewrite Horigin by done. by eexists. }
    fold dv (dp s) in Hrun, Hcopies.
    assert (Hcopies' : copies
      = map (λ fb : str * fileobj,
               EvCopy (src fb.1) (placed (dp s) dv b fb.1).2) (Package.files package)).
    { clear Hrun. revert Hcopies.
      assert (Hin : ∀ fb, fb ∈ Package.files package →
                          origin !! fb.1 = Some (src fb.1)).
      { intros [f body] Hf. apply Horigin. apply list_elem_of_fmap. by exists (f, body). }
      revert Hin. generalize (Package.files package). intros files Hin Hall.
      induction Hall as [|fb ev files evs (src' & Hsrc & ->) _ IHall]; [done|].
      cbn [map]. rewrite Hin in Hsrc by apply list_elem_of_here.
      injection Hsrc as <-. f_equal. apply IHall.
      intros fb' Hfb'. by apply Hin, list_elem_of_further. }
    destruct (IH (commit (mark_all (dp s) dv b (Package.files package) ∅)
                    (emit_all copies w)))
      as (w' & new & Hrest & Hlog & Hup & Hcp & Hsub & Hmarks).
    exists w', (copies
                ++ [EvAcquire;
                    EvUpdate (mark_all (dp s) dv b (Package.files package) ∅);
                    EvRelease]
                ++ new).
    split; [|split; [|split; [|split; [|split]]]].
    + cbn [upload_all]. by erewrite bind_ok; [|exact Hrun].
    + rewrite Hlog. unfold commit, emit_all. simpl. by rewrite <- !app_assoc.
    + rewrite !uploads_of_app, Hup, Hcopies'.
      by rewrite (uploads_of_copies (λ fb : str * fileobj, src fb.1)
                    (λ fb, (placed (dp s) dv b fb.1).2)).
    + rewrite !copies_of_app, Hcp, Hcopies'.
      by rewrite (copies_of_copies (λ fb : str * fileobj, src fb.1)
                    (λ fb, (placed (dp s) dv b fb.1).2)).
    + etrans; [|exact Hsub]. cbn. apply union_subseteq_r.
    + intros s' f body Hs' Hf. apply elem_of_cons in Hs' as [->|Hs'].
      * apply Hsub. cbn. apply elem_of_union_l, mark_all_elem.
        right. by exists (f, body).
      * by eapply Hmarks.
Qed.

(** X6: a package of the data model sent to any list of series, the
    enabled ones or its own only: [put_package] succeeds, every file is
    uploaded once, to the first series, and copied once to each further
    series, always from the place of that first upload; a package sent
    to one series is never copied; every repository touched, in every
    series, is in [unsync_repos] afterwards. *)
Theorem put_package_series
    (settings : s3_settings_t) (package : package_t)
    (s1 : str) (rest : list str) (b : str) (w : world) :
  series_to_upload settings package = s1 :: rest →
  dist_base_of settings (Package.dist package) = Ok b →
  NoDup (Package.files package).*1 →
  (∀ f body, (f, body) ∈ Package.files package → valid_name b f) →
  let dv := Package.dist_version package in
  let dp s := dist_path_of settings (Package.repo_kind package) s (Package.dist package) in
  ∃ w' new,
    put_package settings package w = (Ok tt, w') ∧
    log w' = log w ++ new ∧
    uploads_of new
    = map (λ fb, ((placed (dp s1) dv b fb.1).2, fb.2)) (Package.files package) ∧
    copies_of new
    = flat_map (λ s, map (λ fb, ({| Bucket := bucket_name settings;
                                     Key := (placed (dp s1) dv b fb.1).2 |},
                                  (placed (dp s) dv b fb.1).2))
                       (Package.files package)) rest ∧
    ∀ s f body, s ∈ s1 :: rest → (f, body) ∈ Package.files package →
                (placed (dp s) dv b f).1 ∈ unsync_repos w'.
Proof.
  intros Hseries Hb Hnd Hvalid dv dp.
  set (files := Package.files package) in *.
  set (uploads := map (λ fb : str * fileobj,
                         EvUpload (placed (dp s1) dv b fb.1).2 fb.2) files).
  set (w1 := commit (mark_all (dp s1) dv b files ∅) (emit_all uploads w)).
  destruct (upload_all_copies settings package b
              (origin_of settings (dp s1) dv b)
              (record_origins settings (dp s1) dv b files ∅) Hb Hvalid)
    with (series := rest) (w := w1)
    as (w' & new & Hrest & Hlog & Hup & Hcp & Hsub & Hmarks).
  { intros f Hf. rewrite record_origins_lookup. by rewrite decide_True. }
  fold dv dp files in Hrest, Hlog, Hup, Hcp, Hsub, Hmarks.
  exists w', (uploads
              ++ [EvAcquire; EvUpdate (mark_all (dp s1) dv b files ∅); EvRelease]
              ++ new).
  split; [|split; [|split; [|split]]].
  - rewrite put_package_unfold, Hseries. cbn [upload_all].
    erewrite bind_ok; [exact Hrest|].
    by apply (upload_files_uploads settings package s1 b).
  - rewrite Hlog. unfold w1, commit, emit_all. simpl. by rewrite <- !app_assoc.
  - rewrite !uploads_of_app, Hup. unfold uploads.
    rewrite (uploads_of_uploads (λ fb : str * fileobj, (placed (dp s1) dv b fb.1).2) snd).
    simpl. by rewrite app_nil_r.
  - rewrite !copies_of_app, Hcp. unfold uploads.
    by rewrite (copies_of_uploads (λ fb : str * fileobj, (placed (dp s1) dv b fb.1).2) snd).
  - intros s f body Hs Hf. apply elem_of_cons in Hs as [->|Hs].
    + apply Hsub. unfold w1. cbn. apply elem_of_union_l, mark_all_elem.
      right. by exists (f, body).
    + by eapply Hmarks.
Qed.

Lemma small_files_valid f body :
  (f, body) ∈ Package.files single_package → valid_name "deb" f.
Proof.
  intros Hf. right. split; [done|].
  apply elem_of_cons in Hf as [[= -> ->]|Hf].
  - exists ("small_1.0-1_all" : str), (".deb" : str). split; [|split; [|done]].
    + unfold no_newline. apply (bool_decide_unpack _). vm_compute. exact I.
    + apply list_elem_of_here.
  - apply list_elem_of_singleton in Hf as [= -> ->].
    exists ("small_1.0-1" : str), (".dsc" : str). split; [|split; [|done]].
    + unfold no_newline. apply (bool_decide_unpack _). vm_compute. exact I.
    + apply list_elem_of_further, list_elem_of_here.
Qed.

Lemma put_package_series_witness :
  ∃ w',
    put_package example_settings single_package empty_world = (Ok tt, w') ∧
    uploads_of (log w')
    = [ ("live/2.8/ubuntu/pool/disco/main/s/small/small_1.0-1_all.deb" : str,
         small_deb);
        ("live/2.8/ubuntu/pool/disco/main/s/small/small_1.0-1.dsc" : str,
         small_dsc) ] ∧
    copies_of (log w') = [] ∧
    ("live/2.8/ubuntu" : str) ∈ unsync_repos w'.
Proof.
  destruct (put_package_series example_settings single_package
              "2.8" [] "deb" empty_world)
    as (w' & new & Hrun & Hlog & Hup & Hcp & Hin); try reflexivity.
  - apply (bool_decide_unpack _). vm_compute. exact I.
  - apply small_files_valid.
  - exists w'. split; [exact Hrun|].
    change (log empty_world) with (@nil event) in Hlog. rewrite app_nil_l in Hlog.
    rewrite Hlog, Hup, Hcp. split; [by vm_compute|]. split; [done|].
    apply (Hin "2.8" "small_1.0-1_all.deb" small_deb);
      apply list_elem_of_here.
Defined.

(** X7: two ways for [put_package] to do nothing. A distribution that
    [supported_repos] does not list makes the call raise [KeyError]
    with its name before anything is uploaded, as soon as there is a
    series to upload to. With no series at all, the enabled list being
    empty, the call returns [None] without looking at the package, be
    its distribution and its file names what they may. *)
Theorem put_package_without_effect
    (settings : s3_settings_t) (package : package_t) (w : world) :
  (assoc (Package.dist package) (distrs (supported_repos settings)) = None →
   series_to_upload settings package ≠ [] →
   put_package settings package w = (Raise (KeyError (Package.dist package)), w))
  ∧
  (Package.tarantool_series package = "enabled" →
   enabled (supported_repos settings) = [] →
   put_package settings package w = (Ok tt, w)).
Proof.
  split.
  - intros Hdist Hseries. rewrite put_package_unfold.
    destruct (series_to_upload settings package) as [|s series]; [done|].
    cbn [upload_all]. unfold bind at 1, _upload_files.
    unfold bind at 1, lift, dist_base_of. by rewrite Hdist.
  - intros Hen Hnil. rewrite put_package_unfold. unfold series_to_upload.
    rewrite decide_True by done. by rewrite Hnil.
Qed.

Lemma put_package_without_effect_witness :
  put_package example_settings
    {| Package.repo_kind := "live";
       Package.tarantool_series := "2.8";
       Package.dist := "arch";
       Package.dist_version := "rolling";
       Package.files := [ ("small-1.0-1.pkg.tar.xz" : str, small_deb) ] |}
    empty_world
  = (Raise (KeyError "arch"), empty_world).
Proof.
  apply put_package_without_effect; [reflexivity | discriminate].
Defined.

(** ** More on [sync] *)

Lemma pops_of_app l1 l2 : pops_of (l1 ++ l2) = pops_of l1 ++ pops_of l2.
Proof. apply omap_app. Qed.

Lemma popens_of_app l1 l2 : popens_of (l1 ++ l2) = popens_of l1 ++ popens_of l2.
Proof. apply omap_app. Qed.

(** A pass on a non-empty set with a tool that succeeds and no
    interference: one path leaves the set. *)
Lemma sync_iteration_succeeding settings permanent o w :
  unsync_repos w ≠ ∅ → quiet o → exit_status o = 0 →
  ∃ repo,
    repo ∈ unsync_repos w ∧
    sync_iteration settings permanent o w
    = (Ok Continue,
       set_unsync (unsync_repos w ∖ {[repo]})
         (emit_all [EvTest true; EvAcquire; EvPop repo; EvRelease;
                    EvPopen (mkrepo_cmd settings repo)
                      (truthy (gpg_sign_key settings))] w)).
Proof.
  intros Hne [Hq1 Hq2] Hexit. rewrite sync_iteration_run.
  rewrite decide_False by done. cbn zeta. rewrite Hq1.
  destruct (pick_nonempty o (unsync_repos w) Hne) as (repo & -> & Hin).
  rewrite Hq2. rewrite decide_False by (by intros H; apply H).
  by exists repo.
Qed.

(** A worker left alone with a tool that succeeds, pass by pass. *)
Lemma sync_left_alone settings permanent schedule w :
  Forall (λ o, quiet o ∧ exit_status o = 0) schedule →
  (size (unsync_repos w) < length schedule)%nat →
  ∃ w' new,
    sync settings permanent schedule w
    = (Ok (if permanent then Running else Returned), w') ∧
    unsync_repos w' = ∅ ∧
    log w' = log w ++ new ∧
    pops_of new ≡ₚ elements (unsync_repos w) ∧
    popens_of new
    = map (λ repo, (mkrepo_cmd settings repo, truthy (gpg_sign_key settings)))
        (pops_of new) ∧
    count_events is_sleep new
    = (if permanent then length schedule - size (unsync_repos w) else 0)%nat.
Proof.
  intros Hall. revert w.
  induction Hall as [|o schedule [Hq Hexit] Hall IH]; intros w Hsize;
    [simpl in Hsize; lia|].
  destruct (decide (unsync_repos w = ∅)) as [He|Hne].
  - (* nothing left *)
    destruct permanent.
    + assert (Hidle : ∀ sch w0, unsync_repos w0 = ∅ →
                ∃ w1 new1, sync settings true sch w0 = (Ok Running, w1) ∧
                           unsync_repos w1 = ∅ ∧ log w1 = log w0 ++ new1 ∧
                           pops_of new1 = [] ∧ popens_of new1 = [] ∧
                           count_events is_sleep new1 = length sch).
      { clear. intros sch. induction sch as [|o sch IH]; intros w0 He.
        - exists w0, []. by rewrite app_nil_r.
        - cbn [sync]. erewrite bind_ok.
          2:{ rewrite sync_iteration_run. by rewrite decide_True by done. }
          cbv beta iota.
          destruct (IH (emit_all [EvTest false; EvSleep 5] w0) He)
            as (w1 & new1 & -> & He1 & Hl1 & Hp1 & Hc1 & Hs1).
          exists w1, ([EvTest false; EvSleep 5] ++ new1).
          rewrite Hl1, pops_of_app, popens_of_app, count_events_app, Hp1, Hc1, Hs1.
          cbn. by rewrite <- app_assoc. }
      destruct (Hidle (o :: schedule) w He)
        as (w1 & new1 & -> & He1 & Hl1 & Hp1 & Hc1 & Hs1).
      exists w1, new1. rewrite Hp1, Hc1, Hs1, He, elements_empty, size_empty.
      repeat split; try done; cbn [length]; lia.
    + exists (emit_all [EvTest false] w), [EvTest false].
      cbn [sync]. erewrite bind_ok.
      2:{ rewrite sync_iteration_run. by rewrite decide_True by done. }
      rewrite He, elements_empty. done.
  - (* one path goes *)
    destruct (sync_iteration_succeeding settings permanent o w Hne Hq Hexit)
      as (repo & Hin & Hrun).
    set (w1 := set_unsync (unsync_repos w ∖ {[repo]})
                 (emit_all [EvTest true; EvAcquire; EvPop repo; EvRelease;
                            EvPopen (mkrepo_cmd settings repo)
                              (truthy (gpg_sign_key settings))] w)) in *.
    assert (Hsz : size (unsync_repos w) = S (size (unsync_repos w1))).
    { unfold w1. cbn [unsync_repos set_unsync].
      rewrite size_difference by (by apply singleton_subseteq_l).
      rewrite size_singleton.
      assert (Hle : (size ({[repo]} : gset str) ≤ size (unsync_repos w))%nat)
        by (by apply subseteq_size, singleton_subseteq_l).
      rewrite size_singleton in Hle. lia. }
    destruct (IH w1) as (w' & new & Hrest & He' & Hlog & Hpops & Hpopens & Hsleep).
    { cbn [length] in Hsize. lia. }
    exists w', ([EvTest true; EvAcquire; EvPop repo; EvRelease;
                 EvPopen (mkrepo_cmd settings repo) (truthy (gpg_sign_key settings))]
                ++ new).
    split; [|split; [done|split; [|split; [|split]]]].
    + cbn [sync]. erewrite bind_ok; [|exact Hrun]. exact Hrest.
    + rewrite Hlog. unfold w1, emit_all. cbn. by rewrite <- app_assoc.
    + rewrite pops_of_app. cbn. rewrite Hpops. unfold w1. cbn [unsync_repos set_unsync].
      rewrite (union_difference_singleton_L repo (unsync_repos w) Hin) at 2.
      symmetry. apply elements_union_singleton.
      apply not_elem_of_difference. right. by apply elem_of_singleton.
    + rewrite popens_of_app, pops_of_app. cbn. by rewrite Hpopens.
    + rewrite count_events_app, Hsleep.
      destruct permanent; [|done]. rewrite Hsz. cbn [length].
      unfold count_events. cbn [List.filter is_sleep length]. lia.
Qed.

(** X8: left alone with a tool that succeeds, a worker drains the set.
    Given more passes than the set has paths, it pops every path of the
    set exactly once, runs the tool once on each, in the order of the
    pops and with the signing key in the environment only, and leaves
    the set empty. The transient worker then returns without a sleep;
    the permanent one sleeps through the passes that are left. *)
Theorem sync_drains (settings : s3_settings_t) (permanent : bool)
    (schedule : list oracle) (w : world) :
  Forall (λ o, quiet o ∧ exit_status o = 0) schedule →
  (size (unsync_repos w) < length schedule)%nat →
  ∃ w' new,
    sync settings permanent schedule w
    = (Ok (if permanent then Running else Returned), w') ∧
    unsync_repos w' = ∅ ∧
    log w' = log w ++ new ∧
    pops_of new ≡ₚ elements (unsync_repos w) ∧
    popens_of new
    = map (λ repo, (mkrepo_cmd settings repo, truthy (gpg_sign_key settings)))
        (pops_of new) ∧
    count_events is_sleep new
    = (if permanent then length schedule - size (unsync_repos w) else 0)%nat.
Proof. apply sync_left_alone. Qed.

Lemma sync_drains_witness :
  ∃ w',
    sync example_settings false [alone 0; alone 0] dirty_world = (Ok Returned, w') ∧
    unsync_repos w' = ∅ ∧
    popens_of (log w')
    = [ ( [ "./third_party/mkrepo/mkrepo.py" : str;
            "--s3-access-key-id" : str; "id" : str;
            "--s3-secret-access-key" : str; "secret" : str;
            "--s3-endpoint" : str; "https://s3.example.org" : str;
            "--s3-region" : str; "ru-msk" : str;
            "s3://packages/live/2.8/ubuntu" : str ], None ) ].
Proof.
  destruct (sync_drains example_settings false [alone 0; alone 0] dirty_world)
    as (w' & new & Hrun & He & Hlog & Hpops & Hpopens & _).
  - by repeat constructor.
  - unfold dirty_world. cbn [unsync_repos length]. rewrite size_singleton. lia.
  - exists w'. split; [exact Hrun|]. split; [exact He|].
    change (log dirty_world) with (@nil event) in Hlog. rewrite app_nil_l in Hlog.
    rewrite Hlog, Hpopens.
    assert (Hp : pops_of new = ["live/2.8/ubuntu" : str]).
    { apply Permutation_singleton_r. rewrite Hpops.
      unfold dirty_world. cbn [unsync_repos]. by rewrite elements_singleton. }
    rewrite Hp. by vm_compute.
Defined.

(** What a pass leaves of the lock, by outcome. *)
Lemma sync_iteration_lock settings permanent o w r w' :
  sync_iteration settings permanent o w = (r, w') →
  ∃ new,
    log w' = log w ++ new ∧
    match r with
    | Ok _ => lock_after false new = false
    | Raise e =>
        e = KeyError "pop from an empty set" ∧
        lock_after false new = true ∧
        unsync_repos w ≠ ∅ ∧ before_pop o (unsync_repos w) = ∅
    end.
Proof.
  rewrite sync_iteration_run. cbv zeta.
  destruct (decide (unsync_repos w = ∅)) as [He|Hne];
    [destruct permanent
    |destruct (pick o _) as [repo|] eqn:Hpick;
     [destruct (decide (exit_status o ≠ 0))|]];
    intros [= <- <-]; eexists; (split; [reflexivity|]); try done.
  repeat split; try done. by apply (choose_empty (pick o)).
Qed.

(** X10: the signing key never stands on the command line of the tool.
    Whether a key is set decides between the command with [--sign] and
    the command without; which key it is changes nothing, the command
    ends in the [s3://bucket/path] of the repository either way, and the
    key travels in the environment given to [Popen]. *)
Theorem mkrepo_cmd_hides_sign_key
    (settings : s3_settings_t) (key key' : option str) (sync_repo : str) :
  (is_Some (truthy key) ↔ is_Some (truthy key')) →
  mkrepo_cmd (with_gpg_sign_key key settings) sync_repo
  = mkrepo_cmd (with_gpg_sign_key key' settings) sync_repo
  ∧
  last (mkrepo_cmd (with_gpg_sign_key key settings) sync_repo)
  = Some ("s3://" ++ bucket_name settings ++ "/" ++ sync_repo)
  ∧
  ∀ (o : oracle) (w : world),
    unsync_repos w ≠ ∅ →
    pick o (before_pop o (unsync_repos w)) = Some sync_repo →
    popens_of (log (sync_iteration (with_gpg_sign_key key settings) false o w).2)
    = popens_of (log w)
      ++ [(mkrepo_cmd (with_gpg_sign_key key settings) sync_repo, truthy key)].
Proof.
  intros Hkeys. split; [|split].
  - unfold mkrepo_cmd, with_gpg_sign_key. cbn.
    destruct (truthy key), (truthy key'); try done.
    + destruct Hkeys as [H _]. by destruct H.
    + destruct Hkeys as [_ H]. by destruct H.
  - unfold mkrepo_cmd. rewrite !app_assoc. apply last_snoc.
  - intros o w Hne Hpick. rewrite sync_iteration_run.
    rewrite decide_False by done. cbv zeta. rewrite Hpick.
    destruct (decide (exit_status o ≠ 0)); cbn [snd log emit_all set_unsync];
      rewrite popens_of_app; reflexivity.
Qed.

Lemma mkrepo_cmd_hides_sign_key_witness :
  mkrepo_cmd (with_gpg_sign_key (Some ("0xA1" : str)) example_settings)
    "live/2.8/ubuntu"
  = mkrepo_cmd (with_gpg_sign_key (Some ("0xB2" : str)) example_settings)
      "live/2.8/ubuntu".
Proof.
  apply (mkrepo_cmd_hides_sign_key example_settings
           (Some ("0xA1" : str)) (Some ("0xB2" : str))).
  split; intros _; by eexists.
Defined.

(** ** Discovery *)

Lemma extend_each_elem {A} (f : A → result (list str)) xs l p :
  extend_each f xs = Ok l →
  p ∈ l ↔ ∃ x lx, x ∈ xs ∧ f x = Ok lx ∧ p ∈ lx.
Proof.
  revert l. induction xs as [|x xs IH]; intros l; cbn [extend_each].
  - intros [= <-]. split; [by intros H%elem_of_nil|].
    by intros (x & lx & H%elem_of_nil & _).
  - destruct (f x) as [lx|e] eqn:Hx; [|done].
    destruct (extend_each f xs) as [l'|e]; [|done].
    intros [= <-]. rewrite elem_of_app, (IH l' eq_refl). split.
    + intros [H|(y & ly & Hy & Hfy & Hp)].
      * exists x, lx. split; [apply list_elem_of_here|done].
      * exists y, ly. split; [by apply list_elem_of_further|done].
    + intros (y & ly & Hy & Hfy & Hp).
      apply elem_of_cons in Hy as [->|Hy].
      * left. rewrite Hx in Hfy. by injection Hfy as <-.
      * right. by exists y, ly.
Qed.

Lemma rpm_repo_path_elem lcp base_path dist_versions p :
  p ∈ _get_rpm_repo_path lcp base_path dist_versions
  ↔ ∃ ver l, ver ∈ dist_versions ∧
             lcp (join "/" [base_path; ver] ++ "/") = Some l ∧ p ∈ l.
Proof.
  induction dist_versions as [|ver rest IH]; cbn [_get_rpm_repo_path].
  - split; [by intros H%elem_of_nil|]. by intros (v & l & H%elem_of_nil & _).
  - cbv zeta.
    destruct (lcp (join "/" [base_path; ver] ++ "/")) as [l0|] eqn:Hl0.
    + rewrite elem_of_app, IH. split.
      * intros [H|(v & l & Hv & Hl & Hp)].
        -- exists ver, l0. split; [apply list_elem_of_here|done].
        -- exists v, l. split; [by apply list_elem_of_further|done].
      * intros (v & l & Hv & Hl & Hp).
        apply elem_of_cons in Hv as [->|Hv].
        -- left. rewrite Hl0 in Hl. by injection Hl as <-.
        -- right. by exists v, l.
    + rewrite IH. split.
      * intros (v & l & Hv & Hl & Hp).
        exists v, l. split; [by apply list_elem_of_further|done].
      * intros (v & l & Hv & Hl & Hp).
        apply elem_of_cons in Hv as [->|Hv]; [congruence|].
        by exists v, l.
Qed.

Lemma deb_repo_path_elem lcp base_path p :
  p ∈ _get_deb_repo_path lcp base_path
  ↔ p = base_path ++ "/" ∧ is_Some (lcp (base_path ++ "/")).
Proof.
  unfold _get_deb_repo_path. cbv zeta.
  destruct (lcp (base_path ++ "/")) as [l|].
  - rewrite list_elem_of_singleton. split; [by intros ->|by intros [-> _]].
  - split; [by intros H%elem_of_nil|]. intros [_ [x Hx]]. done.
Qed.

(** The loop over the distributions fails at the first one whose base
    it does not know. *)
Lemma unknown_base_after_known (entry : str * distr) ds e :
  known_base entry →
  (∃ known dist d rest,
      entry :: ds = known ++ (dist, d) :: rest ∧
      Forall known_base known ∧ ¬ known_base (dist, d) ∧
      e = RuntimeError ("Unknown repository base: " ++ base d))
  ↔ (∃ known dist d rest,
      ds = known ++ (dist, d) :: rest ∧
      Forall known_base known ∧ ¬ known_base (dist, d) ∧
      e = RuntimeError ("Unknown repository base: " ++ base d)).
Proof.
  intros Hentry. split.
  - intros (known & dist & d & rest & Heq & Hk & Hnk & He).
    destruct known as [|k known].
    + injection Heq as ->. done.
    + injection Heq as <- ->. apply Forall_cons in Hk as [_ Hk].
      by exists known, dist, d, rest.
  - intros (known & dist & d & rest & -> & Hk & Hnk & He).
    exists (entry :: known), dist, d, rest. split; [done|].
    split; [by apply Forall_cons|done].
Qed.

(** X11: what discovery returns, when it returns: the paths that the
    listing calls report for the kinds, series and distributions of the
    configuration, and no other. A deb distribution gives its own path
    followed by [/], once the bucket has something under it, whatever
    its versions; an rpm distribution gives the common prefixes found
    under each of its versions. *)
Theorem get_repository_list_members
    (list_common_prefixes : str → option (list str))
    (settings : s3_settings_t) (repos : list str) (p : str) :
  _get_repository_list list_common_prefixes settings = Ok repos →
  p ∈ repos ↔ discovered list_common_prefixes settings p.
Proof.
  intros Hrun. unfold _get_repository_list in Hrun. cbv zeta in Hrun.
  rewrite (extend_each_elem _ _ _ p Hrun). unfold discovered. split.
  - intros (kind & lk & Hkind & Hk & Hp).
    rewrite (extend_each_elem _ _ _ p Hk) in Hp.
    destruct Hp as (series & ls & Hseries & Hs & Hp).
    rewrite (extend_each_elem _ _ _ p Hs) in Hp.
    destruct Hp as ([dist d] & ld & Hd & Hdist & Hp).
    exists kind, series, dist, d. repeat (split; [done|]).
    unfold repos_of_dist in Hdist. cbv zeta.
    destruct (decide (base d = "deb")) as [Hdeb|Hndeb];
      [|destruct (decide (base d = "rpm")) as [Hrpm|Hnrpm]; [|done]];
      injection Hdist as <-.
    + left. apply deb_repo_path_elem in Hp. tauto.
    + right. apply rpm_repo_path_elem in Hp. tauto.
  - intros (kind & series & dist & d & Hkind & Hseries & Hd & Hp).
    cbv zeta in Hp.
    assert (Hin : ∃ ld, repos_of_dist list_common_prefixes settings kind series
                          (dist, d) = Ok ld ∧ p ∈ ld).
    { unfold repos_of_dist. destruct Hp as [(Hdeb & Hp)|(Hrpm & Hp)].
      - rewrite decide_True by done. eexists. split; [done|].
        by apply deb_repo_path_elem.
      - rewrite decide_False by (rewrite Hrpm; done).
        rewrite decide_True by done. eexists. split; [done|].
        by apply rpm_repo_path_elem. }
    destruct Hin as (ld & Hdist & Hpd).
    apply list_elem_of_split in Hkind as (k1 & k2 & Hkinds).
    rewrite Hkinds in Hrun.
    assert (Hsplit : ∀ {A} (f : A → result (list str)) xs1 x xs2 l,
              extend_each f (xs1 ++ x :: xs2) = Ok l → ∃ lx, f x = Ok lx).
    { clear. intros A f xs1 x xs2. induction xs1 as [|y xs1 IH]; intros l; cbn.
      - destruct (f x); [eauto|done].
      - destruct (f y); [|done].
        destruct (extend_each f (xs1 ++ x :: xs2)) eqn:H; [|done]. eauto. }
    destruct (Hsplit _ _ _ _ _ _ Hrun) as (lk & Hk).
    exists kind, lk. split; [rewrite Hkinds; apply elem_of_app; right; apply list_elem_of_here|].
    split; [done|].
    pose proof Hseries as Hseries'.
    apply list_elem_of_split in Hseries' as (s1 & s2 & Hsers).
    pose proof Hk as Hk'. rewrite Hsers in Hk'.
    destruct (Hsplit _ _ _ _ _ _ Hk') as (ls & Hs).
    rewrite (extend_each_elem _ _ _ p Hk).
    exists series, ls. repeat (split; [done|]).
    rewrite (extend_each_elem _ _ _ p Hs).
    by exists (dist, d), ld.
Qed.

Lemma get_repository_list_members_witness :
  discovered (bucket_common_prefixes example_keys) example_settings
    "live/2.8/fedora/31/SRPMS/"
  ∧ discovered (bucket_common_prefixes example_keys) example_settings
      "live/1.10/ubuntu/"
  ∧ ¬ discovered (bucket_common_prefixes example_keys) example_settings
        "live/1.10/fedora/31/x86_64/".
Proof.
  assert (Hrun : _get_repository_list (bucket_common_prefixes example_keys)
                   example_settings
                 = Ok [ "live/1.10/ubuntu/" : str; "live/2.8/ubuntu/" : str;
                        "live/2.8/fedora/31/x86_64/" : str;
                        "live/2.8/fedora/31/SRPMS/" : str ])
    by (vm_compute; reflexivity).
  split; [|split].
  - apply (get_repository_list_members _ _ _ _ Hrun).
    do 3 apply list_elem_of_further. apply list_elem_of_here.
  - apply (get_repository_list_members _ _ _ _ Hrun). apply list_elem_of_here.
  - intros H. apply (get_repository_list_members _ _ _ _ Hrun) in H.
    repeat (apply elem_of_cons in H as [H|H]; [discriminate H|]).
    by apply elem_of_nil in H.
Defined.

(** ** [sync_all_repos] as a whole *)

Lemma sync_log_extends settings permanent schedule w r w' :
  sync settings permanent schedule w = (r, w') → ∃ new, log w' = log w ++ new.
Proof.
  revert w. induction schedule as [|o schedule IH]; intros w.
  - intros [= _ <-]. exists []. by rewrite app_nil_r.
  - cbn [sync]. unfold bind at 1.
    destruct (sync_iteration settings permanent o w) as [[f|e] w1] eqn:Hpass;
      apply sync_iteration_lock in Hpass as (new1 & Hl1 & _).
    + destruct f.
      * intros (new2 & Hl2)%IH. exists (new1 ++ new2).
        by rewrite Hl2, Hl1, <- app_assoc.
      * intros [= _ <-]. by exists new1.
    + intros [= _ <-]. by exists new1.
Qed.

(** The pool never hands the exception of a worker on. *)
Lemma run_workers_returns settings n schedules w :
  ∃ results w' new,
    run_workers settings n schedules w = (Ok results, w') ∧
    length results = n ∧ log w' = log w ++ new.
Proof.
  revert schedules w. induction n as [|n IH]; intros schedules w.
  - exists [], w, []. by rewrite app_nil_r.
  - cbn [run_workers]. unfold bind at 1, pool_worker.
    destruct (sync settings false (default [] (head schedules)) w)
      as [[st|e] w1] eqn:Hsync;
      apply sync_log_extends in Hsync as (new1 & Hl1);
      destruct (IH (tail schedules) w1) as (rs & w' & new2 & Hrest & Hlen & Hl2);
      unfold bind at 1; rewrite Hrest; unfold ret;
      eexists _, w', (new1 ++ new2);
      (split; [reflexivity|]); cbn [length]; rewrite Hlen, Hl2, Hl1, <- app_assoc;
      done.
Qed.

(** Workers that find the set empty return at their first test. *)
Lemma run_workers_on_empty settings n schedules w :
  unsync_repos w = ∅ →
  ∃ results w' new,
    run_workers settings n schedules w = (Ok results, w') ∧
    length results = n ∧
    Forall (λ r, ∃ st, r = Done st) results ∧
    unsync_repos w' = ∅ ∧ log w' = log w ++ new ∧
    pops_of new = [] ∧ popens_of new = [].
Proof.
  revert schedules w. induction n as [|n IH]; intros schedules w He.
  - exists [], w, []. by rewrite app_nil_r.
  - cbn [run_workers]. unfold bind at 1, pool_worker.
    destruct (default [] (head schedules)) as [|o sch].
    + cbn [sync]. unfold ret at 1.
      destruct (IH (tail schedules) w He)
        as (rs & w' & new & Hrest & Hlen & Hdone & He' & Hl & Hp & Hc).
      unfold bind at 1. rewrite Hrest. unfold ret.
      exists (Done Running :: rs), w', new. cbn [length]. rewrite Hlen.
      repeat split; try done. apply Forall_cons. split; [by eexists|done].
    + cbn [sync]. erewrite bind_ok.
      2:{ rewrite sync_iteration_run. by rewrite decide_True by done. }
      cbv beta iota. unfold ret at 1.
      destruct (IH (tail schedules) (emit_all [EvTest false] w) He)
        as (rs & w' & new & Hrest & Hlen & Hdone & He' & Hl & Hp & Hc).
      unfold bind at 1. rewrite Hrest. unfold ret.
      exists (Done Returned :: rs), w', ([EvTest false] ++ new).
      cbn [length]. rewrite Hlen, Hl, pops_of_app, popens_of_app, Hp, Hc.
      repeat split; try done.
      * apply Forall_cons. split; [by eexists|done].
      * unfold emit_all. cbn [log]. by rewrite <- app_assoc.
Qed.

Lemma pops_of_adds repos : pops_of (map EvAdd repos) = [].
Proof. induction repos as [|repo repos IH]; [done|]. exact IH. Qed.

Lemma popens_of_adds repos : popens_of (map EvAdd repos) = [].
Proof. induction repos as [|repo repos IH]; [done|]. exact IH. Qed.

Lemma lock_after_adds held repos l :
  lock_after held (map EvAdd repos ++ l) = lock_after held l.
Proof. induction repos as [|repo repos IH]; [done|]. exact IH. Qed.

(** What [sync_all_repos] does before the pool starts. *)
Lemma sync_all_repos_unfold lcp settings schedules repos w :
  _get_repository_list lcp settings = Ok repos →
  ∃ w1,
    sync_all_repos lcp settings schedules w
    = run_workers settings threads_num schedules w1 ∧
    unsync_repos w1 = list_to_set repos ∪ unsync_repos w ∧
    log w1 = log w ++ EvAcquire :: map EvAdd repos ++ [EvRelease].
Proof.
  intros Hrepos. unfold sync_all_repos.
  erewrite bind_ok; [|unfold lift; by rewrite Hrepos].
  unfold bind at 1, sync_lock_acquire, tell.
  destruct (add_each_run repos (emit EvAcquire w)) as (w0 & Hadd & Hset & Hlog).
  erewrite bind_ok; [|exact Hadd].
  unfold bind at 1, sync_lock_release, tell.
  eexists. split; [reflexivity|]. cbn [unsync_repos log emit].
  split; [exact Hset|]. rewrite Hlog. cbn [log emit]. by rewrite <- !app_assoc.
Qed.

(** X13: [sync_all_repos] raises what discovery raises and then has
    touched neither the lock nor the set. Once discovery has returned it
    raises nothing: it adds every discovered path to the set between one
    [acquire] and one [release], starts [threads_num] workers and waits
    for them with [wait], so that a worker that has died of an exception
    goes unnoticed. *)
Theorem sync_all_repos_outcome
    (list_common_prefixes : str → option (list str))
    (settings : s3_settings_t) (schedules : list (list oracle)) (w : world) :
  match _get_repository_list list_common_prefixes settings with
  | Raise e =>
      sync_all_repos list_common_prefixes settings schedules w = (Raise e, w)
  | Ok repos =>
      ∃ results w' new,
        sync_all_repos list_common_prefixes settings schedules w
        = (Ok results, w') ∧
        length results = threads_num ∧
        log w' = log w ++ (EvAcquire :: map EvAdd repos ++ [EvRelease]) ++ new ∧
        lock_guarded false (EvAcquire :: map EvAdd repos ++ [EvRelease]) = true ∧
        lock_after false (EvAcquire :: map EvAdd repos ++ [EvRelease]) = false
  end.
Proof.
  destruct (_get_repository_list list_common_prefixes settings)
    as [repos|e] eqn:Hrepos.
  - destruct (sync_all_repos_unfold _ _ schedules _ w Hrepos)
      as (w1 & -> & Hset & Hlog).
    destruct (run_workers_returns settings threads_num schedules w1)
      as (results & w' & new & Hrun & Hlen & Hl).
    exists results, w', new. split; [done|]. split; [done|].
    split; [by rewrite Hl, Hlog, <- app_assoc|].
    cbn [lock_guarded lock_after]. rewrite lock_guarded_adds, lock_after_adds.
    done.
  - unfold sync_all_repos, bind at 1, lift. by rewrite Hrepos.
Qed.

(** X14: the workers taken one after the other, the first one left
    alone with a tool that succeeds and given more passes than there are
    paths: [sync_all_repos] runs the tool exactly once on every
    discovered repository and on every repository that was waiting,
    leaves the set empty, and no worker dies. *)
Theorem sync_all_repos_drains
    (list_common_prefixes : str → option (list str))
    (settings : s3_settings_t) (repos : list str)
    (first : list oracle) (rest : list (list oracle)) (w : world) :
  _get_repository_list list_common_prefixes settings = Ok repos →
  Forall (λ o, quiet o ∧ exit_status o = 0) first →
  (size (list_to_set repos ∪ unsync_repos w) < length first)%nat →
  ∃ results w' new,
    sync_all_repos list_common_prefixes settings (first :: rest) w
    = (Ok results, w') ∧
    length results = threads_num ∧
    Forall (λ r, ∃ st, r = Done st) results ∧
    unsync_repos w' = ∅ ∧
    log w' = log w ++ new ∧
    pops_of new ≡ₚ elements (list_to_set repos ∪ unsync_repos w) ∧
    popens_of new
    = map (λ repo, (mkrepo_cmd settings repo, truthy (gpg_sign_key settings)))
        (pops_of new).
Proof.
  intros Hrepos Hfirst Hsize.
  destruct (sync_all_repos_unfold _ _ (first :: rest) _ w Hrepos)
    as (w1 & -> & Hset & Hlog).
  rewrite <- Hset in *.
  destruct (sync_left_alone settings false first w1 Hfirst Hsize)
    as (w2 & new1 & Hsync & He2 & Hl2 & Hpops & Hpopens & _).
  change threads_num with (S (pred threads_num)).
  cbn [run_workers head tail default]. unfold bind at 1, pool_worker, id.
  rewrite Hsync.
  destruct (run_workers_on_empty settings (pred threads_num) rest w2 He2)
    as (rs & w' & new2 & Hrest & Hlen & Hdone & He' & Hl & Hp & Hc).
  unfold bind at 1. rewrite Hrest. unfold ret.
  exists (Done Returned :: rs), w',
    ((EvAcquire :: map EvAdd repos ++ [EvRelease]) ++ new1 ++ new2).
  split; [done|]. split; [cbn [length]; by rewrite Hlen|].
  split; [apply Forall_cons; split; [by eexists|done]|].
  split; [done|].
  split; [by rewrite Hl, Hl2, Hlog, <- !app_assoc|].
  rewrite !pops_of_app, !popens_of_app, Hp, Hc, !app_nil_r.
  change (EvAcquire :: map EvAdd repos ++ [EvRelease])
    with ([EvAcquire] ++ map EvAdd repos ++ [EvRelease]).
  rewrite !pops_of_app, !popens_of_app, pops_of_adds, popens_of_adds.
  cbn [pops_of popens_of omap app]. done.
Qed.

Lemma sync_all_repos_drains_witness :
  ∃ results w',
    sync_all_repos (bucket_common_prefixes example_keys) example_settings
      [replicate 5 (alone 0)] empty_world
    = (Ok results, w') ∧
    unsync_repos w' = ∅ ∧
    length (popens_of (log w')) = 4%nat.
Proof.
  assert (Hrun : _get_repository_list (bucket_common_prefixes example_keys)
                   example_settings
                 = Ok [ "live/1.10/ubuntu/" : str; "live/2.8/ubuntu/" : str;
                        "live/2.8/fedora/31/x86_64/" : str;
                        "live/2.8/fedora/31/SRPMS/" : str ])
    by (vm_compute; reflexivity).
  assert (Hsz : size (list_to_set
                        [ "live/1.10/ubuntu/" : str; "live/2.8/ubuntu/" : str;
                          "live/2.8/fedora/31/x86_64/" : str;
                          "live/2.8/fedora/31/SRPMS/" : str ]
                      ∪ unsync_repos empty_world : gset str) = 4%nat).
  { change (unsync_repos empty_world) with (∅ : gset str).
    rewrite union_empty_r_L, size_list_to_set; [done|].
    apply (bool_decide_unpack _). by vm_compute. }
  destruct (sync_all_repos_drains _ example_settings _
              (replicate 5 (alone 0)) [] empty_world Hrun)
    as (results & w' & new & Hall & _ & _ & He & Hlog & Hpops & Hpopens).
  - by repeat constructor.
  - rewrite Hsz. cbn. lia.
  - exists results, w'. split; [exact Hall|]. split; [exact He|].
    change (log empty_world) with (@nil event) in Hlog. rewrite app_nil_l in Hlog.
    rewrite Hlog, Hpopens, length_map, (Permutation_length Hpops).
    exact Hsz.
Defined.

(** ** From [put_package] to [sync] *)

Lemma upload_loop_marks settings dp dv b files origin local w :
  (∀ f body, (f, body) ∈ files → valid_name b f) →
  ∃ origin' w',
    upload_loop settings dp dv b files origin local w
    = (Ok (origin', mark_all dp dv b files local), w') ∧
    unsync_repos w' = unsync_repos w.
Proof.
  revert origin local w. induction files as [|[f body] files IH];
    intros origin local w Hvalid; [by eexists _, _|].
  cbn [upload_loop]. unfold bind at 1, lift.
  rewrite (valid_name_placed dp dv b f); [|by eapply Hvalid, list_elem_of_here].
  unfold mark_all. cbn [foldl fst].
  destruct (placed dp dv b f) as [repo_path path]. cbn [fst].
  unfold bind at 1.
  destruct (origin !! f) as [src|];
    unfold bind at 1, bucket_copy, upload_fileobj, tell, ret;
    (edestruct IH as (origin' & w' & Hrun & Hset);
     [intros g body' Hg; eapply Hvalid, list_elem_of_further, Hg|]);
    rewrite Hrun; eexists _, _; (split; [reflexivity|]); by rewrite Hset.
Qed.

Lemma upload_files_marks settings package series b origin w :
  dist_base_of settings (Package.dist package) = Ok b →
  (∀ f body, (f, body) ∈ Package.files package → valid_name b f) →
  ∃ origin' w',
    _upload_files settings package series origin w = (Ok origin', w') ∧
    unsync_repos w'
    = mark_all (dist_path_of settings (Package.repo_kind package) series
                  (Package.dist package))
        (Package.dist_version package) b (Package.files package) ∅
      ∪ unsync_repos w.
Proof.
  intros Hb Hvalid. unfold _upload_files.
  erewrite bind_ok; [|unfold lift; by rewrite Hb].
  edestruct upload_loop_marks as (origin' & w1 & Hloop & Hset); [exact Hvalid|].
  erewrite bind_ok; [|exact Hloop]. cbv beta iota. rewrite commit_run.
  eexists _, _. split; [reflexivity|]. unfold commit. cbn [unsync_repos].
  by rewrite Hset.
Qed.

Lemma size_union_le (X Y : gset str) : (size (X ∪ Y) ≤ size X + size Y)%nat.
Proof.
  rewrite size_union_alt.
  assert (size (Y ∖ X) ≤ size Y)%nat; [|lia].
  apply subseteq_size. intros x. rewrite elem_of_difference. tauto.
Qed.

Lemma size_mark_all dp dv b files :
  (size (mark_all dp dv b files ∅) ≤ length files)%nat.
Proof.
  assert (H : ∀ local, (size (mark_all dp dv b files local)
                        ≤ length files + size local)%nat).
  { induction files as [|fb files IH]; intros local; [done|].
    unfold mark_all in *. cbn [foldl length].
    etrans; [apply IH|].
    pose proof (size_union_le {[(placed dp dv b fb.1).1]} local) as Hle.
    rewrite size_singleton in Hle. lia. }
  specialize (H ∅). rewrite size_empty in H. lia.
Qed.

(** The set after [put_package] on a package of the data model: the
    repositories of its files in every series have joined it. *)
Lemma upload_all_marks settings package b series origin w :
  dist_base_of settings (Package.dist package) = Ok b →
  (∀ f body, (f, body) ∈ Package.files package → valid_name b f) →
  let dv := Package.dist_version package in
  let dp s := dist_path_of settings (Package.repo_kind package) s (Package.dist package) in
  ∃ w',
    upload_all settings package series origin w = (Ok tt, w') ∧
    (∀ repo, repo ∈ unsync_repos w' ↔
             repo ∈ unsync_repos w ∨
             ∃ s f body, s ∈ series ∧ (f, body) ∈ Package.files package ∧
                         repo = (placed (dp s) dv b f).1) ∧
    (size (unsync_repos w')
     ≤ size (unsync_repos w) + length series * length (Package.files package))%nat.
Proof.
  intros Hb Hvalid dv dp. revert origin w.
  induction series as [|s series IH]; intros origin w.
  - exists w. split; [done|]. split; [|cbn; lia].
    intros repo. split; [by left|]. intros [H|(s & f & body & Hs & _)]; [done|].
    by apply elem_of_nil in Hs.
  - destruct (upload_files_marks settings package s b origin w Hb Hvalid)
      as (origin' & w1 & Hrun & Hset).
    fold dv (dp s) in Hset.
    destruct (IH origin' w1) as (w' & Hrest & Hmem & Hsize).
    exists w'. split; [|split].
    + cbn [upload_all]. erewrite bind_ok; [exact Hrest|exact Hrun].
    + intros repo. rewrite Hmem, Hset, elem_of_union, mark_all_elem. split.
      * intros [[[H|([f body] & Hf & ->)]|H]|(s' & f & body & Hs' & Hf & ->)].
        -- by apply elem_of_empty in H.
        -- right. exists s, f, body. split; [apply list_elem_of_here|done].
        -- by left.
        -- right. exists s', f, body. split; [by apply list_elem_of_further|done].
      * intros [H|(s' & f & body & Hs' & Hf & ->)]; [by left; right|].
        apply elem_of_cons in Hs' as [->|Hs'].
        -- left. left. right. by exists (f, body).
        -- right. by exists s', f, body.
    + rewrite Hset in Hsize.
      pose proof (size_union_le
                    (mark_all (dp s) dv b (Package.files package) ∅)
                    (unsync_repos w)) as Hle.
      pose proof (size_mark_all (dp s) dv b (Package.files package)) as Hm.
      cbn [length]. lia.
Qed.

(** X15: what is put gets its metainformation rebuilt. A package of
    the data model is put, and a worker is then left alone with a tool
    that succeeds, for more passes than there can be paths in the set:
    the tool is run exactly once on every repository of every file of
    the package in every series it went to, and once on every path that
    was waiting before, on nothing else, and the set is empty at the
    end. *)
Theorem put_package_then_sync
    (settings : s3_settings_t) (package : package_t) (b : str)
    (permanent : bool) (schedule : list oracle) (w : world) :
  dist_base_of settings (Package.dist package) = Ok b →
  (∀ f body, (f, body) ∈ Package.files package → valid_name b f) →
  Forall (λ o, quiet o ∧ exit_status o = 0) schedule →
  (size (unsync_repos w)
   + length (series_to_upload settings package) * length (Package.files package)
   < length schedule)%nat →
  let dv := Package.dist_version package in
  let dp s := dist_path_of settings (Package.repo_kind package) s (Package.dist package) in
  ∃ w1 w2 new,
    put_package settings package w = (Ok tt, w1) ∧
    sync settings permanent schedule w1
    = (Ok (if permanent then Running else Returned), w2) ∧
    unsync_repos w2 = ∅ ∧
    log w2 = log w1 ++ new ∧
    NoDup (pops_of new) ∧
    (∀ repo, repo ∈ pops_of new ↔
             repo ∈ unsync_repos w ∨
             ∃ s f body, s ∈ series_to_upload settings package ∧
                         (f, body) ∈ Package.files package ∧
                         repo = (placed (dp s) dv b f).1) ∧
    popens_of new
    = map (λ repo, (mkrepo_cmd settings repo, truthy (gpg_sign_key settings)))
        (pops_of new).
Proof.
  intros Hb Hvalid Hquiet Hlen dv dp.
  destruct (upload_all_marks settings package b
              (series_to_upload settings package) ∅ w Hb Hvalid)
    as (w1 & Hput & Hmem & Hsize).
  destruct (sync_left_alone settings permanent schedule w1 Hquiet)
    as (w2 & new & Hsync & He & Hlog & Hpops & Hpopens & _); [lia|].
  exists w1, w2, new. rewrite put_package_unfold.
  repeat (split; [done|]). split; [|split; [|done]].
  - rewrite Hpops. apply NoDup_elements.
  - intros repo. rewrite Hpops, elem_of_elements. apply Hmem.
Qed.

Lemma put_package_then_sync_witness :
  ∃ w1 w2,
    put_package example_settings single_package empty_world = (Ok tt, w1) ∧
    sync example_settings true (replicate 3 (alone 0)) w1 = (Ok Running, w2) ∧
    unsync_repos w2 = ∅ ∧
    popens_of (log w2)
    = [ (mkrepo_cmd example_settings "live/2.8/ubuntu", None) ].
Proof.
  destruct (put_package_then_sync example_settings single_package "deb" true
              (replicate 3 (alone 0)) empty_world)
    as (w1 & w2 & new & Hput & Hsync & He & Hlog & Hnd & Hmem & Hpopens).
  - reflexivity.
  - apply small_files_valid.
  - by repeat constructor.
  - change (unsync_repos empty_world) with (∅ : gset str). rewrite size_empty.
    vm_compute. lia.
  - exists w1, w2. repeat (split; [done|]).
    assert (Hp : pops_of new = ["live/2.8/ubuntu" : str]).
    { assert (Hall : ∀ repo, repo ∈ pops_of new → repo = ("live/2.8/ubuntu" : str)).
      { intros repo [H|(s & f & body & Hs & Hf & ->)]%Hmem;
          [by apply elem_of_empty in H|].
        apply list_elem_of_singleton in Hs as ->.
        apply elem_of_cons in Hf as [[= -> ->]|Hf]; [reflexivity|].
        apply list_elem_of_singleton in Hf as [= -> ->]. reflexivity. }
      assert (Hin : ("live/2.8/ubuntu" : str) ∈ pops_of new).
      { apply Hmem. right.
        exists ("2.8" : str), ("small_1.0-1_all.deb" : str), small_deb.
        split; [apply list_elem_of_here|]. split; [apply list_elem_of_here|done]. }
      destruct (pops_of new) as [|p [|q l]].
      - by apply elem_of_nil in Hin.
      - f_equal. apply Hall, list_elem_of_here.
      - exfalso. apply NoDup_cons in Hnd as [Hnot _]. apply Hnot.
        rewrite (Hall p), <- (Hall q); [apply list_elem_of_here|..].
        + apply list_elem_of_further, list_elem_of_here.
        + apply list_elem_of_here. }
    assert (Huploads : popens_of (log w1) = []).
    { destruct (upload_all_marks example_settings single_package "deb"
                  (series_to_upload example_settings single_package) ∅
                  empty_world eq_refl small_files_valid) as (w1' & Hput' & _).
      rewrite put_package_unfold in Hput. rewrite Hput' in Hput.
      injection Hput as <-. clear -Hput'. vm_compute in Hput'.
      by injection Hput' as <-. }
    rewrite Hlog, popens_of_app, Huploads, Hpopens, Hp. done.
Defined.

(** * The view *)

(** ** [split] and [join] *)

Lemma split_cons_nonempty sep s : ∃ h t, split sep s = h :: t.
Proof.
  destruct s as [|c s]; [by eexists _, _|]. cbn [split].
  destruct (decide (c = sep)); [by eexists _, _|].
  destruct (split sep s); by eexists _, _.
Qed.

Lemma split_no_sep sep s : sep ∉ s → split sep s = [s].
Proof.
  induction s as [|c s IH]; [done|]. intros Hnot. cbn [split].
  rewrite decide_False by (intros ->; apply Hnot, list_elem_of_here).
  rewrite IH; [done|]. intros H. by apply Hnot, list_elem_of_further.
Qed.

Lemma split_app sep a b : split sep (a ++ sep :: b) = split sep a ++ split sep b.
Proof.
  induction a as [|c a IH]; cbn [app split].
  - by rewrite decide_True by done.
  - destruct (decide (c = sep)); [by rewrite IH|].
    rewrite IH. destruct (split_cons_nonempty sep a) as (h & t & ->). done.
Qed.

Lemma join_split sep s : join [sep] (split sep s) = s.
Proof.
  induction s as [|c s IH]; [done|]. cbn [split].
  destruct (decide (c = sep)) as [->|Hne].
  - destruct (split_cons_nonempty sep s) as (h & t & Hs).
    rewrite Hs in *. cbn in *. by rewrite IH.
  - destruct (split_cons_nonempty sep s) as (h & t & Hs).
    rewrite Hs in *. cbn in *. by rewrite IH.
Qed.

Lemma last_split_app sep a b :
  last (split sep (a ++ sep :: b)) = last (split sep b).
Proof.
  rewrite split_app. destruct (split_cons_nonempty sep b) as (h & t & ->).
  apply last_app_cons.
Qed.

Lemma last_occurrence (sep : ascii) (s : str) :
  sep ∉ s ∨ ∃ d name, s = d ++ sep :: name ∧ sep ∉ name.
Proof.
  induction s as [|c s IH]; [left; by intros H%elem_of_nil|].
  destruct IH as [Hnot|(d & name & -> & Hname)].
  - destruct (decide (c = sep)) as [->|Hne].
    + right. by exists [], s.
    + left. rewrite elem_of_cons. intros [?|?]; by auto.
  - right. by exists (c :: d), name.
Qed.

(** The last component of a path: what follows its last separator. *)
Lemma last_split sep s :
  ∃ dir name,
    s = dir ++ name ∧ (sep ∉ name) ∧ (dir = [] ∨ [sep] `suffix_of` dir) ∧
    last (split sep s) = Some name.
Proof.
  destruct (last_occurrence sep s) as [Hnot|(d & name & -> & Hname)].
  - exists [], s. repeat split; try done; [by left|].
    by rewrite split_no_sep.
  - exists (d ++ [sep]), name. rewrite <- app_assoc. repeat split; try done.
    + right. by exists d.
    + cbn [app]. by rewrite last_split_app, split_no_sep.
Qed.

(** ** [S3View.get_file] *)

(** X16: a download is offered under the last component of its path,
    and an object that [_format_paths] has placed for a file name
    without [/] comes back under that very name, with the bytes of the
    store as they are. Without an answer of the store to read from, the
    call raises [TypeError]. *)
Theorem view_get_file_offers_filename (fields : Type)
    (dist_path dist_version dist_base filename repo_path path : str)
    (responce : S3View.s3_object) :
  _format_paths dist_path dist_version dist_base filename = Ok (repo_path, path) →
  ("/" : ascii) ∉ filename →
  S3View.get_file (fields := fields) path (Some responce)
  = S3View.Returns
      (S3View.Attachment (stream_bytes (S3View.Body responce))
         "application/octet-stream"
         [("Content-Disposition" : str, "attachment; filename=" ++ filename)])
  ∧ S3View.get_file (fields := fields) path None = S3View.Raises S3View.TypeError.
Proof.
  intros Hpath Hname. split; [|done].
  assert (Hlast : last (split "/" path) = Some filename).
  { apply format_paths_ok_inv in Hpath
      as [(_ & _ & _ & ->)|[(_ & _ & _ & ->)|(_ & _ & _ & ->)]].
    - change (list_ascii_of_string "/Packages/")
        with (("/Packages" : str) ++ "/"%char :: []).
      rewrite !app_assoc, <- (app_assoc _ [_] filename). cbn [app].
      by rewrite last_split_app, split_no_sep.
    - change (list_ascii_of_string "/Packages/")
        with (("/Packages" : str) ++ "/"%char :: []).
      rewrite !app_assoc, <- (app_assoc _ [_] filename). cbn [app].
      by rewrite last_split_app, split_no_sep.
    - rewrite !app_assoc.
      change (list_ascii_of_string "/") with ("/"%char :: []).
      rewrite <- (app_assoc _ [_] filename). cbn [app].
      by rewrite last_split_app, split_no_sep. }
  unfold S3View.get_file. by rewrite Hlast.
Qed.

Lemma view_get_file_offers_filename_witness :
  S3View.get_file (fields := unit)
    "live/2.8/ubuntu/pool/disco/main/s/small/small_1.0-1_all.deb"
    (Some {| S3View.Body := small_deb |})
  = S3View.Returns
      (S3View.Attachment "deb bytes" "application/octet-stream"
         [("Content-Disposition" : str,
           "attachment; filename=small_1.0-1_all.deb" : str)]).
Proof.
  apply (view_get_file_offers_filename unit "live/2.8/ubuntu" "disco" "deb"
           "small_1.0-1_all.deb" "live/2.8/ubuntu"
           "live/2.8/ubuntu/pool/disco/main/s/small/small_1.0-1_all.deb"
           {| S3View.Body := small_deb |}).
  - vm_compute. reflexivity.
  - apply (bool_decide_unpack _). vm_compute. exact I.
Defined.

(** ** [S3View.get_directory] *)

(** X17: the page of a directory. The link to the parent is the path
    without its last component when the path ends in [/], as the paths
    of directories do: [parent/name/] gives [parent], and [name/] gives
    the empty path. A path without the final [/] loses two components.
    The entries stay as many and in their order, and all but [Size] is
    left as it was. *)
Theorem view_get_directory_parent (fields : Type) (normpath : str → str)
    (abs_path bucket_name parent name : str)
    (items : list (S3View.item fields (option Z))) :
  ("/" : ascii) ∉ name →
  let page rel_path :=
    S3View.get_directory normpath abs_path rel_path bucket_name items in
  let parameters rel_path parent_path :=
    S3View.Rendered "index.html"
      {| S3View.displayed_path := normpath ("/" ++ bucket_name ++ "/" ++ abs_path);
         S3View.path := rel_path;
         S3View.parent_path := parent_path;
         S3View.items := map S3View.readable_item items |} in
  page (parent ++ "/" ++ name ++ "/") = parameters (parent ++ "/" ++ name ++ "/") parent
  ∧ page (name ++ "/") = parameters (name ++ "/") []
  ∧ (∀ dir, ("/" : ascii) ∉ dir →
       page (parent ++ "/" ++ dir ++ "/" ++ name)
       = parameters (parent ++ "/" ++ dir ++ "/" ++ name) parent)
  ∧ map S3View.item_fields (map S3View.readable_item items)
    = map S3View.item_fields items.
Proof.
  intros Hname page parameters.
  assert (Hparent : ∀ a b : str, ("/" : ascii) ∉ a → ("/" : ascii) ∉ b →
            let parts := split "/" (parent ++ "/" ++ a ++ "/" ++ b) in
            join "/" (take (length parts - 2) parts) = parent).
  { intros a b Ha Hb parts. unfold parts.
    change (list_ascii_of_string "/") with ("/"%char :: []). cbn [app].
    rewrite split_app, split_app, (split_no_sep _ a), (split_no_sep _ b) by done.
    rewrite length_app. cbn [length app].
    replace (length (split "/" parent) + 2 - 2)%nat
      with (length (split "/" parent) + 0)%nat by lia.
    rewrite take_app_add, app_nil_r. apply (join_split "/"). }
  split; [|split; [|split]].
  - unfold page, parameters, S3View.get_directory. cbv zeta. rewrite join3.
    specialize (Hparent name [] Hname). cbv zeta in Hparent.
    rewrite app_nil_r in Hparent. rewrite Hparent by (by intros H%elem_of_nil).
    done.
  - unfold page, parameters, S3View.get_directory. cbv zeta. rewrite join3.
    change (list_ascii_of_string "/") with ("/"%char :: []).
    rewrite split_app, (split_no_sep _ name) by done. done.
  - intros dir Hdir. unfold page, parameters, S3View.get_directory. cbv zeta. rewrite join3.
    by rewrite (Hparent dir name Hdir Hname).
  - rewrite map_map. apply map_ext. intros it. unfold S3View.readable_item.
    by destruct (S3View.Size it).
Qed.

Lemma view_get_directory_parent_witness :
  S3View.get_directory (fields := unit) posix_normpath
    "tarantool/live/2.8/" "live/2.8/" "packages" []
  = S3View.Rendered "index.html"
      {| S3View.displayed_path := "/packages/tarantool/live/2.8";
         S3View.path := "live/2.8/";
         S3View.parent_path := "live";
         S3View.items := [] |}.
Proof.
  apply (view_get_directory_parent unit posix_normpath
           "tarantool/live/2.8/" "packages" "live" "2.8" []).
  apply (bool_decide_unpack _). vm_compute. exact I.
Defined.

(** ** Sizes on the page *)

Lemma Qabs_inject_Z_lt n (k : Z) :
  (Qabs (inject_Z n) < inject_Z k)%Q ↔ Z.abs n < k.
Proof. unfold Qlt, Qabs, inject_Z. cbn. lia. Qed.

Lemma Qabs_scaled_lt n (d : positive) (k : Z) :
  (Qabs (n # d) < inject_Z k)%Q ↔ Z.abs n < k * Z.pos d.
Proof. unfold Qlt, Qabs, inject_Z. cbn. lia. Qed.

(** The text for a size, by the unit the loop stops at. *)
Lemma readable_size_units (n : Z) :
  let units := ["" : str; "Ki" : str; "Mi" : str; "Gi" : str] in
  let size := inject_Z n in
  readable_size size units
  = if decide (Z.abs n < 1024) then format_3_1f size ++ " B"
    else if decide (Z.abs n < 1024 ^ 2) then
      format_3_1f (size / 1024) ++ " KiB"
    else if decide (Z.abs n < 1024 ^ 3) then
      format_3_1f (size / 1024 / 1024) ++ " MiB"
    else if decide (Z.abs n < 1024 ^ 4) then
      format_3_1f (size / 1024 / 1024 / 1024) ++ " GiB"
    else [].
Proof.
  intros units size. unfold units, size. cbn [readable_size].
  assert (H1 : (Qabs (inject_Z n) < 1024)%Q ↔ Z.abs n < 1024)
    by apply (Qabs_inject_Z_lt n 1024).
  assert (H2 : (Qabs (inject_Z n / 1024) < 1024)%Q ↔ Z.abs n < 1024 ^ 2).
  { unfold Qlt, Qabs, Qdiv, Qmult, Qinv, inject_Z. cbn. lia. }
  assert (H3 : (Qabs (inject_Z n / 1024 / 1024) < 1024)%Q ↔ Z.abs n < 1024 ^ 3).
  { unfold Qlt, Qabs, Qdiv, Qmult, Qinv, inject_Z. cbn. lia. }
  assert (H4 : (Qabs (inject_Z n / 1024 / 1024 / 1024) < 1024)%Q
               ↔ Z.abs n < 1024 ^ 4).
  { unfold Qlt, Qabs, Qdiv, Qmult, Qinv, inject_Z. cbn. lia. }
  destruct (Qlt_le_dec (Qabs (inject_Z n)) 1024) as [Hlt|Hge].
  { rewrite decide_True by (by apply H1). done. }
  rewrite decide_False by (rewrite <- H1; by apply Qle_not_lt).
  destruct (Qlt_le_dec (Qabs (inject_Z n / 1024)) 1024) as [Hlt2|Hge2].
  { rewrite decide_True by (by apply H2). done. }
  rewrite decide_False by (rewrite <- H2; by apply Qle_not_lt).
  destruct (Qlt_le_dec (Qabs (inject_Z n / 1024 / 1024)) 1024) as [Hlt3|Hge3].
  { rewrite decide_True by (by apply H3). done. }
  rewrite decide_False by (rewrite <- H3; by apply Qle_not_lt).
  destruct (Qlt_le_dec (Qabs (inject_Z n / 1024 / 1024 / 1024)) 1024)
    as [Hlt4|Hge4].
  { rewrite decide_True by (by apply H4). done. }
  rewrite decide_False by (rewrite <- H4; by apply Qle_not_lt). done.
Qed.

(** A whole number of bytes is shown with [.0]. *)
Lemma format_3_1f_whole (n : Z) :
  0 ≤ n → format_3_1f (inject_Z n) = (pretty n : string) ++ ".0".
Proof.
  intros Hn. unfold format_3_1f.
  assert (Hr : round_half_even (Qabs (inject_Z n) * 10) = n * 10).
  { unfold round_half_even, Qabs, inject_Z, Qmult, Qfloor. cbn [Qnum Qden].
    rewrite Z.abs_eq by done. change (Z.pos (1 * 1)) with 1. rewrite Z.div_1_r.
    cbv zeta.
    replace (Qcompare _ _) with Lt; [done|]. symmetry.
    unfold Qcompare, Qminus, Qplus, Qopp. cbn. apply Z.compare_lt_iff. lia. }
  cbv zeta. rewrite Hr.
  rewrite Z.div_mul by done. rewrite Z.mod_mul by done.
  destruct (Qlt_le_dec (inject_Z n) 0) as [Hneg|_]; [|done].
  unfold Qlt, inject_Z in Hneg. cbn in Hneg. lia.
Qed.

(** X18: the size shown for an entry of a directory. An entry without
    size stays without. Below 1024 bytes the number of bytes is shown
    with [.0 B]; from there on the size is divided by 1024 until it is
    below 1024, and shown with one digit after the point and [KiB],
    [MiB] or [GiB]. From 1024 GiB on the loop runs out of units and the
    size shown is the empty text. *)
Theorem view_readable_size (fields : Type)
    (it : S3View.item fields (option Z)) (n : Z) :
  S3View.Size it = Some n →
  0 ≤ n < 2 ^ 1023 →
  let size := inject_Z n in
  S3View.Size (S3View.readable_item it)
  = (if decide (n < 1024) then (pretty n : string) ++ ".0 B"
     else if decide (n < 1024 ^ 2) then
       format_3_1f (size / 1024) ++ " KiB"
     else if decide (n < 1024 ^ 3) then
       format_3_1f (size / 1024 / 1024) ++ " MiB"
     else if decide (n < 1024 ^ 4) then
       format_3_1f (size / 1024 / 1024 / 1024) ++ " GiB"
     else [])
  ∧ S3View.item_fields (S3View.readable_item it) = S3View.item_fields it.
Proof.
  intros Hsize [Hn _] size. unfold S3View.readable_item. rewrite Hsize.
  split; [|done]. cbn [S3View.Size S3View._replace].
  rewrite readable_size_units. cbv zeta. rewrite Z.abs_eq by done.
  destruct (decide (n < 1024)); [|done].
  rewrite format_3_1f_whole by done. by rewrite <- app_assoc.
Qed.

Lemma view_readable_size_witness :
  S3View.Size (S3View.readable_item
                 {| S3View.item_fields := "disk.img" : str;
                    S3View.Size := Some (2 ^ 40) |})
  = ([] : str)
  ∧ S3View.Size (S3View.readable_item
                   {| S3View.item_fields := "README" : str;
                      S3View.Size := Some 1536 |})
    = ("1.5 KiB" : str).
Proof.
  split.
  - apply (view_readable_size str
             {| S3View.item_fields := "disk.img" : str;
                S3View.Size := Some (2 ^ 40) |} (2 ^ 40) eq_refl).
    split; [done|]. reflexivity.
  - apply (view_readable_size str
             {| S3View.item_fields := "README" : str;
                S3View.Size := Some 1536 |} 1536 eq_refl).
    split; [done|]. reflexivity.
Defined.

(** ** [S3View.dispatch_request] *)

(** X19: what a request makes of an exception of the model. The model
    is asked for the path that [normpath] leaves of [base_path/subpath],
    stripped of its outer slashes. A [RuntimeError] raised by that call
    is answered with status 500 and the text of the error alone: the
    prefix that names the operation is set only after the call has
    returned. Any other exception of the model leaves the view. *)
Theorem dispatch_request_model_error (fields : Type) (normpath : str → str)
    (model : S3View.model_t fields) (base subpath type : str)
    (e : exn) (w w' : world) :
  base_path (S3View.model_s3_settings model) = Some base →
  (∃ get_directory,
     type = "directory" ∧
     S3View.model_get_directory model = Some get_directory ∧
     get_directory (as_directory (abs_path_of normpath base subpath)) w
     = (Raise e, w'))
  ∨ (type = "file" ∧
     S3View.model_get_file model (abs_path_of normpath base subpath) w
     = (Raise e, w')) →
  S3View.dispatch_request normpath model subpath type w
  = (match e with
     | RuntimeError err => S3View.Returns (S3View.Json err 500)
     | _ => S3View.Raises (S3View.Exn e)
     end, w').
Proof.
  intros Hbase Hcall. unfold S3View.dispatch_request. rewrite Hbase. cbv zeta.
  fold (rel_path_of subpath). fold (abs_path_of normpath base subpath).
  destruct Hcall as [(g & -> & Hg & Hcall)|(-> & Hcall)].
  - rewrite decide_True by done. rewrite Hg.
    fold (as_directory (abs_path_of normpath base subpath)). rewrite Hcall.
    by destruct e.
  - rewrite decide_False by done. rewrite decide_True by done. rewrite Hcall.
    by destruct e.
Qed.

Lemma dispatch_request_model_error_witness :
  S3View.dispatch_request posix_normpath listing_model "/broken/" "directory"
    empty_world
  = (S3View.Returns (S3View.Json "no such directory" 500), empty_world).
Proof.
  apply (dispatch_request_model_error str posix_normpath listing_model
           "tarantool" "/broken/" "directory"
           (RuntimeError "no such directory") empty_world empty_world eq_refl).
  left. eexists. split; [reflexivity|]. split; [reflexivity|].
  vm_compute. reflexivity.
Defined.

(** X20: a view over an [S3AsyncModel] serves nothing. With
    [base_path] unset every request raises [TypeError], whatever its
    type. Otherwise a request for a directory raises [AttributeError],
    the class having no [get_directory]; a request for a file raises
    [TypeError], the stub [get_file] having returned [None]; any other
    type is answered with status 404. No request is answered with a page
    or a download, and none changes the state of the model. *)
Theorem dispatch_request_on_S3AsyncModel (fields : Type) (normpath : str → str)
    (settings : s3_settings_t) (subpath type : str) (w : world) :
  S3View.dispatch_request normpath (S3View.S3AsyncModel fields settings)
    subpath type w
  = (match base_path settings with
     | None => S3View.Raises S3View.TypeError
     | Some _ =>
         if decide (type = "directory") then S3View.Raises S3View.AttributeError
         else if decide (type = "file") then S3View.Raises S3View.TypeError
         else S3View.Returns (S3View.Json "Wrong URL." 404)
     end, w).
Proof.
  unfold S3View.dispatch_request, S3View.S3AsyncModel.
  cbn [S3View.model_s3_settings S3View.model_get_directory S3View.model_get_file].
  destruct (base_path settings) as [base|]; [|done]. cbv zeta.
  destruct (decide (type = "directory")); [done|].
  destruct (decide (type = "file")); done.
Qed.

(** * Calls that fail *)

(** ** [put_package] with a store that may refuse *)

Section FaultyUpload.

Variable faulty : WithFaults.faults.





End FaultyUpload.



(** ** [sync] with a tool that may not start *)

Lemma faulty_sync_iteration_run settings permanent o w :
  WithFaults.sync_iteration settings permanent o w
  = if decide (unsync_repos w = ∅) then
      if permanent
      then (WithFaults.Returns Continue, emit_all [EvTest false; EvSleep 5] w)
      else (WithFaults.Returns Break, emit_all [EvTest false] w)
    else
      let s1 := before_pop (WithFaults.meets o) (unsync_repos w) in
      match pick (WithFaults.meets o) s1 with
      | None =>
          (WithFaults.Raises (WithFaults.Own (KeyError "pop from an empty set")),
           set_unsync s1 (emit_all [EvTest true; EvAcquire] w))
      | Some repo =>
          match WithFaults.popen_raises o with
          | Some msg =>
              (WithFaults.Raises (WithFaults.OSError msg),
               set_unsync (s1 ∖ {[repo]})
                 (emit_all [EvTest true; EvAcquire; EvPop repo; EvRelease] w))
          | None =>
              let s2 := while_running (WithFaults.meets o) (s1 ∖ {[repo]}) in
              let popen :=
                EvPopen (mkrepo_cmd settings repo)
                  (truthy (gpg_sign_key settings)) in
              if decide (exit_status (WithFaults.meets o) ≠ 0) then
                (WithFaults.Returns Continue,
                 set_unsync ({[repo]} ∪ s2)
                   (emit_all [EvTest true; EvAcquire; EvPop repo; EvRelease; popen;
                              EvAcquire; EvAdd repo; EvRelease] w))
              else
                (WithFaults.Returns Continue,
                 set_unsync s2
                   (emit_all [EvTest true; EvAcquire; EvPop repo; EvRelease;
                              popen] w))
          end
      end.
Proof.
  unfold WithFaults.sync_iteration, WithFaults.bind at 1, WithFaults.own at 1,
    unsync_test.
  destruct (decide (unsync_repos w = ∅)) as [He|Hne].
  - rewrite bool_decide_eq_false_2 by (by intros H; apply H).
    cbn [WithFaults.of_result]. destruct permanent; [|done].
    unfold WithFaults.bind, WithFaults.own, WithFaults.ret, tell, emit, emit_all.
    cbn. by rewrite <- !app_assoc.
  - rewrite bool_decide_eq_true_2 by done. cbn [WithFaults.of_result].
    unfold WithFaults.bind at 1, WithFaults.own at 1, others.
    cbn [WithFaults.of_result].
    unfold WithFaults.bind at 1, WithFaults.own at 1, sync_lock_acquire, tell.
    cbn [WithFaults.of_result].
    unfold WithFaults.bind at 1, WithFaults.own at 1, unsync_pop.
    cbn [unsync_repos set_unsync emit]. cbv zeta.
    destruct (pick (WithFaults.meets o)
                (before_pop (WithFaults.meets o) (unsync_repos w))) as [repo|].
    + cbn [WithFaults.of_result].
      unfold WithFaults.bind at 1, WithFaults.own at 1, sync_lock_release, tell.
      cbn [WithFaults.of_result].
      unfold WithFaults.bind at 1, WithFaults.Popen.
      destruct (WithFaults.popen_raises o) as [msg|].
      * unfold emit, emit_all, set_unsync. cbn. by rewrite <- !app_assoc.
      * unfold WithFaults.bind, WithFaults.own, WithFaults.ret, others,
          sync_lock_acquire, sync_lock_release, unsync_add, tell, emit, emit_all,
          set_unsync.
        destruct (decide (exit_status (WithFaults.meets o) ≠ 0)); cbn;
          by rewrite <- !app_assoc.
    + cbn [WithFaults.of_result]. unfold emit, emit_all, set_unsync.
      cbn. by rewrite <- !app_assoc.
Qed.

(** Where the tool starts, a pass is the pass of [sync]. *)
Lemma faulty_sync_iteration_started settings permanent o w :
  WithFaults.popen_raises o = None →
  WithFaults.sync_iteration settings permanent o w
  = WithFaults.own (sync_iteration settings permanent (WithFaults.meets o)) w.
Proof.
  intros Hstart. rewrite faulty_sync_iteration_run. unfold WithFaults.own.
  rewrite sync_iteration_run, Hstart. cbv zeta.
  destruct (decide (unsync_repos w = ∅)); [by destruct permanent|].
  destruct (pick _ _); [|done].
  by destruct (decide (exit_status (WithFaults.meets o) ≠ 0)).
Qed.




(** ** Discovery with a listing that may raise *)

Lemma append_each_uniform_raise {A B} (f : A → result (list B))
    (P : exn → Prop) xs e :
  (∀ x e, f x = Raise e ↔ P e) →
  WithFaults.append_each f xs = Raise e ↔ xs ≠ [] ∧ P e.
Proof.
  intros Hf. induction xs as [|x xs IH]; cbn [WithFaults.append_each].
  - split; [done|]. by intros [H _].
  - destruct (f x) as [lx|e0] eqn:Hx.
    + assert (HnP : ¬ P e) by (intros HP; apply (Hf x) in HP; congruence).
      destruct (WithFaults.append_each f xs) as [l'|e1].
      * split; [done|]. by intros [_ HP].
      * split; [|by intros [_ HP]].
        intros [= ->]. exfalso. apply HnP. by apply IH.
    + split.
      * intros [= ->]. split; [done|]. by apply (Hf x).
      * intros [_ HP]. apply (Hf x) in HP. congruence.
Qed.

Lemma append_each_flat_map {A B} (f : A → result (list B)) (g : A → list B) xs l :
  (∀ x lx, x ∈ xs → f x = Ok lx → lx = g x) →
  WithFaults.append_each f xs = Ok l → l = flat_map g xs.
Proof.
  revert l. induction xs as [|x xs IH]; intros l Hfg; cbn [WithFaults.append_each].
  - by intros [= <-].
  - destruct (f x) as [lx|e] eqn:Hx; [|done].
    destruct (WithFaults.append_each f xs) as [l'|e] eqn:Hrest; [|done].
    intros [= <-]. cbn [flat_map]. f_equal.
    + apply Hfg; [apply list_elem_of_here|done].
    + apply IH; [|done]. intros y ly Hy. apply Hfg. by apply list_elem_of_further.
Qed.

Lemma tasks_of_distrs_raise settings kind series ds e :
  WithFaults.append_each (WithFaults.task_of settings kind series) ds = Raise e
  ↔ ∃ known dist d rest,
      ds = known ++ (dist, d) :: rest ∧
      Forall known_base known ∧ ¬ known_base (dist, d) ∧
      e = RuntimeError ("Unknown repository base: " ++ base d).
Proof.
  induction ds as [|[dist d] ds IH]; cbn [WithFaults.append_each].
  - split; [done|]. intros (known & dist & d & rest & H & _).
    by destruct known.
  - destruct (decide (known_base (dist, d))) as [Hknown|Hunknown].
    + rewrite (unknown_base_after_known _ _ _ Hknown), <- IH.
      assert (Hok : ∃ l, WithFaults.task_of settings kind series (dist, d) = Ok l).
      { unfold WithFaults.task_of. destruct Hknown as [H|H]; cbn in H.
        - rewrite decide_True by done. eauto.
        - destruct (decide (base d = "deb")); [eauto|].
          rewrite decide_True by done. eauto. }
      destruct Hok as (l & ->).
      by destruct (WithFaults.append_each _ ds).
    + assert (Hraise : WithFaults.task_of settings kind series (dist, d)
                       = Raise (RuntimeError ("Unknown repository base: " ++ base d))).
      { unfold WithFaults.task_of, known_base in *. cbn in Hunknown.
        rewrite !decide_False by tauto. done. }
      rewrite Hraise. split.
      * intros [= <-]. by exists [], dist, d, ds.
      * intros (known & dist' & d' & rest & Heq & Hk & Hnk & He).
        destruct known as [|k known].
        -- injection Heq as <- <- _. by rewrite He.
        -- injection Heq as <- Heq. by apply Forall_cons in Hk as [Hk _].
Qed.

(** The three loops raise for the first distribution whose base they
    do not know, before any listing is looked at. *)
Lemma result_list_raise settings e :
  WithFaults.result_list settings = Raise e
  ↔ repo_kind (supported_repos settings) ≠ [] ∧
    tarantool_series (supported_repos settings) ≠ [] ∧
    ∃ known dist d rest,
      distrs (supported_repos settings) = known ++ (dist, d) :: rest ∧
      Forall known_base known ∧ ¬ known_base (dist, d) ∧
      e = RuntimeError ("Unknown repository base: " ++ base d).
Proof.
  unfold WithFaults.result_list. cbv zeta.
  apply (append_each_uniform_raise _
           (λ e, tarantool_series (supported_repos settings) ≠ [] ∧
                 ∃ known dist d rest,
                   distrs (supported_repos settings) = known ++ (dist, d) :: rest ∧
                   Forall known_base known ∧ ¬ known_base (dist, d) ∧
                   e = RuntimeError ("Unknown repository base: " ++ base d))).
  intros kind e0.
  apply (append_each_uniform_raise _
           (λ e, ∃ known dist d rest,
                   distrs (supported_repos settings) = known ++ (dist, d) :: rest ∧
                   Forall known_base known ∧ ¬ known_base (dist, d) ∧
                   e = RuntimeError ("Unknown repository base: " ++ base d))).
  intros series e1. apply tasks_of_distrs_raise.
Qed.

Lemma result_list_requests settings results :
  WithFaults.result_list settings = Ok results → results = requests settings.
Proof.
  unfold WithFaults.result_list, requests. cbv zeta.
  apply append_each_flat_map. intros kind lk _.
  apply append_each_flat_map. intros series ls _.
  apply append_each_flat_map. intros [dist d] lx _.
  unfold WithFaults.task_of, tasks_of_entry. cbn [fst snd].
  destruct (decide (base d = "deb")); [by intros [= <-]|].
  destruct (decide (base d = "rpm")); [by intros [= <-]|done].
Qed.

Lemma first_unknown_base (ds : list (str * distr)) :
  Forall known_base ds
  ∨ ∃ known dist d rest,
      ds = known ++ (dist, d) :: rest ∧
      Forall known_base known ∧ ¬ known_base (dist, d).
Proof.
  induction ds as [|[dist d] ds IH]; [by left|].
  destruct (decide (known_base (dist, d))) as [Hk|Hu].
  - destruct IH as [Hall|(known & dist' & d' & rest & -> & Hknown & Hu)].
    + left. by apply Forall_cons.
    + right. exists ((dist, d) :: known), dist', d', rest.
      split; [done|]. split; [by apply Forall_cons|done].
  - right. by exists [], dist, d, ds.
Qed.

Section FaultyDiscovery.

Variable list_common_prefixes : str → WithFaults.outcome (option (list str)).

Lemma first_raise_app l1 l2 :
  first_raise list_common_prefixes (l1 ++ l2)
  = match first_raise list_common_prefixes l1 with
    | Some e => Some e
    | None => first_raise list_common_prefixes l2
    end.
Proof.
  induction l1 as [|p l1 IH]; [done|]. cbn [app first_raise].
  by destruct (list_common_prefixes p).
Qed.

Lemma first_raise_Some l e :
  first_raise list_common_prefixes l = Some e
  ↔ ∃ before p after,
      l = before ++ p :: after ∧
      Forall (λ q, ∃ r, list_common_prefixes q = WithFaults.Returns r) before ∧
      list_common_prefixes p = WithFaults.Raises e.
Proof.
  induction l as [|q l IH]; cbn [first_raise].
  - split; [done|]. intros (before & p & after & H & _). by destruct before.
  - destruct (list_common_prefixes q) as [r|e0] eqn:Hq.
    + rewrite IH. split.
      * intros (before & p & after & -> & Hb & Hp).
        exists (q :: before), p, after. split; [done|].
        split; [apply Forall_cons; split; [by exists r|done]|done].
      * intros (before & p & after & Heq & Hb & Hp).
        destruct before as [|q' before].
        -- injection Heq as <- _. congruence.
        -- injection Heq as <- ->. apply Forall_cons in Hb as [_ Hb].
           by exists before, p, after.
    + split.
      * intros [= <-]. by exists [], q, l.
      * intros (before & p & after & Heq & Hb & Hp).
        destruct before as [|q' before].
        -- injection Heq as <- _. congruence.
        -- injection Heq as <- _. apply Forall_cons in Hb as [[r Hr] _]. congruence.
Qed.

(** A task raises what its first failing listing raises. *)
Lemma get_first_raise res :
  match WithFaults.get list_common_prefixes res with
  | WithFaults.Raises e =>
      first_raise list_common_prefixes (prefixes_of res) = Some e
  | WithFaults.Returns _ =>
      first_raise list_common_prefixes (prefixes_of res) = None
  end.
Proof.
  destruct res as [path|path versions]; cbn [WithFaults.get prefixes_of].
  - unfold WithFaults._get_deb_repo_path. cbv zeta. cbn [first_raise].
    by destruct (list_common_prefixes (path ++ "/")) as [[l|]|e].
  - induction versions as [|ver versions IH]; [done|].
    cbn [WithFaults._get_rpm_repo_path map first_raise]. cbv zeta.
    destruct (list_common_prefixes (join "/" [path; ver] ++ "/")) as [[l|]|e];
      [|done|done].
    by destruct (WithFaults._get_rpm_repo_path list_common_prefixes path versions).
Qed.

Lemma extend_all_first_raise results :
  match WithFaults.extend_all list_common_prefixes results with
  | WithFaults.Raises e =>
      first_raise list_common_prefixes (flat_map prefixes_of results) = Some e
  | WithFaults.Returns _ =>
      first_raise list_common_prefixes (flat_map prefixes_of results) = None
  end.
Proof.
  induction results as [|res results IH]; [done|].
  cbn [WithFaults.extend_all flat_map]. rewrite first_raise_app.
  pose proof (get_first_raise res) as Hres.
  destruct (WithFaults.get list_common_prefixes res) as [l|e]; rewrite Hres; [|done].
  by destruct (WithFaults.extend_all list_common_prefixes results).
Qed.

End FaultyDiscovery.

(** X12: when discovery raises, and what. With a kind, a series and a
    distribution whose base is neither [deb] nor [rpm], it raises
    [RuntimeError] naming the base of the first such distribution,
    whatever the bucket holds and whatever happens to the listings: the
    error comes while the requests are made, before any result is read.
    In every other case it raises exactly when a listing raises, and
    then the exception of the first listing that raises, in the order
    of the requests. *)
Theorem get_repository_list_raises
    (list_common_prefixes : str → WithFaults.outcome (option (list str)))
    (settings : s3_settings_t) (e : WithFaults.raised) :
  WithFaults._get_repository_list list_common_prefixes settings
  = WithFaults.Raises e
  ↔ (repo_kind (supported_repos settings) ≠ [] ∧
     tarantool_series (supported_repos settings) ≠ [] ∧
     ∃ known dist d rest,
       distrs (supported_repos settings) = known ++ (dist, d) :: rest ∧
       Forall known_base known ∧ ¬ known_base (dist, d) ∧
       e = WithFaults.Own
             (RuntimeError ("Unknown repository base: " ++ base d)))
    ∨ ((repo_kind (supported_repos settings) = []
        ∨ tarantool_series (supported_repos settings) = []
        ∨ Forall known_base (distrs (supported_repos settings))) ∧
       ∃ before p after,
         listing_prefixes settings = before ++ p :: after ∧
         Forall (λ q, ∃ r, list_common_prefixes q = WithFaults.Returns r) before ∧
         list_common_prefixes p = WithFaults.Raises e).
Proof.
  unfold WithFaults._get_repository_list.
  destruct (WithFaults.result_list settings) as [results|e0] eqn:Hlist.
  - (* all the requests were made *)
    assert (Hknown : repo_kind (supported_repos settings) = []
                     ∨ tarantool_series (supported_repos settings) = []
                     ∨ Forall known_base (distrs (supported_repos settings))).
    { destruct (repo_kind (supported_repos settings)) as [|k ks] eqn:Hk;
        [by left|].
      destruct (tarantool_series (supported_repos settings)) as [|s ss] eqn:Hs;
        [by right; left|].
      destruct (first_unknown_base (distrs (supported_repos settings)))
        as [Hall|(known & dist & d & rest & Hd & Hkn & Hu)]; [by right; right|].
      exfalso.
      assert (Hr : WithFaults.result_list settings
                   = Raise (RuntimeError ("Unknown repository base: " ++ base d))).
      { apply result_list_raise. rewrite Hk, Hs. repeat split; try done.
        by exists known, dist, d, rest. }
      congruence. }
    apply result_list_requests in Hlist as ->.
    pose proof (extend_all_first_raise list_common_prefixes (requests settings))
      as Hall.
    fold (listing_prefixes settings) in Hall.
    rewrite <- first_raise_Some. split.
    + intros Hraise. right. split; [done|]. by rewrite Hraise in Hall.
    + intros [(Hk & Hs & known & dist & d & rest & Hd & Hkn & Hu & _)|[_ Hfirst]].
      * exfalso. destruct Hknown as [H|[H|H]]; [done|done|].
        rewrite Hd in H. apply Forall_app in H as [_ H].
        by apply Forall_cons in H as [H _].
      * destruct (WithFaults.extend_all list_common_prefixes (requests settings));
          congruence.
  - (* a request could not be made *)
    pose proof Hlist as Hcond. apply result_list_raise in Hcond
      as (Hk & Hs & known & dist & d & rest & Hd & Hkn & Hu & ->).
    split.
    + intros [= <-]. left. repeat split; try done. by exists known, dist, d, rest.
    + intros [(_ & _ & known' & dist' & d' & rest' & Hd' & Hkn' & Hu' & ->)
             |[[H|[H|H]] _]]; [|done|done|].
      * assert (Hr : WithFaults.result_list settings
                     = Raise (RuntimeError ("Unknown repository base: " ++ base d'))).
        { apply result_list_raise. repeat split; try done.
          by exists known', dist', d', rest'. }
        congruence.
      * exfalso. rewrite Hd in H. apply Forall_app in H as [_ H].
        by apply Forall_cons in H as [H _].
Qed.

(** ** Where no call fails

    With a store that refuses nothing, a tool that starts and a listing
    that returns, the methods of this part do what the methods of the
    first part do. *)

Lemma upload_loop_no_faults settings dp dv b files origin local w :
  WithFaults.upload_loop no_faults settings dp dv b files origin local w
  = WithFaults.own (upload_loop settings dp dv b files origin local) w.
Proof.
  revert origin local w. induction files as [|[f body] files IH];
    intros origin local w; [done|].
  cbn [WithFaults.upload_loop upload_loop].
  unfold WithFaults.bind at 1, WithFaults.own at 1, WithFaults.own at 1,
    bind at 1, lift.
  destruct (_format_paths dp dv b f) as [[repo_path path]|e]; [|done].
  cbn [WithFaults.of_result].
  unfold WithFaults.bind at 1, bind at 1.
  destruct (origin !! f) as [src|];
    unfold WithFaults.bind at 1, WithFaults.bucket_copy, WithFaults.upload_fileobj,
      WithFaults.store_call, no_faults, WithFaults.ret, bind at 1, bucket_copy,
      upload_fileobj, tell, ret;
    rewrite IH; reflexivity.
Qed.

Lemma upload_files_no_faults settings package series origin w :
  WithFaults._upload_files no_faults settings package series origin w
  = WithFaults.own (_upload_files settings package series origin) w.
Proof.
  unfold WithFaults._upload_files, _upload_files, WithFaults.own, WithFaults.bind,
    bind, lift.
  destruct (dist_base_of settings (Package.dist package)) as [b|e]; [|done].
  cbn [WithFaults.of_result]. rewrite upload_loop_no_faults.
  unfold WithFaults.own.
  destruct (upload_loop _ _ _ _ _ _ _ w) as [[[origin' local']|e] w1]; [|done].
  reflexivity.
Qed.

Lemma upload_all_no_faults settings package series origin w :
  WithFaults.upload_all no_faults settings package series origin w
  = WithFaults.own (upload_all settings package series origin) w.
Proof.
  revert origin w. induction series as [|s series IH]; intros origin w; [done|].
  cbn [WithFaults.upload_all upload_all].
  unfold WithFaults.bind at 1. rewrite upload_files_no_faults.
  unfold WithFaults.own, bind.
  destruct (_upload_files settings package s origin w) as [[origin'|e] w1];
    [|done].
  cbn [WithFaults.of_result]. rewrite IH. reflexivity.
Qed.

Lemma put_package_no_faults settings package w :
  WithFaults.put_package no_faults settings package w
  = WithFaults.own (put_package settings package) w.
Proof. apply upload_all_no_faults. Qed.

Lemma sync_tool_starts settings permanent schedule w :
  Forall (λ o, WithFaults.popen_raises o = None) schedule →
  WithFaults.sync settings permanent schedule w
  = WithFaults.own (sync settings permanent (map WithFaults.meets schedule)) w.
Proof.
  intros Hall. revert w. induction Hall as [|o schedule Ho Hall IH]; intros w;
    [done|].
  cbn [WithFaults.sync sync map].
  unfold WithFaults.bind at 1. rewrite faulty_sync_iteration_started by done.
  unfold WithFaults.own, bind.
  destruct (sync_iteration settings permanent (WithFaults.meets o) w)
    as [[f|e] w1]; [|done].
  cbn [WithFaults.of_result]. destruct f; [|done]. rewrite IH. reflexivity.
Qed.

Section QuietListing.

Variable list_common_prefixes : str → option (list str).

Lemma extend_all_app results1 results2 :
  WithFaults.extend_all (returning list_common_prefixes) (results1 ++ results2)
  = match WithFaults.extend_all (returning list_common_prefixes) results1 with
    | WithFaults.Raises e => WithFaults.Raises e
    | WithFaults.Returns l1 =>
        match WithFaults.extend_all (returning list_common_prefixes) results2 with
        | WithFaults.Raises e => WithFaults.Raises e
        | WithFaults.Returns l2 => WithFaults.Returns (l1 ++ l2)
        end
    end.
Proof.
  induction results1 as [|res results1 IH]; cbn [app WithFaults.extend_all].
  - by destruct (WithFaults.extend_all _ results2).
  - destruct (WithFaults.get _ res) as [l|e]; [|done]. rewrite IH.
    destruct (WithFaults.extend_all _ results1) as [l1|e]; [|done].
    destruct (WithFaults.extend_all _ results2) as [l2|e]; [|done].
    by rewrite app_assoc.
Qed.

Lemma rpm_repo_path_quiet path versions :
  WithFaults._get_rpm_repo_path (returning list_common_prefixes) path versions
  = WithFaults.Returns (_get_rpm_repo_path list_common_prefixes path versions).
Proof.
  induction versions as [|ver versions IH]; [done|].
  cbn [WithFaults._get_rpm_repo_path _get_rpm_repo_path]. cbv zeta.
  unfold returning at 1.
  destruct (list_common_prefixes (join "/" [path; ver] ++ "/")); by rewrite IH.
Qed.

Lemma agree_each {A} (f : A → result (list str))
    (g : A → result (list WithFaults.task)) xs :
  (∀ x, agree list_common_prefixes (f x) (g x)) →
  agree list_common_prefixes (extend_each f xs) (WithFaults.append_each g xs).
Proof.
  intros Hfg. induction xs as [|x xs IH];
    cbn [extend_each WithFaults.append_each]; [by exists []|].
  specialize (Hfg x). unfold agree in Hfg, IH |- *.
  destruct (g x) as [ts|e].
  - destruct Hfg as (l & -> & Hl).
    destruct (WithFaults.append_each g xs) as [ts'|e].
    + destruct IH as (l' & -> & Hl'). exists (l ++ l'). split; [done|].
      by rewrite extend_all_app, Hl, Hl'.
    + by rewrite IH.
  - by rewrite Hfg.
Qed.

Lemma get_repository_list_quiet settings :
  WithFaults._get_repository_list (returning list_common_prefixes) settings
  = WithFaults.of_result (_get_repository_list list_common_prefixes settings).
Proof.
  assert (Hagree : agree list_common_prefixes
                     (_get_repository_list list_common_prefixes settings)
                     (WithFaults.result_list settings)).
  { unfold _get_repository_list, WithFaults.result_list. cbv zeta.
    apply agree_each. intros kind. apply agree_each. intros series.
    apply agree_each. intros [dist d].
    unfold agree, repos_of_dist, WithFaults.task_of.
    destruct (decide (base d = "deb")).
    - eexists. split; [reflexivity|].
      cbn [WithFaults.extend_all WithFaults.get].
      unfold WithFaults._get_deb_repo_path, _get_deb_repo_path, returning.
      cbv zeta.
      destruct (list_common_prefixes _); by rewrite ?app_nil_r.
    - destruct (decide (base d = "rpm")); [|done].
      eexists. split; [reflexivity|].
      cbn [WithFaults.extend_all WithFaults.get].
      rewrite rpm_repo_path_quiet. by rewrite app_nil_r. }
  unfold WithFaults._get_repository_list. unfold agree in Hagree.
  destruct (WithFaults.result_list settings) as [results|e].
  - destruct Hagree as (l & -> & ->). done.
  - by rewrite Hagree.
Qed.

End QuietListing.
